(** * mtkclient, [Library/utils.py]: the ELF address resolver and the
      UART-safe offset synthesizer ([ELF] and [Patchtools]).

    Python integers are unbounded, so addresses and divisors are [Z];
    [bytes] objects are lists of [byte]; a raised exception is an explicit
    [Raise] outcome; text written by [print] is collected in a log. *)

From Stdlib Require Import ZArith List Bool String Ascii Strings.Byte Lia.
From Stdlib Require Import HexadecimalString DecimalString.
Import ListNotations.
Open Scope Z_scope.

(** ** Python values and outcomes *)

Definition bytes := list byte.

Inductive exn : Type :=
| StructError   (* struct.error: argument out of range, wrong buffer size *)
| IndexError.   (* index out of range *)

(** What a call does: it returns a value, raises, or (in a fuelled loop
    only) is cut off before it finishes. *)
Inductive result (A : Type) : Type :=
| Ok (a : A)
| Raise (e : exn)
| OutOfFuel.
Arguments Ok {A} a.
Arguments Raise {A} e.
Arguments OutOfFuel {A}.

Definition bind {A B} (m : result A) (k : A -> result B) : result B :=
  match m with
  | Ok a => k a
  | Raise e => Raise e
  | OutOfFuel => OutOfFuel
  end.

Notation "x <- m ;; k" := (bind m (fun x => k))
  (at level 61, m at next level, right associativity).

Fixpoint bytes_eqb (a b : bytes) : bool :=
  match a, b with
  | [], [] => true
  | x :: a', y :: b' => Byte.eqb x y && bytes_eqb a' b'
  | _, _ => false
  end.

(** [data[a:b]] for indices [0 <= a]; Python clamps a slice to the buffer. *)
Definition slice (a b : nat) (data : bytes) : bytes :=
  firstn (b - a) (skipn a data).

(** ** The [struct] module, little-endian standard sizes *)
Module Struct.

Definition byte_of_Z (z : Z) : byte :=
  match Byte.of_N (Z.to_N (z mod 256)) with
  | Some b => b
  | None => x00
  end.

Definition Z_of_byte (b : byte) : Z := Z.of_N (Byte.to_N b).

Fixpoint le_bytes (n : nat) (v : Z) : bytes :=
  match n with
  | O => []
  | S n' => byte_of_Z v :: le_bytes n' (v / 256)
  end.

Fixpoint le_value (data : bytes) : Z :=
  match data with
  | [] => 0
  | b :: rest => Z_of_byte b + 256 * le_value rest
  end.

(** [struct.pack("<I", v)] and [struct.pack("<H", v)]: an argument outside
    the unsigned range of the format raises [struct.error]. *)
Definition pack_uint (n : nat) (v : Z) : result bytes :=
  if (0 <=? v) && (v <? 2 ^ (8 * Z.of_nat n)) then Ok (le_bytes n v)
  else Raise StructError.

Definition pack_I : Z -> result bytes := pack_uint 4.
Definition pack_H : Z -> result bytes := pack_uint 2.

(** [struct.unpack("<...", dat)] for a format of unsigned fields, given by
    their widths in bytes: the buffer must have exactly the size of the
    format. *)
Fixpoint fields (widths : list nat) (dat : bytes) : list Z :=
  match widths with
  | [] => []
  | w :: ws => le_value (firstn w dat) :: fields ws (skipn w dat)
  end.

Definition calcsize (widths : list nat) : nat := list_sum widths.

Definition unpack (widths : list nat) (dat : bytes) : result (list Z) :=
  if Nat.eqb (List.length dat) (calcsize widths) then Ok (fields widths dat)
  else Raise StructError.

End Struct.

(** ** [class Patchtools] *)
Module Patchtools.

(** The list [badchars] local to [has_bad_uart_chars]: seven one-byte
    [bytes] objects. *)
Definition badchars : list bytes :=
  [[x00]; [x0a]; [x0d]; [x08]; [x7f]; [x20]; [x09]].

(** [c = bytes([c]); if c in badchars: return True]; [False] after the
    loop. *)
Fixpoint has_bad_uart_chars (data : bytes) : bool :=
  match data with
  | [] => false
  | c :: rest =>
      let c := [c] in
      if existsb (bytes_eqb c) badchars then true
      else has_bad_uart_chars rest
  end.

(** The two [while] loops of [generate_offset].  The source fixes the bound
    [0x606] and the filter [has_bad_uart_chars]; the loops are written over
    both, so that the iteration bound can be stated for every bound and
    filter.  A loop returns [Some r] when it leaves the function through
    [return], [None] when its condition fails, together with the number
    of times its body ran.  [fuel] counts evaluations of the loop
    condition. *)
Section Loops.
Variable limit : Z.
Variable bad : bytes -> bool.
Variable offset : Z.

(** [found] is set to [False] before the first loop and never assigned
    again. *)
Definition found : bool := false.

Fixpoint positive_pass (fuel : nat) (div : Z) : result (option Z) * nat :=
  match fuel with
  | O => (OutOfFuel, O)
  | S fuel' =>
      if negb found && (div <? limit) then
        match Struct.pack_I (offset + div) with
        | Ok data =>
            match Struct.pack_H div with
            | Ok data2 =>
                if negb (bad data) && negb (bad data2)
                then (Ok (Some div), 1%nat)
                else let (r, n) := positive_pass fuel' (div + 4) in (r, S n)
            | Raise e => (Raise e, 1%nat)
            | OutOfFuel => (OutOfFuel, 1%nat)
            end
        | Raise e => (Raise e, 1%nat)
        | OutOfFuel => (OutOfFuel, 1%nat)
        end
      else (Ok None, O)
  end.

Fixpoint negative_pass (fuel : nat) (div : Z) : result (option Z) * nat :=
  match fuel with
  | O => (OutOfFuel, O)
  | S fuel' =>
      if negb found && (div <? limit) then
        match Struct.pack_I (offset - div) with
        | Ok data =>
            match Struct.pack_H div with
            | Ok data2 =>
                if negb (bad data) && negb (bad data2)
                then (Ok (Some (- div)), 1%nat)
                else let (r, n) := negative_pass fuel' (div + 4) in (r, S n)
            | Raise e => (Raise e, 1%nat)
            | OutOfFuel => (OutOfFuel, 1%nat)
            end
        | Raise e => (Raise e, 1%nat)
        | OutOfFuel => (OutOfFuel, 1%nat)
        end
      else (Ok None, O)
  end.

(** The body of [generate_offset]: the result, and the iterations of the
    first and of the second loop. *)
Definition generate_offset_run (fuel : nat) : result Z * (nat * nat) :=
  let (r1, n1) := positive_pass fuel 0 in
  match r1 with
  | Ok (Some div) => (Ok div, (n1, O))
  | Ok None =>
      let (r2, n2) := negative_pass fuel 0 in
      match r2 with
      | Ok (Some div) => (Ok div, (n1, n2))
      | Ok None => (Ok 0, (n1, n2))
      | Raise e => (Raise e, (n1, n2))
      | OutOfFuel => (OutOfFuel, (n1, n2))
      end
  | Raise e => (Raise e, (n1, O))
  | OutOfFuel => (OutOfFuel, (n1, O))
  end.

(** ceil(limit / 4): the values [0, 4, 8, ...] below [limit]. *)
Definition max_iterations : nat := Z.to_nat ((limit + 3) / 4).

(** One condition check more than bodies run: the check that ends the
    loop. *)
Definition enough_fuel : nat := S max_iterations.

End Loops.

Definition boundsLimit : Z := 0x606.

Definition generate_offset (offset : Z) : result Z :=
  fst (generate_offset_run boundsLimit has_bad_uart_chars offset
         (enough_fuel boundsLimit)).

Local Open Scope string_scope.

(** Python's [hex]: lower-case digits, no padding, sign before the
    prefix. *)
Definition hex (v : Z) : string :=
  match v with
  | Zneg p =>
      "-0x" ++ HexadecimalString.NilZero.string_of_uint (N.to_hex_uint (Npos p))
  | _ => "0x" ++ HexadecimalString.NilZero.string_of_uint (N.to_hex_uint (Z.to_N v))
  end.

Definition nl : string := String "010"%char EmptyString.

(** [generate_offset_asm(self, offset, reg)], the f-strings appended in
    the order of the source. *)
Definition generate_offset_asm (offset : Z) (reg : string) : result string :=
  div <- generate_offset offset ;;
  let abase := Z.shiftr (Z.land (offset + div) 0xFFFF0000) 16 in
  let a := Z.land (offset + div) 0xFFFF in
  let strasm := EmptyString in
  let strasm := strasm ++ "# " ++ hex offset ++ nl in
  let strasm := strasm ++ "mov " ++ reg ++ ", #" ++ hex a ++ ";" ++ nl in
  let strasm :=
    strasm ++ "movk " ++ reg ++ ", #" ++ hex abase ++ ", LSL#16;" ++ nl in
  let strasm :=
    if div >? 0
    then strasm ++ "sub  " ++ reg ++ ", " ++ reg ++ ", #" ++ hex div ++ ";" ++ nl
    else strasm ++ "add  " ++ reg ++ ", " ++ reg ++ ", #" ++ hex (- div) ++ ";" ++ nl
  in
  Ok strasm.

(** [codecs.encode(data, 'hex')]: two lower-case digits per byte. *)
Definition hexdigit (n : N) : ascii :=
  ascii_of_N (if (n <? 10)%N then 48 + n else 87 + n)%N.

Fixpoint hexlify (data : bytes) : string :=
  match data with
  | [] => EmptyString
  | b :: rest =>
      let n := Byte.to_N b in
      String (hexdigit (n / 16)) (String (hexdigit (n mod 16)) (hexlify rest))
  end.

(** A [bytes] value under [%s] or [print]: its [repr].  Only strings of
    hexadecimal digits are printed here, so nothing is escaped. *)
Definition repr_hex (data : bytes) : string := "b'" ++ hexlify data ++ "'".

Definition dec (n : nat) : string :=
  DecimalString.NilZero.string_of_uint (Nat.to_uint n).

(** The list [badchars] local to [uart_valid_sc]. *)
Definition badchars_sc : list bytes :=
  [[x00]; [x0a]; [x0d]; [x08]; [x7f]; [x20]; [x09]].

(** [uart_valid_sc(sc)]: the verdict and the arguments of the [print]
    calls, in order.  [%d] truncates the quotient [idx / 4]. *)
Fixpoint uart_valid_sc_loop (sc : bytes) (idx : nat) (rest : bytes)
  : bool * list string :=
  match rest with
  | [] => (true, [])
  | c :: rest' =>
      let c := [c] in
      if existsb (bytes_eqb c) badchars_sc then
        (false,
         [ "bad char 0x" ++ repr_hex c ++ " in SC at offset " ++ dec idx
             ++ ", opcode # " ++ dec (idx / 4) ++ "!" ++ nl;
           repr_hex sc ])
      else uart_valid_sc_loop sc (S idx) rest'
  end.

Definition uart_valid_sc (sc : bytes) : bool * list string :=
  uart_valid_sc_loop sc 0%nat sc.


End Patchtools.


(** ** [class ELF] *)
Module ELF.

Module MemorySegment.
Record t : Type := mk {
  phy_addr : Z;
  virt_start_addr : Z;
  virt_end_addr : Z;
  file_start_addr : Z;
  file_end_addr : Z
}.
End MemorySegment.

Module ProgramEntry.
Record t : Type := mk {
  p_type : Z;
  from_file : Z;
  virt_addr : Z;
  phy_addr : Z;
  seg_file_len : Z;
  seg_mem_len : Z;
  p_flags : Z;
  p_align : Z
}.
(** The class attributes: what a fresh instance reads before any field
    is assigned. *)
Definition default : t := mk 0 0 0 0 0 0 0 0.
End ProgramEntry.

(** [parse] returns a two-element list: the header bytes and the entries,
    or two empty strings on an unknown class. *)
Inductive header_val : Type :=
| HeaderBytes (b : bytes)
| HeaderEmptyStr.

Inductive pentry_val : Type :=
| PentryList (l : list ProgramEntry.t)
| PentryEmptyStr.

(** [for entry in self.pentry]: an empty string yields nothing. *)
Definition iterate (p : pentry_val) : list ProgramEntry.t :=
  match p with
  | PentryList l => l
  | PentryEmptyStr => []
  end.

Record t : Type := mk {
  data : bytes;
  filename : string;
  elfclass : Z;
  header : header_val;
  pentry : pentry_val;
  memorylayout : list MemorySegment.t
}.

Definition zslice (a b : Z) (dat : bytes) : bytes :=
  slice (Z.to_nat a) (Z.to_nat b) dat.

Definition parse_programentry (elfclass : Z) (dat : bytes)
  : result ProgramEntry.t :=
  if elfclass =? 1 then
    v <- Struct.unpack [4; 4; 4; 4; 4; 4; 4; 4]%nat dat ;;
    match v with
    | [p_type; from_file; virt_addr; phy_addr; seg_file_len; seg_mem_len;
       p_flags; p_align] =>
        Ok (ProgramEntry.mk p_type from_file virt_addr phy_addr seg_file_len
              seg_mem_len p_flags p_align)
    | _ => Raise StructError
    end
  else if elfclass =? 2 then
    v <- Struct.unpack [4; 4; 8; 8; 8; 8; 8; 8]%nat dat ;;
    match v with
    | [p_type; p_flags; from_file; virt_addr; phy_addr; seg_file_len;
       seg_mem_len; p_align] =>
        Ok (ProgramEntry.mk p_type from_file virt_addr phy_addr seg_file_len
              seg_mem_len p_flags p_align)
    | _ => Raise StructError
    end
  else Ok ProgramEntry.default.

(** [for i in range(0, programheaderentrycount)], appending to [pentry]. *)
Fixpoint parse_entries (dat : bytes) (elfclass elfheadersize entsize : Z)
    (range : list nat) : result (list ProgramEntry.t) :=
  match range with
  | [] => Ok []
  | i :: range' =>
      let start := elfheadersize + Z.of_nat i * entsize in
      let end_ := start + entsize in
      pe <- parse_programentry elfclass (zslice start end_ dat) ;;
      rest <- parse_entries dat elfclass elfheadersize entsize range' ;;
      Ok (pe :: rest)
  end.

(** [parse(self)]: what it returns, paired with the value it has stored
    in [self.elfclass] by then, and what it prints. *)
Definition parse (dat : bytes) (filename : string)
  : result (Z * (header_val * pentry_val)) * list string :=
  match nth_error dat 4 with
  | None => (Raise IndexError, [])
  | Some c =>
      let elfclass := Struct.Z_of_byte c in
      let table (start : Z) : result (Z * (header_val * pentry_val)) :=
        v <- Struct.unpack [2; 2; 2]%nat (zslice start (start + 3 * 2) dat) ;;
        match v with
        | [elfheadersize; programheaderentrysize; programheaderentrycount] =>
            let programheadersize :=
              programheaderentrysize * programheaderentrycount in
            let header := zslice 0 (elfheadersize + programheadersize) dat in
            pentry <- parse_entries dat elfclass elfheadersize
                        programheaderentrysize
                        (seq 0 (Z.to_nat programheaderentrycount)) ;;
            Ok (elfclass, (HeaderBytes header, PentryList pentry))
        | _ => Raise StructError
        end in
      if elfclass =? 1 then (table 0x28, [])
      else if elfclass =? 2 then (table 0x34, [])
      else (Ok (elfclass, (HeaderEmptyStr, PentryEmptyStr)),
            [("Error on parsing " ++ filename)%string])
  end.

Definition segment_of (entry : ProgramEntry.t) : MemorySegment.t :=
  MemorySegment.mk
    (ProgramEntry.phy_addr entry)
    (ProgramEntry.virt_addr entry)
    (ProgramEntry.virt_addr entry + ProgramEntry.seg_mem_len entry)
    (ProgramEntry.from_file entry)
    (ProgramEntry.from_file entry + ProgramEntry.seg_file_len entry).

(** [__init__(self, indata, filename)]: the object built, or the
    exception [parse] raised, and what was printed. *)
Definition init (indata : bytes) (filename : string)
  : result t * list string :=
  let (r, out) := parse indata filename in
  (parsed <- r ;;
   let '(elfclass, (header, pentry)) := parsed in
   Ok (mk indata filename elfclass header pentry
         (map segment_of (iterate pentry))),
   out).

Fixpoint getfileoffset_scan (layout : list MemorySegment.t) (offset : Z)
  : option Z :=
  match layout with
  | [] => None
  | memsegment :: layout' =>
      if (MemorySegment.virt_end_addr memsegment >=? offset)
         && (offset >=? MemorySegment.virt_start_addr memsegment)
      then Some (offset - MemorySegment.virt_start_addr memsegment
                 + MemorySegment.file_start_addr memsegment)
      else getfileoffset_scan layout' offset
  end.

Definition getfileoffset (self : t) (offset : Z) : option Z :=
  getfileoffset_scan (memorylayout self) offset.

Fixpoint getvirtaddr_scan (layout : list MemorySegment.t) (fileoffset : Z)
  : option Z :=
  match layout with
  | [] => None
  | memsegment :: layout' =>
      if (MemorySegment.file_end_addr memsegment >=? fileoffset)
         && (fileoffset >=? MemorySegment.file_start_addr memsegment)
      then Some (MemorySegment.virt_start_addr memsegment + fileoffset
                 - MemorySegment.file_start_addr memsegment)
      else getvirtaddr_scan layout' fileoffset
  end.

Definition getvirtaddr (self : t) (fileoffset : Z) : option Z :=
  getvirtaddr_scan (memorylayout self) fileoffset.

Fixpoint getbaseaddr_scan (layout : list MemorySegment.t) (offset : Z)
  : option Z :=
  match layout with
  | [] => None
  | memsegment :: layout' =>
      if (MemorySegment.virt_end_addr memsegment >=? offset)
         && (offset >=? MemorySegment.virt_start_addr memsegment)
      then Some (MemorySegment.virt_start_addr memsegment)
      else getbaseaddr_scan layout' offset
  end.

Definition getbaseaddr (self : t) (offset : Z) : option Z :=
  getbaseaddr_scan (memorylayout self) offset.

End ELF.

(** ** Notions of the specification *)

(** The forbidden byte set {0x00, 0x0A, 0x0D, 0x08, 0x7F, 0x20, 0x09}. *)
Definition forbiddenSet : list byte := [x00; x0a; x0d; x08; x7f; x20; x09].

(** [isSafe(buffer, forbiddenSet)]: no byte of the buffer is in the set. *)
Definition isSafe (buffer : bytes) : Prop :=
  Forall (fun b => ~ In b forbiddenSet) buffer.

(** The encodings tried for a divisor [d] against an adjusted address
    [target]: the 4-byte little-endian encoding of [target] and the 2-byte
    little-endian encoding of [d] exist and neither holds a byte that
    [bad] rejects. *)
Definition passes (bad : bytes -> bool) (target d : Z) : Prop :=
  exists data data2,
    Struct.pack_I target = Ok data /\ Struct.pack_H d = Ok data2
    /\ bad data = false /\ bad data2 = false.

(** Both encodings exist and [bad] rejects one of them. *)
Definition rejected (bad : bytes -> bool) (target d : Z) : Prop :=
  exists data data2,
    Struct.pack_I target = Ok data /\ Struct.pack_H d = Ok data2
    /\ (bad data = true \/ bad data2 = true).

(** The common shape of the two loops of [generate_offset]: [addr] is the
    adjusted address the body encodes, [ret] the value it returns. *)
Section LoopShape.
Variable limit : Z.
Variable bad : bytes -> bool.
Variables addr ret : Z -> Z.

Fixpoint pass (fuel : nat) (div : Z) : result (option Z) * nat :=
  match fuel with
  | O => (OutOfFuel, O)
  | S fuel' =>
      if negb Patchtools.found && (div <? limit) then
        match Struct.pack_I (addr div) with
        | Ok data =>
            match Struct.pack_H div with
            | Ok data2 =>
                if negb (bad data) && negb (bad data2)
                then (Ok (Some (ret div)), 1%nat)
                else let (r, n) := pass fuel' (div + 4) in (r, S n)
            | Raise e => (Raise e, 1%nat)
            | OutOfFuel => (OutOfFuel, 1%nat)
            end
        | Raise e => (Raise e, 1%nat)
        | OutOfFuel => (OutOfFuel, 1%nat)
        end
      else (Ok None, O)
  end.

(** Condition checks a loop started at [div] needs to run to its end. *)
Definition needed (div : Z) : nat := S (Z.to_nat ((limit - div + 3) / 4)).
End LoopShape.

(** An address lies in the inclusive virtual (resp. file) range of a
    segment. *)
Definition covers_virt (s : ELF.MemorySegment.t) (q : Z) : Prop :=
  ELF.MemorySegment.virt_start_addr s <= q <= ELF.MemorySegment.virt_end_addr s.

Definition covers_file (s : ELF.MemorySegment.t) (q : Z) : Prop :=
  ELF.MemorySegment.file_start_addr s <= q <= ELF.MemorySegment.file_end_addr s.

(** [s] is the first segment of [layout], in table order, that satisfies
    [covers]. *)
Definition first_match (covers : ELF.MemorySegment.t -> Prop)
    (layout : list ELF.MemorySegment.t) (s : ELF.MemorySegment.t) : Prop :=
  exists before after,
    layout = (before ++ s :: after)%list
    /\ Forall (fun s' => ~ covers s') before /\ covers s.

(** [getvirtaddr(getfileoffset(o))]; [None] is not a valid argument of the
    second call, so a failed first lookup ends the round trip. *)
Definition roundtrip (self : ELF.t) (o : Z) : option Z :=
  match ELF.getfileoffset self o with
  | Some fileoffset => ELF.getvirtaddr self fileoffset
  | None => None
  end.

(** A 64-bit image of 120 bytes: the identification with class byte 2, the
    triplet (header size 0x40, entry size 56, entry count 1) at 0x34, and one
    program header at 0x40 with file offset 0x40, virtual address 0x1000,
    file size 0x100 and memory size 0x200. *)
Definition scenario_image : bytes :=
  ([x7f; x45; x4c; x46; x02] ++ repeat x00 (0x34 - 5)
   ++ Struct.le_bytes 2 0x40 ++ Struct.le_bytes 2 56 ++ Struct.le_bytes 2 1
   ++ repeat x00 (0x40 - 0x3a)
   ++ Struct.le_bytes 4 1 ++ Struct.le_bytes 4 5
   ++ Struct.le_bytes 8 0x40 ++ Struct.le_bytes 8 0x1000
   ++ Struct.le_bytes 8 0x1000 ++ Struct.le_bytes 8 0x100
   ++ Struct.le_bytes 8 0x200 ++ Struct.le_bytes 8 0x1000)%list.

Definition scenario_segment : ELF.MemorySegment.t :=
  ELF.MemorySegment.mk 0x1000 0x1000 0x1200 0x40 0x140.

(** An image with two program headers whose file ranges overlap:
    [0, 0x100] and [0x80, 0x180]. *)
Definition overlapping_entries : list ELF.ProgramEntry.t :=
  [ELF.ProgramEntry.mk 1 0 0 0 0x100 0x100 5 0x1000;
   ELF.ProgramEntry.mk 1 0x80 0x1000 0x1000 0x100 0x100 6 0x1000].

Definition overlapping_elf : ELF.t :=
  ELF.mk [] "overlap" 1 (ELF.HeaderBytes []) (ELF.PentryList overlapping_entries)
    (map ELF.segment_of overlapping_entries).

(** The instructions of a load sequence and their text, as
    [generate_offset_asm] writes them. *)
Inductive instruction : Type :=
| Mov (reg : string) (imm : Z)
| MovkLsl16 (reg : string) (imm : Z)
| Sub (rd rn : string) (imm : Z)
| Add (rd rn : string) (imm : Z).

Definition mnemonic (i : instruction) : string :=
  match i with
  | Mov reg imm =>
      "mov " ++ reg ++ ", #" ++ Patchtools.hex imm ++ ";" ++ Patchtools.nl
  | MovkLsl16 reg imm =>
      "movk " ++ reg ++ ", #" ++ Patchtools.hex imm ++ ", LSL#16;" ++ Patchtools.nl
  | Sub rd rn imm =>
      "sub  " ++ rd ++ ", " ++ rn ++ ", #" ++ Patchtools.hex imm ++ ";"
        ++ Patchtools.nl
  | Add rd rn imm =>
      "add  " ++ rd ++ ", " ++ rn ++ ", #" ++ Patchtools.hex imm ++ ";"
        ++ Patchtools.nl
  end%string.

Fixpoint mnemonics (prog : list instruction) : string :=
  match prog with
  | [] => EmptyString
  | i :: prog' => (mnemonic i ++ mnemonics prog')%string
  end.

(** The text of a sequence: the comment line with the target address, then
    the instructions. *)
Definition listing (offset : Z) (prog : list instruction) : string :=
  ("# " ++ Patchtools.hex offset ++ Patchtools.nl ++ mnemonics prog)%string.

(** [emitLoadSequence] in the words of the specification: the low and the
    high half of [targetAddress + divisor], then a subtraction for a
    positive divisor, an addition for a negative one, nothing for 0. *)
Definition emitLoadSequence (targetAddress divisor : Z) (registerName : string)
  : list instruction :=
  let low16 := (targetAddress + divisor) mod 2 ^ 16 in
  let high16 := ((targetAddress + divisor) / 2 ^ 16) mod 2 ^ 16 in
  ([Mov registerName low16; MovkLsl16 registerName high16]
   ++ (if divisor >? 0 then [Sub registerName registerName divisor]
       else if divisor <? 0
            then [Add registerName registerName (Z.abs divisor)]
            else []))%list.

(** ** Further Python primitives *)

(** A value that is an [int] on one path and a [bytes] object on another. *)
Inductive pyvalue : Type :=
| PyInt (z : Z)
| PyBytes (b : bytes).

(** [data[a:b]] for arbitrary integers: a negative index counts from the
    end, and both ends are clamped to the buffer. *)
Definition clamp_index (i : Z) (len : nat) : nat :=
  if i <? 0 then Z.to_nat (Z.max (i + Z.of_nat len) 0)
  else Nat.min (Z.to_nat i) len.

Definition pyslice (a b : Z) (data : bytes) : bytes :=
  let lo := clamp_index a (List.length data) in
  let hi := clamp_index b (List.length data) in
  firstn (hi - lo) (skipn lo data).

(** [bytearray(x)]: a copy of a bytes object, or [x] zero bytes for an
    integer (a negative one raises, which no caller here can pass). *)
Definition bytearray (x : pyvalue) : bytes :=
  match x with
  | PyInt n => repeat x00 (Z.to_nat n)
  | PyBytes b => b
  end.

(** Byte order, for [struct] formats and [int.from_bytes]. *)
Inductive endian : Type := Little | Big.

(** [int.from_bytes(b, direction)]. *)
Definition from_bytes (b : bytes) (direction : endian) : Z :=
  match direction with
  | Little => Struct.le_value b
  | Big => Struct.le_value (rev b)
  end.

Module StructN.

(** The prefix character of a format: [">" if big else "<"]. *)
Definition order (big : bool) : endian := if big then Big else Little.

(** [count] consecutive fields of [w] bytes. *)
Fixpoint chunks (w count : nat) (dat : bytes) : list bytes :=
  match count with
  | O => []
  | S count' => firstn w dat :: chunks w count' (skipn w dat)
  end.

(** [unpack(e + str(count) + c, dat)] for an unsigned format character of
    [w] bytes: the buffer must have exactly [count * w] bytes. *)
Definition unpack_n (e : endian) (w count : nat) (dat : bytes)
  : result (list Z) :=
  if Nat.eqb (List.length dat) (count * w)
  then Ok (map (fun c => from_bytes c e) (chunks w count dat))
  else Raise StructError.

(** [unpack(e + c, dat)[0]]. *)
Definition unpack_1 (e : endian) (w : nat) (dat : bytes) : result Z :=
  if Nat.eqb (List.length dat) w then Ok (from_bytes dat e)
  else Raise StructError.

End StructN.

(** [revdword(value)]: [unpack(">I", pack("<I", value))[0]]. *)
Definition revdword (value : Z) : result Z :=
  dat <- Struct.pack_I value ;;
  StructN.unpack_1 Big 4 dat.

(** ** [class Structhelper] *)
Module Structhelper.

Record t : Type := mk {
  pos : Z;
  data : list byte
}.

(** [__init__(self, data, pos=0)]: the argument [pos] is not used. *)
Definition init (data : list byte) (pos : Z) : t := mk 0 data.

(** The body shared by [qword], [dword] and [short], which differ in the
    format character and its width [w] only: unpack the slice, then advance.
    When [unpack] raises, [self.pos] keeps its value. *)
Definition read_uint (w : nat) (self : t) (big : bool) : result (Z * t) :=
  let e := StructN.order big in
  dat <- StructN.unpack_1 e w
           (pyslice (pos self) (pos self + Z.of_nat w) (data self)) ;;
  Ok (dat, mk (pos self + Z.of_nat w) (data self)).

Definition qword : t -> bool -> result (Z * t) := read_uint 8.
Definition dword : t -> bool -> result (Z * t) := read_uint 4.
Definition short : t -> bool -> result (Z * t) := read_uint 2.

(** The body shared by [dwords], [qwords] and [shorts].  [str(count)] of a
    negative count puts a minus sign in the format, which [struct] rejects. *)
Definition read_uints (w : nat) (self : t) (count : Z) (big : bool)
  : result (list Z * t) :=
  let e := StructN.order big in
  if count <? 0 then Raise StructError
  else
    dat <- StructN.unpack_n e w (Z.to_nat count)
             (pyslice (pos self) (pos self + Z.of_nat w * count) (data self)) ;;
    Ok (dat, mk (pos self + Z.of_nat w * count) (data self)).

Definition dwords : t -> Z -> bool -> result (list Z * t) := read_uints 4.
Definition qwords : t -> Z -> bool -> result (list Z * t) := read_uints 8.
Definition shorts : t -> Z -> bool -> result (list Z * t) := read_uints 2.

Definition getpos (self : t) : Z := pos self.

Definition seek (self : t) (pos : Z) : t := mk pos (data self).

(** [bytes(self, rlen=1)]: an empty slice is returned as it is, before the
    position moves; a slice asked for with [rlen == 1] is returned as its
    first byte, an integer. *)
Definition bytes (self : t) (rlen : Z) : pyvalue * t :=
  let dat := pyslice (pos self) (pos self + rlen) (data self) in
  match dat with
  | [] => (PyBytes [], self)
  | b :: _ =>
      let self' := mk (pos self + rlen) (data self) in
      if rlen =? 1 then (PyInt (Struct.Z_of_byte b), self')
      else (PyBytes dat, self')
  end.

Definition string (self : t) (rlen : Z) : list byte * t :=
  let dat := pyslice (pos self) (pos self + rlen) (data self) in
  (dat, mk (pos self + rlen) (data self)).

End Structhelper.

(** ** [io.BytesIO], as far as [StructhelperIo] uses it *)
Module BytesIO.

Record t : Type := mk {
  buf : bytes;
  cur : nat
}.

Definition init (data : bytes) : t := mk data 0.

(** [read(n)]: at most [n] bytes from the position, all of them for a
    negative [n]; the position moves by the number of bytes read. *)
Definition read (io : t) (n : Z) : bytes * t :=
  let rest := skipn (cur io) (buf io) in
  let dat := if n <? 0 then rest else firstn (Z.to_nat n) rest in
  (dat, mk (buf io) (cur io + List.length dat)).

Definition tell (io : t) : Z := Z.of_nat (cur io).

(** [seek(pos)]: a negative position raises [ValueError], here [None]; a
    position beyond the end is kept. *)
Definition seek (io : t) (pos : Z) : option t :=
  if pos <? 0 then None else Some (mk (buf io) (Z.to_nat pos)).

End BytesIO.

(** ** [class StructhelperIo] *)
Module StructhelperIo.

Record t : Type := mk {
  pos : Z;
  data : BytesIO.t;
  direction : endian
}.

(** [__init__(self, data, direction='little')]; [pos] is the class
    attribute 0. *)
Definition init (data : BytesIO.t) (direction : endian) : t :=
  mk 0 data direction.

Definition setdata (self : t) (data : BytesIO.t) (offset : Z) : t :=
  mk offset data (direction self).

(** [int.from_bytes(self.data.read(w), self.direction)]. *)
Definition read_int (w : Z) (self : t) : Z * t :=
  let (dat, io) := BytesIO.read (data self) w in
  (from_bytes dat (direction self), mk (pos self) io (direction self)).

Definition qword : t -> Z * t := read_int 8.
Definition dword : t -> Z * t := read_int 4.
Definition short : t -> Z * t := read_int 2.

(** [[int.from_bytes(self.data.read(w), ...) for _ in range(n)]]. *)
Fixpoint read_ints (w : Z) (n : nat) (self : t) : list Z * t :=
  match n with
  | O => ([], self)
  | S n' =>
      let (x, self1) := read_int w self in
      let (xs, self2) := read_ints w n' self1 in
      (x :: xs, self2)
  end.

Definition dwords (self : t) (dwords : Z) : list Z * t :=
  read_ints 4 (Z.to_nat dwords) self.

Definition shorts (self : t) (shorts : Z) : list Z * t :=
  read_ints 2 (Z.to_nat shorts) self.

Definition getpos (self : t) : Z := BytesIO.tell (data self).

Definition seek (self : t) (pos_ : Z) : option t :=
  match BytesIO.seek (data self) pos_ with
  | Some io => Some (mk (pos self) io (direction self))
  | None => None
  end.

(** [bytes(self, rlen=1)]: an empty read is returned as it is; a read asked
    for with [rlen == 1] is returned as its first byte, an integer. *)
Definition bytes (self : t) (rlen : Z) : pyvalue * t :=
  let (dat, io) := BytesIO.read (data self) rlen in
  let self' := mk (pos self) io (direction self) in
  match dat with
  | [] => (PyBytes dat, self')
  | b :: _ =>
      if rlen =? 1 then (PyInt (Struct.Z_of_byte b), self')
      else (PyBytes dat, self')
  end.

Definition string (self : t) (rlen : Z) : list byte * t :=
  let (dat, io) := BytesIO.read (data self) rlen in
  (dat, mk (pos self) io (direction self)).

End StructhelperIo.

(** ** [class MTKTee] *)
Module MTKTee.

Record t : Type := mk {
  magic : Z;
  hdrlen : Z;
  flag1 : pyvalue;
  flag2 : pyvalue;
  flag3 : pyvalue;
  flag4 : pyvalue;
  flag5 : Z;
  datalen : Z;
  datalen2 : Z;
  keyseed : bytes;
  ivseed : bytes;
  data : bytes
}.

(** [parse(self, data)]: the attributes after the call; [None] when
    [seek] raises. *)
Definition parse (data : bytes) : option t :=
  let sh := StructhelperIo.init (BytesIO.init data) Little in
  let (magic, sh) := StructhelperIo.qword sh in
  let (hdrlen, sh) := StructhelperIo.dword sh in
  let (flag1, sh) := StructhelperIo.bytes sh 1 in
  let (flag2, sh) := StructhelperIo.bytes sh 1 in
  let (flag3, sh) := StructhelperIo.bytes sh 1 in
  let (flag4, sh) := StructhelperIo.bytes sh 1 in
  let (flag5, sh) := StructhelperIo.dword sh in
  let (datalen, sh) := StructhelperIo.dword sh in
  let (datalen2, sh) := StructhelperIo.dword sh in
  let (keyseed, sh) := StructhelperIo.bytes sh 16 in
  let (ivseed, sh) := StructhelperIo.bytes sh 16 in
  match StructhelperIo.seek sh hdrlen with
  | None => None
  | Some sh =>
      let (payload, sh) := StructhelperIo.bytes sh datalen in
      Some (mk magic hdrlen flag1 flag2 flag3 flag4 flag5 datalen datalen2
              (bytearray keyseed) (bytearray ivseed) (bytearray payload))
  end.

End MTKTee.

(** A 62-byte image: header length 60, payload length 2. *)
Definition mtktee_sample : bytes :=
  (Struct.le_bytes 8 0x4D544B544545 ++ Struct.le_bytes 4 60
   ++ [x01; x02; x03; x04] ++ Struct.le_bytes 4 5 ++ Struct.le_bytes 4 2
   ++ Struct.le_bytes 4 2 ++ repeat x11 16 ++ repeat x22 16 ++ [xaa; xbb])%list.


(** All fields of a program header entry are unsigned. *)
Definition unsigned_entry (pe : ELF.ProgramEntry.t) : Prop :=
  0 <= ELF.ProgramEntry.p_type pe /\ 0 <= ELF.ProgramEntry.from_file pe
  /\ 0 <= ELF.ProgramEntry.virt_addr pe /\ 0 <= ELF.ProgramEntry.phy_addr pe
  /\ 0 <= ELF.ProgramEntry.seg_file_len pe
  /\ 0 <= ELF.ProgramEntry.seg_mem_len pe
  /\ 0 <= ELF.ProgramEntry.p_flags pe /\ 0 <= ELF.ProgramEntry.p_align pe.

(** The invariant of a segment: addresses are unsigned and each range ends
    at or after its start. *)
Definition wellformed_segment (s : ELF.MemorySegment.t) : Prop :=
  0 <= ELF.MemorySegment.phy_addr s
  /\ 0 <= ELF.MemorySegment.virt_start_addr s
       <= ELF.MemorySegment.virt_end_addr s
  /\ 0 <= ELF.MemorySegment.file_start_addr s
       <= ELF.MemorySegment.file_end_addr s.

(** ** [find_binary] *)

(** [data[a:]]. *)
Definition slice_from (a : Z) (data : bytes) : bytes :=
  skipn (clamp_index a (List.length data)) data.

(** [s.startswith(sub)]. *)
Fixpoint startswith (sub s : bytes) : bool :=
  match sub, s with
  | [], _ => true
  | x :: sub', y :: s' => Byte.eqb x y && startswith sub' s'
  | _ :: _, [] => false
  end.

(** The scan of [find]: [s] is what is left of the buffer from index [i]
    on; the empty string is found at every index up to the end. *)
Fixpoint find_scan (sub s : bytes) (i : Z) : Z :=
  if startswith sub s then i
  else match s with
       | [] => -1
       | _ :: s' => find_scan sub s' (i + 1)
       end.

(** [s.find(sub, start)]: the lowest index from [start] on where [sub]
    occurs, [-1] when there is none or [start] lies beyond the end. *)
Definition bytes_find (s sub : bytes) (start : Z) : Z :=
  if Z.of_nat (List.length s) <? start then -1
  else
    let k := clamp_index start (List.length s) in
    find_scan sub (skipn k s) (Z.of_nat k).

(** [strf.split(b".")]: never an empty list. *)
Fixpoint split_dot (strf : bytes) : list bytes :=
  match strf with
  | [] => [[]]
  | c :: strf' =>
      if Byte.eqb c x2e then [] :: split_dot strf'
      else match split_dot strf' with
           | h :: t => (c :: h) :: t
           | [] => [[c]]
           end
  end.

(** The module-level [find_binary] and [Patchtools.find_binary] have the
    same text except in two places: the former tests the pieces in
    [data[pos + rt:]] and returns [offset + pos], the latter tests them in
    [data[rt:]] and returns [offset].  [base] stands for [pos] in the
    former and for [0] in the latter. *)
Section FindBinary.
Variable data : bytes.
Variable t : list bytes.
Variable pos : Z.
Variable base : Z.

(** The loop [for i in range(1, len(t))] for one offset: [true] when it
    ends with [error == 0]. *)
Fixpoint pieces_match (rt : Z) (pieces : list bytes) : bool :=
  match pieces with
  | [] => true
  | ti :: pieces' =>
      if bytes_eqb ti [] then pieces_match (rt + 1) pieces'
      else
        let rt := rt + 1 in
        let prep := bytes_find (slice_from (base + rt) data) ti 0 in
        if negb (prep =? 0) then false
        else pieces_match (rt + Z.of_nat (List.length ti)) pieces'
  end.

(** [for offset in offsets]: the first offset whose pieces match is
    returned; [None] when the loop runs to its end. *)
Fixpoint first_passing (offsets : list Z) : option Z :=
  match offsets with
  | [] => None
  | offset :: offsets' =>
      let rt := offset + Z.of_nat (List.length (hd [] t)) in
      if pieces_match rt (tl t) then Some (offset + base)
      else first_passing offsets'
  end.

(** [while pre != -1]; [fuel] counts evaluations of the condition. *)
Fixpoint find_binary_loop (fuel : nat) (pre : Z) (offsets : list Z)
  : result (option Z) :=
  match fuel with
  | O => OutOfFuel
  | S fuel' =>
      if negb (pre =? -1) then
        let pre := bytes_find (slice_from pos data) (hd [] t) pre in
        if pre =? -1 then
          if (0 <? List.length offsets)%nat then
            match first_passing offsets with
            | Some r => Ok (Some r)
            | None => find_binary_loop fuel' pre offsets
            end
          else Ok None
        else find_binary_loop fuel' (pre + 1) (offsets ++ [pre])
      else Ok None
  end.
End FindBinary.

(** [find_binary(data, strf, pos=0)]. *)
Definition find_binary (data strf : bytes) (pos : Z) : result (option Z) :=
  let t := split_dot strf in
  find_binary_loop data t pos pos (List.length data + 3) 0 [].

(** [Patchtools.find_binary(data, strf, pos=0)]. *)
Definition Patchtools_find_binary (data strf : bytes) (pos : Z)
  : result (option Z) :=
  let t := split_dot strf in
  find_binary_loop data t pos 0 (List.length data + 3) 0 [].

(** The pattern [strf] occurs in [data] at index [a]: every byte of [strf]
    other than ["."] equals the byte of [data] at the same distance from
    [a]; a ["."] stands for any byte, or for none past the end. *)
Definition matches (data strf : bytes) (a : nat) : Prop :=
  forall j c, nth_error strf j = Some c -> c <> x2e ->
              nth_error data (a + j) = Some c.

(** The literal [piece] occurs in [data] at index [a]. *)
Definition lit_match (data : bytes) (a : nat) (piece : bytes) : Prop :=
  forall j c, nth_error piece j = Some c -> nth_error data (a + j) = Some c.

(** The pieces after the first occur one after the other from index [a] on,
    each after one byte that is not looked at. *)
Fixpoint tail_ok (data : bytes) (a : nat) (pieces : list bytes) : Prop :=
  match pieces with
  | [] => True
  | ti :: pieces' =>
      lit_match data (a + 1) ti
      /\ tail_ok data (a + 1 + List.length ti) pieces'
  end.

(** The first line [uart_valid_sc] prints for the forbidden byte [c] found
    at index [idx]. *)
Definition bad_char_line (c : byte) (idx : nat) : string :=
  ("bad char 0x" ++ Patchtools.repr_hex [c] ++ " in SC at offset "
   ++ Patchtools.dec idx ++ ", opcode # " ++ Patchtools.dec (idx / 4) ++ "!"
   ++ Patchtools.nl)%string.

(** [n] consecutive calls of [qword], [dword] or [short] (width [w]),
    stopping at the first that raises. *)
Fixpoint read_uint_times (w n : nat) (self : Structhelper.t) (big : bool)
  : result (list Z * Structhelper.t) :=
  match n with
  | O => Ok ([], self)
  | S n' =>
      r <- Structhelper.read_uint w self big ;;
      rs <- read_uint_times w n' (snd r) big ;;
      Ok (fst r :: fst rs, snd rs)
  end.

(** ** [parse_args] *)
Module Args.

Local Open Scope string_scope.

(** [sub in s] for strings. *)
Fixpoint contains (sub s : string) : bool :=
  if String.prefix sub s then true
  else match s with
       | EmptyString => false
       | String _ s' => contains sub s'
       end.

(** [s.split(sep)] for a separator of one character: never an empty
    list. *)
Fixpoint split (sep : ascii) (s : string) : list string :=
  match s with
  | EmptyString => [EmptyString]
  | String c s' =>
      if Ascii.eqb c sep then EmptyString :: split sep s'
      else match split sep s' with
           | h :: t => String c h :: t
           | [] => [String c EmptyString]
           end
  end.

(** A value of [options]: one taken over from [mainargs], or a piece of
    [args]. *)
Inductive value (V : Type) : Type :=
| Main (v : V)
| Piece (s : string).
Arguments Main {V} v.
Arguments Piece {V} s.

Section Dict.
Variable V : Type.

(** A [dict] with string keys, in insertion order. *)
Definition dict : Type := list (string * value V).

(** [d[key] = v]: an existing key keeps its place. *)
Fixpoint dict_set (key : string) (v : value V) (d : dict) : dict :=
  match d with
  | [] => [(key, v)]
  | (k, v') :: d' =>
      if String.eqb key k then (k, v) :: d'
      else (k, v') :: dict_set key v d'
  end.

Fixpoint dict_get (key : string) (d : dict) : option (value V) :=
  match d with
  | [] => None
  | (k, v) :: d' => if String.eqb key k then Some v else dict_get key d'
  end.

(** [for arg in mainargs: if "--" in arg: options[arg] = mainargs[arg]]. *)
Fixpoint copy_options (mainargs : list (string * V)) (options : dict) : dict :=
  match mainargs with
  | [] => options
  | (arg, v) :: mainargs' =>
      copy_options mainargs'
        (if contains "--" arg then dict_set arg (Main v) options else options)
  end.

(** The assignments [options[key] = opts[i]] of the branch taken for
    [cmd], in order, as pairs of a key and an index; no branch is taken for
    a command the chain does not name. *)
Definition assignments (cmd : string) : list (string * nat) :=
  if String.eqb cmd "gpt" then [("<directory>", 0%nat)]
  else if String.eqb cmd "r" then
    [("<partitionname>", 0%nat); ("<filename>", 1%nat)]
  else if String.eqb cmd "rl" then [("<directory>", 0%nat)]
  else if String.eqb cmd "rf" then [("<filename>", 0%nat)]
  else if String.eqb cmd "rs" then
    [("<start_sector>", 0%nat); ("<sectors>", 1%nat); ("<filename>", 2%nat)]
  else if String.eqb cmd "w" then
    [("<partitionname>", 0%nat); ("<filename>", 0%nat)]
  else if String.eqb cmd "wl" then [("<directory>", 0%nat)]
  else if String.eqb cmd "wf" then [("<filename>", 0%nat)]
  else if String.eqb cmd "ws" then
    [("<start_sector>", 0%nat); ("<filename>", 1%nat)]
  else if String.eqb cmd "e" then [("<partitionname>", 0%nat)]
  else if String.eqb cmd "es" then
    [("<start_sector>", 0%nat); ("<sectors>", 1%nat)]
  else if String.eqb cmd "footer" then [("<filename>", 0%nat)]
  else if String.eqb cmd "peek" then
    [("<offset>", 0%nat); ("<length>", 1%nat); ("<filename>", 2%nat)]
  else if String.eqb cmd "peekhex" then
    [("<offset>", 0%nat); ("<length>", 1%nat)]
  else if String.eqb cmd "peekdword" then [("<offset>", 0%nat)]
  else if String.eqb cmd "peekqword" then [("<offset>", 0%nat)]
  else if String.eqb cmd "memtbl" then [("<filename>", 0%nat)]
  else if String.eqb cmd "poke" then
    [("<offset>", 0%nat); ("<filename>", 1%nat)]
  else if String.eqb cmd "pokehex" then
    [("<offset>", 0%nat); ("<data>", 1%nat)]
  else if String.eqb cmd "pokedword" then
    [("<offset>", 0%nat); ("<data>", 1%nat)]
  else if String.eqb cmd "pokeqword" then
    [("<offset>", 0%nat); ("<data>", 1%nat)]
  else if String.eqb cmd "memcpy" then
    [("<offset>", 0%nat); ("<size>", 1%nat)]
  else if String.eqb cmd "pbl" then [("<filename>", 0%nat)]
  else if String.eqb cmd "qfp" then [("<filename>", 0%nat)]
  else if String.eqb cmd "setbootablestoragedrive" then [("<lun>", 0%nat)]
  else if String.eqb cmd "send" then [("<command>", 0%nat)]
  else if String.eqb cmd "xml" then [("<xmlfile>", 0%nat)]
  else if String.eqb cmd "rawxml" then [("<xmlstring>", 0%nat)]
  else [].

(** The assignments, one after the other; [opts[i]] past the end raises
    [IndexError]. *)
Fixpoint assign (todo : list (string * nat)) (opts : list string)
    (options : dict) : result dict :=
  match todo with
  | [] => Ok options
  | (key, i) :: todo' =>
      match nth_error opts i with
      | Some piece => assign todo' opts (dict_set key (Piece piece) options)
      | None => Raise IndexError
      end
  end.

(** [parse_args(cmd, args, mainargs)], [mainargs] given by its items in
    iteration order. *)
Definition parse_args (cmd args : string) (mainargs : list (string * V))
  : result dict :=
  let options := [] in
  let opts := if contains "," args then split "," args else [args] in
  let options := copy_options mainargs options in
  assign (assignments cmd) opts options.

End Dict.
End Args.

(** The pieces of [args]: [args.split(",") if "," in args else [args]]. *)
Definition pieces_of (args : string) : list string :=
  if Args.contains "," args then Args.split "," args else [args].

(** ** Images in the standard layout, to parse back *)

(** Unsigned fields, each with its width in bytes, little-endian, one after
    the other. *)
Definition encode_fields (fields : list (nat * Z)) : bytes :=
  List.concat (map (fun wv => Struct.le_bytes (fst wv) (snd wv)) fields).

(** A program header as the ELF format lays it out: for class 1 (32 bytes)
    type, offset, vaddr, paddr, filesz, memsz, flags, align, all of 4 bytes;
    for class 2 (56 bytes) type and flags of 4 bytes, then offset, vaddr,
    paddr, filesz, memsz, align of 8 bytes. *)
Definition entry_fields (cls : Z) (pe : ELF.ProgramEntry.t) : list (nat * Z) :=
  if cls =? 1 then
    [(4%nat, ELF.ProgramEntry.p_type pe); (4%nat, ELF.ProgramEntry.from_file pe);
     (4%nat, ELF.ProgramEntry.virt_addr pe); (4%nat, ELF.ProgramEntry.phy_addr pe);
     (4%nat, ELF.ProgramEntry.seg_file_len pe);
     (4%nat, ELF.ProgramEntry.seg_mem_len pe);
     (4%nat, ELF.ProgramEntry.p_flags pe); (4%nat, ELF.ProgramEntry.p_align pe)]
  else
    [(4%nat, ELF.ProgramEntry.p_type pe); (4%nat, ELF.ProgramEntry.p_flags pe);
     (8%nat, ELF.ProgramEntry.from_file pe); (8%nat, ELF.ProgramEntry.virt_addr pe);
     (8%nat, ELF.ProgramEntry.phy_addr pe);
     (8%nat, ELF.ProgramEntry.seg_file_len pe);
     (8%nat, ELF.ProgramEntry.seg_mem_len pe);
     (8%nat, ELF.ProgramEntry.p_align pe)].

Definition encode_entry (cls : Z) (pe : ELF.ProgramEntry.t) : bytes :=
  encode_fields (entry_fields cls pe).

(** Every field fits its width. *)
Definition fields_fit (fields : list (nat * Z)) : Prop :=
  Forall (fun wv => 0 <= snd wv < 2 ^ (8 * Z.of_nat (fst wv))) fields.

(** An image of class [cls] (1 or 2) whose program header table follows the
    ELF header: the identification with the class byte at index 4, the
    triplet (header size, entry size, entry count) at 0x28 resp. 0x34, zero
    bytes elsewhere in the header of 0x34 resp. 0x40 bytes, then the
    entries. *)
Definition elf_image (cls : Z) (entries : list ELF.ProgramEntry.t) : bytes :=
  let start := if cls =? 1 then 0x28%nat else 0x34%nat in
  let ehsize := if cls =? 1 then 0x34%nat else 0x40%nat in
  let entsize := if cls =? 1 then 32%nat else 56%nat in
  (([x7f; x45; x4c; x46; Struct.byte_of_Z cls] ++ repeat x00 (start - 5))
   ++ encode_fields [(2%nat, Z.of_nat ehsize); (2%nat, Z.of_nat entsize);
                     (2%nat, Z.of_nat (List.length entries))]
   ++ repeat x00 (ehsize - start - 6)
   ++ List.concat (map (encode_entry cls) entries))%list.

(** ** Examples *)

Example generate_offset_0x41414141 :
  Patchtools.generate_offset 0x41414141 = Ok 0x104.
Proof. vm_compute. reflexivity. Qed.

Example generate_offset_negative :
  Patchtools.generate_offset 0x41000000 = Ok (- 0x104).
Proof. vm_compute. reflexivity. Qed.

Example generate_offset_fallback :
  Patchtools.generate_offset 0x41000800 = Ok 0.
Proof. vm_compute. reflexivity. Qed.

Example scenario_image_parsed :
  exists self,
    ELF.init scenario_image "image" = (Ok self, [])
    /\ ELF.elfclass self = 2
    /\ ELF.memorylayout self = [scenario_segment]
    /\ ELF.getvirtaddr self 0x50 = Some 0x1010
    /\ ELF.getfileoffset self 0x1010 = Some 0x50
    /\ ELF.getbaseaddr self 0x1050 = Some 0x1000.
Proof. eexists. repeat split; vm_compute; reflexivity. Qed.

(** ** The byte filter *)

Lemma bytes_eqb_eq (a b : bytes) : bytes_eqb a b = true <-> a = b.
Proof.
  revert b; induction a as [|x a IH]; intros [|y b]; simpl;
    try (split; (discriminate || reflexivity)).
  rewrite andb_true_iff, IH. split.
  - intros [H ->]. apply Byte.byte_dec_bl in H. now subst.
  - intros H; injection H as -> ->. split; [now apply Byte.byte_dec_lb|reflexivity].
Qed.

Lemma in_badchars (l : list bytes) (c : bytes) :
  existsb (bytes_eqb c) l = true <-> In c l.
Proof.
  rewrite existsb_exists. split.
  - intros (x & Hin & Heq). apply bytes_eqb_eq in Heq. now subst.
  - intros Hin. exists c. split; [assumption|now apply bytes_eqb_eq].
Qed.

Lemma singleton_in_badchars (c : byte) :
  In [c] Patchtools.badchars <-> In c forbiddenSet.
Proof.
  unfold Patchtools.badchars, forbiddenSet; simpl. split.
  - intros H. repeat (destruct H as [H|H]; [injection H as <-; tauto|]). contradiction.
  - intros H. repeat (destruct H as [H|H]; [subst; tauto|]). contradiction.
Qed.

Lemma has_bad_uart_chars_cons (c : byte) (rest : bytes) :
  Patchtools.has_bad_uart_chars (c :: rest)
  = if existsb (bytes_eqb [c]) Patchtools.badchars then true
    else Patchtools.has_bad_uart_chars rest.
Proof. reflexivity. Qed.

Lemma uart_valid_sc_loop_cons (sc rest : bytes) (idx : nat) (c : byte) :
  fst (Patchtools.uart_valid_sc_loop sc idx (c :: rest))
  = if existsb (bytes_eqb [c]) Patchtools.badchars_sc then false
    else fst (Patchtools.uart_valid_sc_loop sc (S idx) rest).
Proof.
  cbn [Patchtools.uart_valid_sc_loop].
  now destruct (existsb (bytes_eqb [c]) Patchtools.badchars_sc).
Qed.

Lemma has_bad_uart_chars_false (data : bytes) :
  Patchtools.has_bad_uart_chars data = false <-> isSafe data.
Proof.
  unfold isSafe. induction data as [|c rest IH].
  - split; [constructor|reflexivity].
  - rewrite has_bad_uart_chars_cons.
    destruct (existsb (bytes_eqb [c]) Patchtools.badchars) eqn:E.
    + apply in_badchars, singleton_in_badchars in E. split; [discriminate|].
      intros H. inversion H; subst. contradiction.
    + rewrite IH. split.
      * intros H. constructor; [|assumption].
        intros Hin. apply singleton_in_badchars, in_badchars in Hin. congruence.
      * intros H. now inversion H.
Qed.

Lemma has_bad_uart_chars_true (data : bytes) :
  Patchtools.has_bad_uart_chars data = true
  <-> exists b, In b data /\ In b forbiddenSet.
Proof.
  induction data as [|c rest IH].
  - split; [discriminate|]. intros (b & [] & _).
  - rewrite has_bad_uart_chars_cons.
    destruct (existsb (bytes_eqb [c]) Patchtools.badchars) eqn:E.
    + apply in_badchars, singleton_in_badchars in E.
      split; [|reflexivity]. intros _. exists c. split; [now left|assumption].
    + rewrite IH. split.
      * intros (b & Hb & Hf). exists b. split; [now right|assumption].
      * intros (b & [<-|Hb] & Hf).
        -- apply singleton_in_badchars, in_badchars in Hf. congruence.
        -- exists b. now split.
Qed.

(** C8: [has_bad_uart_chars] reports a buffer safe (returns [False]) exactly
    when no byte of the buffer belongs to the forbidden set
    {0x00, 0x0A, 0x0D, 0x08, 0x7F, 0x20, 0x09}, and reports it unsafe
    (returns [True]) exactly when at least one byte does. *)
Theorem has_bad_uart_chars_iff_forbidden (data : bytes) :
  (Patchtools.has_bad_uart_chars data = false
   <-> forall b, In b data -> ~ In b forbiddenSet)
  /\ (Patchtools.has_bad_uart_chars data = true
      <-> exists b, In b data /\ In b forbiddenSet).
Proof.
  split.
  - rewrite has_bad_uart_chars_false. unfold isSafe. apply Forall_forall.
  - apply has_bad_uart_chars_true.
Qed.

Lemma uart_valid_sc_loop_verdict (sc rest : bytes) (idx : nat) :
  fst (Patchtools.uart_valid_sc_loop sc idx rest)
  = negb (Patchtools.has_bad_uart_chars rest).
Proof.
  revert idx; induction rest as [|c rest IH]; intros idx.
  - reflexivity.
  - rewrite uart_valid_sc_loop_cons, has_bad_uart_chars_cons.
    change Patchtools.badchars_sc with Patchtools.badchars.
    destruct (existsb (bytes_eqb [c]) Patchtools.badchars); [reflexivity|].
    apply IH.
Qed.

(** C10: the final validator and the search-time validator agree on every
    buffer: [uart_valid_sc(b)] is [True] exactly when
    [has_bad_uart_chars(b)] is [False]; each function's own [badchars]
    list holds exactly the one-byte strings of the forbidden set
    {0x00, 0x0A, 0x0D, 0x08, 0x7F, 0x20, 0x09}. *)
Theorem uart_valid_sc_agrees_with_has_bad_uart_chars :
  (forall b : bytes,
      fst (Patchtools.uart_valid_sc b) = true
      <-> Patchtools.has_bad_uart_chars b = false)
  /\ (forall c : byte, In [c] Patchtools.badchars <-> In c forbiddenSet)
  /\ (forall c : byte, In [c] Patchtools.badchars_sc <-> In c forbiddenSet).
Proof.
  split; [|split].
  - intros b. unfold Patchtools.uart_valid_sc.
    rewrite uart_valid_sc_loop_verdict.
    destruct (Patchtools.has_bad_uart_chars b); simpl; split; congruence.
  - exact singleton_in_badchars.
  - exact singleton_in_badchars.
Qed.

(** ** The search loops *)

Lemma pack_uint_range (n : nat) (v : Z) :
  0 <= v < 2 ^ (8 * Z.of_nat n) -> Struct.pack_uint n v = Ok (Struct.le_bytes n v).
Proof.
  intros H. unfold Struct.pack_uint.
  destruct (0 <=? v) eqn:E1; [|lia]. destruct (v <? 2 ^ (8 * Z.of_nat n)) eqn:E2; [|lia].
  reflexivity.
Qed.

Lemma pack_uint_cases (n : nat) (v : Z) :
  (0 <= v < 2 ^ (8 * Z.of_nat n) /\ Struct.pack_uint n v = Ok (Struct.le_bytes n v))
  \/ (~ 0 <= v < 2 ^ (8 * Z.of_nat n) /\ Struct.pack_uint n v = Raise StructError).
Proof.
  unfold Struct.pack_uint.
  destruct (Z.leb_spec 0 v); destruct (Z.ltb_spec v (2 ^ (8 * Z.of_nat n)));
    cbn [andb]; [left|right|right|right]; split; (reflexivity || lia).
Qed.

Lemma passes_not_rejected (bad : bytes -> bool) (target d : Z) :
  rejected bad target d -> ~ passes bad target d.
Proof.
  intros (x & x2 & H1 & H2 & Hb) (y & y2 & G1 & G2 & Gb & Gb2).
  rewrite H1 in G1; rewrite H2 in G2.
  injection G1 as ->; injection G2 as ->.
  destruct Hb; congruence.
Qed.

Section LoopFacts.
Variable limit : Z.
Variable bad : bytes -> bool.
Variables addr ret : Z -> Z.

Let loop := pass limit bad addr ret.

Lemma pass_unfold (fuel : nat) (div : Z) :
  loop (S fuel) div =
  if div <? limit then
    match Struct.pack_I (addr div) with
    | Ok data =>
        match Struct.pack_H div with
        | Ok data2 =>
            if negb (bad data) && negb (bad data2)
            then (Ok (Some (ret div)), 1%nat)
            else (fst (loop fuel (div + 4)), S (snd (loop fuel (div + 4))))
        | Raise e => (Raise e, 1%nat)
        | OutOfFuel => (OutOfFuel, 1%nat)
        end
    | Raise e => (Raise e, 1%nat)
    | OutOfFuel => (OutOfFuel, 1%nat)
    end
  else (Ok None, O).
Proof.
  unfold loop; cbn [pass]. unfold Patchtools.found; cbn [negb andb].
  destruct (div <? limit); [|reflexivity].
  destruct (Struct.pack_I (addr div)); try reflexivity.
  destruct (Struct.pack_H div); try reflexivity.
  destruct (negb (bad a) && negb (bad a0)); [reflexivity|].
  now destruct (pass limit bad addr ret fuel (div + 4)).
Qed.

(** What one run of the body at [div] can do. *)
Inductive body_case (div : Z) : Prop :=
| BodyHit : passes bad (addr div) div -> body_case div
| BodyMiss : rejected bad (addr div) div -> body_case div
| BodyRaise :
    Struct.pack_I (addr div) = Raise StructError
    \/ (exists data, Struct.pack_I (addr div) = Ok data)
       /\ Struct.pack_H div = Raise StructError ->
    body_case div.

Lemma body_cases (div : Z) : body_case div.
Proof.
  destruct (pack_uint_cases 4 (addr div)) as [[_ H1]|[_ H1]];
    [|apply BodyRaise; now left].
  destruct (pack_uint_cases 2 div) as [[_ H2]|[_ H2]];
    [|apply BodyRaise; right; split; [eexists; exact H1|exact H2]].
  destruct (bad (Struct.le_bytes 4 (addr div))) eqn:B1.
  { apply BodyMiss. do 2 eexists. repeat split; eauto. }
  destruct (bad (Struct.le_bytes 2 div)) eqn:B2.
  { apply BodyMiss. do 2 eexists. repeat split; eauto. }
  apply BodyHit. do 2 eexists. repeat split; eauto.
Qed.

Lemma pass_hit (fuel : nat) (div : Z) :
  div < limit -> passes bad (addr div) div ->
  loop (S fuel) div = (Ok (Some (ret div)), 1%nat).
Proof.
  intros Hlt (data & data2 & H1 & H2 & B1 & B2). rewrite pass_unfold.
  destruct (div <? limit) eqn:E; [|lia].
  rewrite H1, H2, B1, B2. reflexivity.
Qed.

Lemma pass_miss (fuel : nat) (div : Z) :
  div < limit -> rejected bad (addr div) div ->
  loop (S fuel) div = (fst (loop fuel (div + 4)), S (snd (loop fuel (div + 4)))).
Proof.
  intros Hlt (data & data2 & H1 & H2 & B). rewrite pass_unfold.
  destruct (div <? limit) eqn:E; [|lia].
  rewrite H1, H2.
  destruct B as [B|B]; rewrite B; [reflexivity|].
  now destruct (bad data).
Qed.

Lemma pass_raise (fuel : nat) (div : Z) :
  div < limit ->
  Struct.pack_I (addr div) = Raise StructError
  \/ (exists data, Struct.pack_I (addr div) = Ok data)
     /\ Struct.pack_H div = Raise StructError ->
  loop (S fuel) div = (Raise StructError, 1%nat).
Proof.
  intros Hlt H. rewrite pass_unfold.
  destruct (div <? limit) eqn:E; [|lia].
  destruct H as [H|[[data H1] H2]].
  - now rewrite H.
  - now rewrite H1, H2.
Qed.

Lemma pass_end (fuel : nat) (div : Z) :
  limit <= div -> loop (S fuel) div = (Ok None, O).
Proof.
  intros Hge. rewrite pass_unfold.
  destruct (div <? limit) eqn:E; [lia|reflexivity].
Qed.

Lemma needed_step (div : Z) :
  div < limit -> needed limit div = S (needed limit (div + 4)).
Proof.
  intros H. unfold needed. f_equal.
  replace ((limit - div + 3) / 4) with ((limit - (div + 4) + 3) / 4 + 1).
  - rewrite Z2Nat.inj_add by (try apply Z.div_pos; lia). simpl. lia.
  - rewrite <- Z.div_add by lia. f_equal. lia.
Qed.

(** With the fuel a loop needs, more fuel changes nothing. *)
Lemma pass_fuel_irrelevant (fuel fuel' : nat) (div : Z) :
  (needed limit div <= fuel)%nat -> (needed limit div <= fuel')%nat ->
  loop fuel div = loop fuel' div.
Proof.
  revert fuel' div; induction fuel as [|fuel IH]; intros fuel' div H H'.
  { unfold needed in H; lia. }
  destruct fuel' as [|fuel']; [unfold needed in H'; lia|].
  destruct (Z.lt_ge_cases div limit) as [Hlt|Hge].
  - rewrite needed_step in H, H' by assumption.
    destruct (body_cases div) as [Hh|Hm|Hr].
    + now rewrite !pass_hit.
    + rewrite !pass_miss by assumption.
      now rewrite (IH fuel' (div + 4)) by lia.
    + now rewrite !pass_raise.
  - now rewrite !pass_end.
Qed.

(** The loop ends within its fuel and its body runs at most
    ceil((limit - div) / 4) times. *)
Lemma pass_terminates (fuel : nat) (div : Z) :
  (needed limit div <= fuel)%nat ->
  fst (loop fuel div) <> OutOfFuel
  /\ (S (snd (loop fuel div)) <= needed limit div)%nat.
Proof.
  revert div; induction fuel as [|fuel IH]; intros div H.
  { unfold needed in H; lia. }
  destruct (Z.lt_ge_cases div limit) as [Hlt|Hge].
  - rewrite needed_step in H |- * by assumption.
    destruct (body_cases div) as [Hh|Hm|Hr].
    + rewrite pass_hit by assumption. cbn [fst snd].
      split; [discriminate|unfold needed; lia].
    + rewrite pass_miss by assumption. cbn [fst snd].
      destruct (IH (div + 4)) as [I1 I2]; [lia|]. split; [assumption|lia].
    + rewrite pass_raise by assumption. cbn [fst snd].
      split; [discriminate|unfold needed; lia].
  - rewrite pass_end by assumption. cbn [fst snd]. split; [discriminate|].
    unfold needed. lia.
Qed.

(** A loop that returns does so at the first divisor, in steps of 4 from
    [div], whose encodings pass. *)
Lemma pass_found (fuel : nat) (div r : Z) :
  fst (loop fuel div) = Ok (Some r) ->
  exists d, r = ret d /\ div <= d < limit /\ (d - div) mod 4 = 0
    /\ passes bad (addr d) d
    /\ forall d', div <= d' < d -> (d' - div) mod 4 = 0 ->
                  rejected bad (addr d') d'.
Proof.
  revert div; induction fuel as [|fuel IH]; intros div H; [discriminate|].
  destruct (Z.lt_ge_cases div limit) as [Hlt|Hge].
  - destruct (body_cases div) as [Hh|Hm|Hr].
    + rewrite pass_hit in H by assumption. cbn [fst] in H. injection H as <-.
      exists div. repeat split; try lia; try assumption.
      now rewrite Z.sub_diag.
    + rewrite pass_miss in H by assumption. cbn [fst] in H.
      destruct (IH _ H) as (d & -> & Hd & Hmod & Hp & Hmin).
      exists d. repeat split; try lia; try assumption.
      * replace (d - div) with (d - (div + 4) + 1 * 4) by lia.
        now rewrite Z.mod_add by lia.
      * intros d' Hd' Hmod'.
        destruct (Z.eq_dec d' div) as [->|Hne]; [assumption|].
        assert (div + 4 <= d').
        { apply Z.mod_divide in Hmod'; [|lia]. destruct Hmod' as [k Hk]. lia. }
        apply Hmin; [lia|].
        replace (d' - (div + 4)) with (d' - div + (-1) * 4) by lia.
        now rewrite Z.mod_add by lia.
    + rewrite pass_raise in H by assumption. discriminate.
  - rewrite pass_end in H by assumption. discriminate.
Qed.

(** A loop that runs to its end has rejected every divisor it tried. *)
Lemma pass_exhausted (fuel : nat) (div : Z) :
  fst (loop fuel div) = Ok None ->
  forall d', div <= d' < limit -> (d' - div) mod 4 = 0 ->
             rejected bad (addr d') d'.
Proof.
  revert div; induction fuel as [|fuel IH]; intros div H; [discriminate|].
  destruct (Z.lt_ge_cases div limit) as [Hlt|Hge].
  - destruct (body_cases div) as [Hh|Hm|Hr].
    + rewrite pass_hit in H by assumption. discriminate.
    + rewrite pass_miss in H by assumption. cbn [fst] in H.
      intros d' Hd' Hmod'.
      destruct (Z.eq_dec d' div) as [->|Hne]; [assumption|].
      assert (div + 4 <= d').
      { apply Z.mod_divide in Hmod'; [|lia]. destruct Hmod' as [k Hk]. lia. }
      apply (IH _ H); [lia|].
      replace (d' - (div + 4)) with (d' - div + (-1) * 4) by lia.
      now rewrite Z.mod_add by lia.
    + rewrite pass_raise in H by assumption. discriminate.
  - intros d' Hd'. lia.
Qed.

(** A loop none of whose encodings is out of range does not raise. *)
Lemma pass_no_raise (fuel : nat) (div : Z) :
  (needed limit div <= fuel)%nat ->
  (forall d, div <= d < limit -> (d - div) mod 4 = 0 ->
             0 <= addr d < 2 ^ 32 /\ 0 <= d < 2 ^ 16) ->
  exists o, fst (loop fuel div) = Ok o.
Proof.
  revert div; induction fuel as [|fuel IH]; intros div H Hr.
  { unfold needed in H; lia. }
  destruct (Z.lt_ge_cases div limit) as [Hlt|Hge].
  - rewrite needed_step in H by assumption.
    destruct (body_cases div) as [Hh|Hm|Hx].
    + rewrite pass_hit by assumption. eexists; reflexivity.
    + rewrite pass_miss by assumption. cbn [fst]. apply IH; [lia|].
      intros d Hd Hmod. apply Hr; [lia|].
      replace (d - div) with (d - (div + 4) + 1 * 4) by lia.
      now rewrite Z.mod_add by lia.
    + exfalso. destruct (Hr div) as [R1 R2]; [lia|now rewrite Z.sub_diag|].
      unfold Struct.pack_I, Struct.pack_H in Hx.
      rewrite (pack_uint_range 4), (pack_uint_range 2) in Hx by (simpl; lia).
      destruct Hx as [Hx|[_ Hx]]; discriminate.
  - rewrite pass_end by assumption. eexists; reflexivity.
Qed.

(** A loop that meets a passing divisor [d0], and whose encodings are in
    range before it, returns at [d0] or earlier. *)
Lemma pass_reaches (fuel : nat) (div d0 : Z) :
  (needed limit div <= fuel)%nat ->
  div <= d0 < limit -> (d0 - div) mod 4 = 0 ->
  passes bad (addr d0) d0 ->
  (forall d, div <= d < d0 -> (d - div) mod 4 = 0 ->
             0 <= addr d < 2 ^ 32 /\ 0 <= d < 2 ^ 16) ->
  exists d, fst (loop fuel div) = Ok (Some (ret d)) /\ div <= d <= d0.
Proof.
  revert div; induction fuel as [|fuel IH]; intros div H Hd0 Hmod Hok Hr.
  { unfold needed in H; lia. }
  rewrite needed_step in H by lia.
  destruct (body_cases div) as [Hh|Hm|Hx].
  - rewrite pass_hit by (lia || assumption). exists div. split; [reflexivity|lia].
  - destruct (Z.eq_dec d0 div) as [->|Hne].
    { exfalso. exact (passes_not_rejected _ _ _ Hm Hok). }
    assert (div + 4 <= d0).
    { apply Z.mod_divide in Hmod; [|lia]. destruct Hmod as [k Hk]. lia. }
    rewrite pass_miss by (lia || assumption). cbn [fst].
    destruct (IH (div + 4)) as (d & Hd & Hle); try assumption; try lia.
    + replace (d0 - (div + 4)) with (d0 - div + (-1) * 4) by lia.
      now rewrite Z.mod_add by lia.
    + intros d Hd Hmd. apply Hr; [lia|].
      replace (d - div) with (d - (div + 4) + 1 * 4) by lia.
      now rewrite Z.mod_add by lia.
    + exists d. split; [exact Hd|lia].
  - exfalso.
    assert (Hin : exists x y, Struct.pack_I (addr div) = Ok x
                              /\ Struct.pack_H div = Ok y).
    { destruct (Z.eq_dec d0 div) as [->|Hne].
      - destruct Hok as (x & y & H1 & H2 & _). now exists x, y.
      - destruct (Hr div) as [R1 R2]; [lia|now rewrite Z.sub_diag|].
        do 2 eexists. unfold Struct.pack_I, Struct.pack_H.
        rewrite (pack_uint_range 4), (pack_uint_range 2) by (simpl; lia).
        split; reflexivity. }
    destruct Hin as (x & y & H1 & H2).
    destruct Hx as [Hx|[_ Hx]]; congruence.
Qed.
End LoopFacts.

Lemma positive_pass_shape (limit : Z) (bad : bytes -> bool) (offset : Z) :
  Patchtools.positive_pass limit bad offset
  = pass limit bad (fun div => offset + div) (fun div => div).
Proof. reflexivity. Qed.

Lemma negative_pass_shape (limit : Z) (bad : bytes -> bool) (offset : Z) :
  Patchtools.negative_pass limit bad offset
  = pass limit bad (fun div => offset - div) (fun div => - div).
Proof. reflexivity. Qed.

(** ** [generate_offset] *)

Lemma needed_0 (limit : Z) : needed limit 0 = Patchtools.enough_fuel limit.
Proof.
  unfold needed, Patchtools.enough_fuel, Patchtools.max_iterations.
  now rewrite Z.sub_0_r.
Qed.

(** The three ways [generate_offset] returns. *)
Lemma generate_offset_run_cases (limit : Z) (bad : bytes -> bool)
    (offset : Z) (fuel : nat) (r : Z) :
  fst (Patchtools.generate_offset_run limit bad offset fuel) = Ok r ->
  fst (Patchtools.positive_pass limit bad offset fuel 0) = Ok (Some r)
  \/ (fst (Patchtools.positive_pass limit bad offset fuel 0) = Ok None
      /\ fst (Patchtools.negative_pass limit bad offset fuel 0) = Ok (Some r))
  \/ (fst (Patchtools.positive_pass limit bad offset fuel 0) = Ok None
      /\ fst (Patchtools.negative_pass limit bad offset fuel 0) = Ok None
      /\ r = 0).
Proof.
  unfold Patchtools.generate_offset_run.
  destruct (Patchtools.positive_pass limit bad offset fuel 0) as [[[d|]|e|] n1];
    cbn [fst]; try discriminate.
  - intros H; injection H as <-. now left.
  - destruct (Patchtools.negative_pass limit bad offset fuel 0) as [[[d|]|e|] n2];
      cbn [fst]; try discriminate; intros H; injection H as <-; right.
    + now left.
    + now right.
Qed.

Lemma multiple_of_4_below (d : Z) :
  0 <= d < Patchtools.boundsLimit -> d mod 4 = 0 -> d <= 0x604.
Proof.
  unfold Patchtools.boundsLimit. intros Hd Hmod.
  apply Z.mod_divide in Hmod; [|lia]. destruct Hmod as [k Hk]. lia.
Qed.

Lemma zero_divisor_rejected (target : Z) :
  ~ passes Patchtools.has_bad_uart_chars target 0.
Proof.
  intros (data & data2 & _ & H2 & _ & B2).
  vm_compute in H2. injection H2 as <-. vm_compute in B2. discriminate.
Qed.

(** The range of a value [struct.pack] encodes. *)
Lemma passes_in_range (bad : bytes -> bool) (target d : Z) :
  passes bad target d -> 0 <= target < 2 ^ 32 /\ 0 <= d < 2 ^ 16.
Proof.
  intros (x & y & H1 & H2 & _). unfold Struct.pack_I, Struct.pack_H in *.
  destruct (pack_uint_cases 4 target) as [[R1 _]|[_ E1]]; [|congruence].
  destruct (pack_uint_cases 2 d) as [[R2 _]|[_ E2]]; [|congruence].
  split; [exact R1|exact R2].
Qed.

(** An address whose 4-byte encoding is clean has a non-zero top byte. *)
Lemma passes_top_byte (target d : Z) :
  passes Patchtools.has_bad_uart_chars target d -> 2 ^ 24 <= target.
Proof.
  intros Hok. destruct (passes_in_range _ _ _ Hok) as [R1 _].
  destruct Hok as (x & y & H1 & _ & B1 & _).
  unfold Struct.pack_I in H1. rewrite pack_uint_range in H1 by exact R1.
  assert (Ex : x = Struct.le_bytes 4 target) by congruence. subst x.
  destruct (Z.le_gt_cases (2 ^ 24) target) as [|Hlt]; [assumption|exfalso].
  assert (E : target / 256 / 256 / 256 = 0).
  { rewrite !Z.div_div by lia. apply Z.div_small. lia. }
  cbn [Struct.le_bytes] in B1. rewrite E in B1.
  do 3 rewrite has_bad_uart_chars_cons in B1.
  do 3 match type of B1 with
       | (if ?c then _ else _) = _ => destruct c; [discriminate|]
       end.
  vm_compute in B1. discriminate.
Qed.

(** What a returned value is: the three ways [generate_offset] returns. *)
Lemma generate_offset_result (offset r : Z) :
  let ok := passes Patchtools.has_bad_uart_chars in
  Patchtools.generate_offset offset = Ok r ->
  (0 < r < Patchtools.boundsLimit /\ r mod 4 = 0
   /\ ok (offset + r) r
   /\ forall d, 0 <= d < r -> d mod 4 = 0 -> ~ ok (offset + d) d)
  \/ (r < 0 /\ - r < Patchtools.boundsLimit /\ (- r) mod 4 = 0
      /\ (forall d, 0 <= d < Patchtools.boundsLimit -> d mod 4 = 0 ->
                    ~ ok (offset + d) d)
      /\ ok (offset - - r) (- r)
      /\ forall d, 0 <= d < - r -> d mod 4 = 0 -> ~ ok (offset - d) d)
  \/ (r = 0
      /\ forall d, 0 <= d < Patchtools.boundsLimit -> d mod 4 = 0 ->
                   ~ ok (offset + d) d /\ ~ ok (offset - d) d).
Proof.
  intros ok H. unfold Patchtools.generate_offset in H.
  apply generate_offset_run_cases in H.
  rewrite positive_pass_shape, negative_pass_shape in H.
  destruct H as [Hp|[[Hp Hn]|(Hp & Hn & ->)]].
  - left. apply pass_found in Hp.
    destruct Hp as (d & -> & Hd & Hmod & Hok & Hmin).
    rewrite Z.sub_0_r in Hmod.
    assert (d <> 0) by (intros ->; exact (zero_divisor_rejected _ Hok)).
    repeat split; try lia; try assumption.
    intros d' Hd' Hmod'. apply passes_not_rejected, Hmin; [lia|].
    now rewrite Z.sub_0_r.
  - right; left. apply pass_found in Hn.
    destruct Hn as (d & -> & Hd & Hmod & Hok & Hmin).
    rewrite Z.sub_0_r in Hmod. rewrite !Z.opp_involutive.
    assert (d <> 0) by (intros ->; exact (zero_divisor_rejected _ Hok)).
    repeat split; try lia; try assumption.
    + intros d' Hd' Hmod'. apply passes_not_rejected.
      apply (pass_exhausted _ _ _ _ _ _ Hp); [lia|now rewrite Z.sub_0_r].
    + intros d' Hd' Hmod'. apply passes_not_rejected, Hmin; [lia|].
      now rewrite Z.sub_0_r.
  - right; right. split; [reflexivity|]. intros d Hd Hmod. split.
    + apply passes_not_rejected.
      apply (pass_exhausted _ _ _ _ _ _ Hp); [lia|now rewrite Z.sub_0_r].
    + apply passes_not_rejected.
      apply (pass_exhausted _ _ _ _ _ _ Hn); [lia|now rewrite Z.sub_0_r].
Qed.

(** A successful ascending search returns: with a non-negative [offset] and
    a passing divisor [d0], the first loop returns a divisor up to [d0]. *)
Lemma generate_offset_ascending (offset d0 : Z) :
  0 <= offset ->
  0 <= d0 < Patchtools.boundsLimit -> d0 mod 4 = 0 ->
  passes Patchtools.has_bad_uart_chars (offset + d0) d0 ->
  exists r, Patchtools.generate_offset offset = Ok r /\ 0 <= r <= d0.
Proof.
  intros Hoff Hd0 Hmod Hok.
  destruct (passes_in_range _ _ _ Hok) as [R1 R2].
  destruct (pass_reaches Patchtools.boundsLimit Patchtools.has_bad_uart_chars
              (fun div => offset + div) (fun div => div)
              (Patchtools.enough_fuel Patchtools.boundsLimit) 0 d0)
    as (d & Hd & Hle).
  - rewrite needed_0. lia.
  - lia.
  - now rewrite Z.sub_0_r.
  - exact Hok.
  - intros d Hd _. unfold Patchtools.boundsLimit in Hd0. lia.
  - exists d. split; [|exact Hle].
    unfold Patchtools.generate_offset, Patchtools.generate_offset_run.
    rewrite positive_pass_shape.
    destruct (pass _ _ (fun div => offset + div) _ _ _) as [r1 n1].
    cbn [fst] in Hd. subst r1. reflexivity.
Qed.

(** A successful descending search returns: when the first loop rejects
    every divisor without raising and [d0] passes for [offset - d0], the
    second loop returns the negative of a divisor up to [d0]. *)
Lemma generate_offset_descending (offset d0 : Z) :
  offset <= 2 ^ 32 - 1 - 0x604 ->
  0 <= d0 < Patchtools.boundsLimit -> d0 mod 4 = 0 ->
  (forall d, 0 <= d < Patchtools.boundsLimit -> d mod 4 = 0 ->
             ~ passes Patchtools.has_bad_uart_chars (offset + d) d) ->
  passes Patchtools.has_bad_uart_chars (offset - d0) d0 ->
  exists r, Patchtools.generate_offset offset = Ok r /\ - d0 <= r <= 0.
Proof.
  intros Hoff Hd0 Hmod Hnone Hok.
  destruct (passes_in_range _ _ _ Hok) as [R1 R2].
  destruct (pass_no_raise Patchtools.boundsLimit Patchtools.has_bad_uart_chars
              (fun div => offset + div) (fun div => div)
              (Patchtools.enough_fuel Patchtools.boundsLimit) 0) as [o1 H1].
  { rewrite needed_0. lia. }
  { intros d Hd Hmd. rewrite Z.sub_0_r in Hmd.
    pose proof (multiple_of_4_below d Hd Hmd). lia. }
  destruct o1 as [r1|].
  { exfalso. apply pass_found in H1.
    destruct H1 as (d & _ & Hd & Hmd & Hp & _). rewrite Z.sub_0_r in Hmd.
    exact (Hnone d Hd Hmd Hp). }
  destruct (pass_reaches Patchtools.boundsLimit Patchtools.has_bad_uart_chars
              (fun div => offset - div) (fun div => - div)
              (Patchtools.enough_fuel Patchtools.boundsLimit) 0 d0)
    as (d & Hd & Hle).
  - rewrite needed_0. lia.
  - lia.
  - now rewrite Z.sub_0_r.
  - exact Hok.
  - intros d Hd _. unfold Patchtools.boundsLimit in Hd0. lia.
  - exists (- d). split; [|lia].
    unfold Patchtools.generate_offset, Patchtools.generate_offset_run.
    rewrite positive_pass_shape, negative_pass_shape.
    destruct (pass _ _ (fun div => offset + div) _ _ _) as [r1 n1].
    cbn [fst] in H1. subst r1.
    destruct (pass _ _ (fun div => offset - div) _ _ _) as [r2 n2].
    cbn [fst] in Hd. subst r2. reflexivity.
Qed.

(** C1: when the search succeeds, [generate_offset] returns the smallest
    multiple of 4, [d], below the bound for which the 4-byte encoding of
    [offset + d] and the 2-byte encoding of [d] hold no forbidden byte; a
    negative [-d] is returned only when no non-negative divisor below the
    bound passes, and then [d] is the smallest magnitude passing for
    [offset - d].  Three parts.  (1) Whatever is returned is of this kind:
    the smallest passing divisor, the negative of the smallest passing
    magnitude when no non-negative divisor passes, or the fallback 0 when
    none passes in either direction.  (2) A result is produced when the
    ascending search succeeds: if some multiple of 4 below the bound passes
    for [offset + d], the call returns the smallest such [d], which is
    positive.  (3) A result is produced when the descending search
    succeeds: if no multiple of 4 below the bound passes for [offset + d],
    [offset + 0x604] still fits 32 bits (else the first loop raises), and
    some multiple of 4 below the bound passes for [offset - d], the call
    returns [-d] for the smallest such [d]. *)
Theorem generate_offset_smallest_divisor (offset : Z) :
  let ok := passes Patchtools.has_bad_uart_chars in
  let candidate d := 0 <= d < Patchtools.boundsLimit /\ d mod 4 = 0 in
  (forall r, Patchtools.generate_offset offset = Ok r ->
     (0 < r < Patchtools.boundsLimit /\ r mod 4 = 0
      /\ ok (offset + r) r
      /\ forall d, 0 <= d < r -> d mod 4 = 0 -> ~ ok (offset + d) d)
     \/ (r < 0 /\ - r < Patchtools.boundsLimit /\ (- r) mod 4 = 0
         /\ (forall d, 0 <= d < Patchtools.boundsLimit -> d mod 4 = 0 ->
                       ~ ok (offset + d) d)
         /\ ok (offset - - r) (- r)
         /\ forall d, 0 <= d < - r -> d mod 4 = 0 -> ~ ok (offset - d) d)
     \/ (r = 0
         /\ forall d, 0 <= d < Patchtools.boundsLimit -> d mod 4 = 0 ->
                      ~ ok (offset + d) d /\ ~ ok (offset - d) d))
  /\ (forall d0, candidate d0 -> ok (offset + d0) d0 ->
        exists d, Patchtools.generate_offset offset = Ok d
                  /\ 0 < d <= d0 /\ d mod 4 = 0 /\ ok (offset + d) d
                  /\ forall d', candidate d' -> ok (offset + d') d' -> d <= d')
  /\ (forall d0, offset <= 2 ^ 32 - 1 - 0x604 -> candidate d0 ->
        (forall d, candidate d -> ~ ok (offset + d) d) ->
        ok (offset - d0) d0 ->
        exists d, Patchtools.generate_offset offset = Ok (- d)
                  /\ 0 < d <= d0 /\ d mod 4 = 0 /\ ok (offset - d) d
                  /\ forall d', candidate d' -> ok (offset - d') d' -> d <= d').
Proof.
  intros ok candidate. split; [|split].
  - intros r H. exact (generate_offset_result offset r H).
  - intros d0 [Hd0 Hmod] Hok.
    assert (Hoff : 0 <= offset).
    { pose proof (passes_top_byte _ _ Hok).
      unfold Patchtools.boundsLimit in Hd0. lia. }
    destruct (generate_offset_ascending offset d0 Hoff Hd0 Hmod Hok)
      as (r & Hr & Hle).
    destruct (generate_offset_result offset r Hr)
      as [(Hpos & Hm & Hp & Hmin)|[(Hneg & _)|(-> & Hnone)]].
    + exists r. repeat split; try assumption; try lia.
      intros d' [Hd' Hm'] Hp'.
      destruct (Z.le_gt_cases r d') as [|Hlt]; [assumption|].
      exfalso. apply (Hmin d'); [lia|assumption|assumption].
    + exfalso; lia.
    + exfalso. destruct (Hnone d0 Hd0 Hmod) as [Hno _]. exact (Hno Hok).
  - intros d0 Hoff [Hd0 Hmod] Hnone Hok.
    destruct (generate_offset_descending offset d0 Hoff Hd0 Hmod
                (fun d Hd Hm => Hnone d (conj Hd Hm)) Hok) as (r & Hr & Hle).
    destruct (generate_offset_result offset r Hr)
      as [(Hpos & _)|[(Hneg & Hb & Hm & _ & Hp & Hmin)|(-> & Hnone')]].
    + exfalso; lia.
    + exists (- r). rewrite Z.opp_involutive.
      repeat split; try assumption; try lia.
      intros d' [Hd' Hm'] Hp'.
      destruct (Z.le_gt_cases (- r) d') as [|Hlt]; [assumption|].
      exfalso. apply (Hmin d'); [lia|assumption|assumption].
    + exfalso. destruct (Hnone' d0 Hd0 Hmod) as [_ Hno]. exact (Hno Hok).
Qed.

Lemma generate_offset_smallest_divisor_witness :
  (passes Patchtools.has_bad_uart_chars (0x41414141 + 0x104) 0x104
   /\ exists d, Patchtools.generate_offset 0x41414141 = Ok d /\ 0 < d <= 0x104)
  /\ (0x41000000 <= 2 ^ 32 - 1 - 0x604
      /\ passes Patchtools.has_bad_uart_chars (0x41000000 - 0x104) 0x104
      /\ exists d, Patchtools.generate_offset 0x41000000 = Ok (- d)
                   /\ 0 < d <= 0x104).
Proof.
  assert (Hup : passes Patchtools.has_bad_uart_chars (0x41414141 + 0x104) 0x104).
  { exists (Struct.le_bytes 4 (0x41414141 + 0x104)), (Struct.le_bytes 2 0x104).
    repeat split; vm_compute; reflexivity. }
  assert (Hdown : passes Patchtools.has_bad_uart_chars
                    (0x41000000 - 0x104) 0x104).
  { exists (Struct.le_bytes 4 (0x41000000 - 0x104)), (Struct.le_bytes 2 0x104).
    repeat split; vm_compute; reflexivity. }
  assert (Hc : 0 <= 0x104 < Patchtools.boundsLimit /\ 0x104 mod 4 = 0).
  { split; [unfold Patchtools.boundsLimit; lia|reflexivity]. }
  split.
  - split; [exact Hup|].
    destruct (proj1 (proj2 (generate_offset_smallest_divisor 0x41414141))
                0x104 Hc Hup) as (d & Hd & Hr & _).
    exists d. split; [exact Hd|exact Hr].
  - split; [lia|]. split; [exact Hdown|].
    assert (Hrun : Patchtools.generate_offset 0x41000000 = Ok (- 0x104))
      by (vm_compute; reflexivity).
    assert (Hnone : forall d,
              0 <= d < Patchtools.boundsLimit /\ d mod 4 = 0 ->
              ~ passes Patchtools.has_bad_uart_chars (0x41000000 + d) d).
    { intros d [Hd Hm].
      destruct (proj1 (generate_offset_smallest_divisor 0x41000000)
                  (- 0x104) Hrun)
        as [(Hpos & _)|[(_ & _ & _ & Hno & _)|(Hz & _)]].
      - exfalso; lia.
      - exact (Hno d Hd Hm).
      - exfalso; discriminate. }
    destruct (proj2 (proj2 (generate_offset_smallest_divisor 0x41000000))
                0x104 ltac:(lia) Hc Hnone Hdown) as (d & Hd & Hr & _).
    exists d. split; [exact Hd|exact Hr].
Defined.

(** C5: the divisor [generate_offset] returns is a multiple of 4 of
    magnitude below the bound 0x606, whether it comes from the search or is
    the fallback 0. *)
Theorem generate_offset_within_bounds (offset r : Z) :
  Patchtools.generate_offset offset = Ok r ->
  Z.abs r < 0x606 /\ r mod 4 = 0.
Proof.
  intros H. unfold Patchtools.generate_offset in H.
  apply generate_offset_run_cases in H.
  rewrite positive_pass_shape, negative_pass_shape in H.
  change 0x606 with Patchtools.boundsLimit.
  destruct H as [Hp|[[_ Hn]|(_ & _ & ->)]].
  - apply pass_found in Hp. destruct Hp as (d & -> & Hd & Hmod & _).
    rewrite Z.sub_0_r in Hmod. split; [lia|assumption].
  - apply pass_found in Hn. destruct Hn as (d & -> & Hd & Hmod & _).
    rewrite Z.sub_0_r in Hmod. split; [lia|].
    apply Z.mod_divide in Hmod; [|lia]. apply Z.mod_divide; [lia|].
    now apply Z.divide_opp_r.
  - split; [unfold Patchtools.boundsLimit; lia|reflexivity].
Qed.

Lemma generate_offset_within_bounds_witness :
  Patchtools.generate_offset 0x41000000 = Ok (- 0x104)
  /\ Z.abs (- 0x104) < 0x606 /\ (- 0x104) mod 4 = 0.
Proof.
  assert (H : Patchtools.generate_offset 0x41000000 = Ok (- 0x104))
    by (vm_compute; reflexivity).
  split; [exact H|].
  exact (generate_offset_within_bounds 0x41000000 (- 0x104) H).
Defined.

(** C6: [generate_offset] terminates for every address, bound and filter:
    with the fuel of ceil(limit / 4) + 1 condition checks no loop is cut
    off, more fuel changes nothing, and the body of each loop runs at most
    ceil(limit / 4) times, which is 386 for the bound 0x606. *)
Theorem generate_offset_terminates (limit : Z) (bad : bytes -> bool)
    (offset : Z) (fuel : nat) :
  (Patchtools.enough_fuel limit <= fuel)%nat ->
  let run := Patchtools.generate_offset_run limit bad offset fuel in
  fst run <> OutOfFuel
  /\ (fst (snd run) <= Patchtools.max_iterations limit)%nat
  /\ (snd (snd run) <= Patchtools.max_iterations limit)%nat
  /\ run = Patchtools.generate_offset_run limit bad offset
             (Patchtools.enough_fuel limit)
  /\ Patchtools.max_iterations Patchtools.boundsLimit = 386%nat.
Proof.
  intros Hfuel run.
  assert (Hirr : run = Patchtools.generate_offset_run limit bad offset
                         (Patchtools.enough_fuel limit)).
  { unfold run, Patchtools.generate_offset_run.
    rewrite positive_pass_shape, negative_pass_shape.
    rewrite (pass_fuel_irrelevant _ _ _ _ fuel (Patchtools.enough_fuel limit))
      by (rewrite needed_0; lia).
    rewrite (pass_fuel_irrelevant _ _ _ _ fuel (Patchtools.enough_fuel limit))
      by (rewrite needed_0; lia).
    reflexivity. }
  assert (Hp := pass_terminates limit bad (fun div => offset + div)
                  (fun div => div) fuel 0).
  assert (Hn := pass_terminates limit bad (fun div => offset - div)
                  (fun div => - div) fuel 0).
  rewrite needed_0 in Hp, Hn.
  destruct (Hp Hfuel) as [Hp1 Hp2]. destruct (Hn Hfuel) as [Hn1 Hn2].
  unfold Patchtools.enough_fuel in Hp2, Hn2.
  repeat split; try exact Hirr; try reflexivity;
    unfold run, Patchtools.generate_offset_run;
    rewrite positive_pass_shape, negative_pass_shape;
    destruct (pass limit bad (fun div => offset + div) (fun div => div) fuel 0)
      as [[[d|]|e|] n1];
    cbn [fst snd] in *; try discriminate; try lia; try congruence;
    destruct (pass limit bad (fun div => offset - div) (fun div => - div) fuel 0)
      as [[[d|]|e|] n2];
    cbn [fst snd] in *; try discriminate; try lia; try congruence.
Qed.

Lemma generate_offset_terminates_witness :
  (Patchtools.enough_fuel 0x606 <= 1000)%nat
  /\ Patchtools.generate_offset_run 0x606 Patchtools.has_bad_uart_chars
       0x41000800 1000
     = (Ok 0, (386%nat, 386%nat)).
Proof.
  assert (Hfuel : (Patchtools.enough_fuel 0x606 <= 1000)%nat)
    by (vm_compute; lia).
  split; [exact Hfuel|].
  destruct (generate_offset_terminates 0x606 Patchtools.has_bad_uart_chars
              0x41000800 1000 Hfuel) as (_ & _ & _ & Heq & _).
  rewrite Heq. vm_compute. reflexivity.
Defined.

(** C9: for every offset with 0x604 <= offset <= 2^32 - 1 - 0x604 every
    argument of [struct.pack] in both loops lies in the range of its format,
    and [generate_offset] returns an integer; outside this range it can
    raise: at offset 0 the first loop rejects every divisor and the second
    reaches [offset - div < 0], where [struct.pack("<I", ...)] raises
    [struct.error] and no fallback 0 is returned. *)
Theorem generate_offset_raises_outside_range :
  (forall offset, 0x604 <= offset <= 2 ^ 32 - 1 - 0x604 ->
     (forall d, 0 <= d < Patchtools.boundsLimit -> d mod 4 = 0 ->
        0 <= offset + d < 2 ^ 32 /\ 0 <= offset - d < 2 ^ 32 /\ 0 <= d < 2 ^ 16)
     /\ exists r, Patchtools.generate_offset offset = Ok r)
  /\ Patchtools.generate_offset 0 = Raise StructError
  /\ fst (Patchtools.positive_pass Patchtools.boundsLimit
            Patchtools.has_bad_uart_chars 0
            (Patchtools.enough_fuel Patchtools.boundsLimit) 0) = Ok None
  /\ Struct.pack_I (0 - 4) = Raise StructError.
Proof.
  split; [|repeat split; vm_compute; reflexivity].
  intros offset Hoff.
  assert (Hrange : forall d, 0 <= d < Patchtools.boundsLimit -> d mod 4 = 0 ->
            0 <= offset + d < 2 ^ 32 /\ 0 <= offset - d < 2 ^ 32 /\ 0 <= d < 2 ^ 16).
  { intros d Hd Hmod. pose proof (multiple_of_4_below d Hd Hmod). lia. }
  split; [exact Hrange|].
  unfold Patchtools.generate_offset, Patchtools.generate_offset_run.
  rewrite positive_pass_shape, negative_pass_shape.
  destruct (pass_no_raise Patchtools.boundsLimit Patchtools.has_bad_uart_chars
              (fun div => offset + div) (fun div => div)
              (Patchtools.enough_fuel Patchtools.boundsLimit) 0) as [o1 H1].
  { rewrite needed_0. lia. }
  { intros d Hd Hmod. rewrite Z.sub_0_r in Hmod.
    destruct (Hrange d Hd Hmod) as (? & ? & ?). now split. }
  destruct (pass_no_raise Patchtools.boundsLimit Patchtools.has_bad_uart_chars
              (fun div => offset - div) (fun div => - div)
              (Patchtools.enough_fuel Patchtools.boundsLimit) 0) as [o2 H2].
  { rewrite needed_0. lia. }
  { intros d Hd Hmod. rewrite Z.sub_0_r in Hmod.
    destruct (Hrange d Hd Hmod) as (? & ? & ?). now split. }
  destruct (pass _ _ (fun div => offset + div) _ _ _) as [r1 n1].
  cbn [fst] in H1. subst r1.
  destruct o1 as [d|]; [eexists; reflexivity|].
  destruct (pass _ _ (fun div => offset - div) _ _ _) as [r2 n2].
  cbn [fst] in H2. subst r2.
  destruct o2 as [d|]; eexists; reflexivity.
Qed.

Lemma generate_offset_raises_outside_range_witness :
  0x604 <= 0x604 <= 2 ^ 32 - 1 - 0x604
  /\ exists r, Patchtools.generate_offset 0x604 = Ok r.
Proof.
  assert (H : 0x604 <= 0x604 <= 2 ^ 32 - 1 - 0x604) by lia.
  split; [exact H|].
  exact (proj2 (proj1 generate_offset_raises_outside_range 0x604 H)).
Defined.

(** ** The address lookups of [ELF] *)

Lemma covers_virt_test (s : ELF.MemorySegment.t) (q : Z) :
  (ELF.MemorySegment.virt_end_addr s >=? q)
  && (q >=? ELF.MemorySegment.virt_start_addr s) = true
  <-> covers_virt s q.
Proof. unfold covers_virt. rewrite andb_true_iff, !Z.geb_le. tauto. Qed.

Lemma covers_file_test (s : ELF.MemorySegment.t) (q : Z) :
  (ELF.MemorySegment.file_end_addr s >=? q)
  && (q >=? ELF.MemorySegment.file_start_addr s) = true
  <-> covers_file s q.
Proof. unfold covers_file. rewrite andb_true_iff, !Z.geb_le. tauto. Qed.

(** Every table has a first covering segment or none at all. *)
Lemma first_match_or_none (covers : ELF.MemorySegment.t -> Prop)
    (layout : list ELF.MemorySegment.t) :
  (forall s, covers s \/ ~ covers s) ->
  (exists s, first_match covers layout s)
  \/ Forall (fun s => ~ covers s) layout.
Proof.
  intros Hdec. induction layout as [|s layout IH].
  - right. constructor.
  - destruct (Hdec s) as [Hc|Hn].
    + left. exists s, [], layout. repeat split; [constructor|assumption].
    + destruct IH as [(s' & before & after & -> & Hb & Hc)|Hall].
      * left. exists s', (s :: before), after.
        repeat split; [constructor; assumption|assumption].
      * right. constructor; assumption.
Qed.

Section Scans.
Variable q : Z.

Lemma getfileoffset_scan_first (layout : list ELF.MemorySegment.t)
    (s : ELF.MemorySegment.t) :
  first_match (fun s' => covers_virt s' q) layout s ->
  ELF.getfileoffset_scan layout q
  = Some (q - ELF.MemorySegment.virt_start_addr s
          + ELF.MemorySegment.file_start_addr s).
Proof.
  intros (before & after & -> & Hb & Hc).
  induction Hb as [|s' before Hn _ IH]; cbn [app ELF.getfileoffset_scan].
  - apply covers_virt_test in Hc. now rewrite Hc.
  - destruct (_ && _) eqn:E; [|exact IH].
    apply covers_virt_test in E. contradiction.
Qed.

Lemma getbaseaddr_scan_first (layout : list ELF.MemorySegment.t)
    (s : ELF.MemorySegment.t) :
  first_match (fun s' => covers_virt s' q) layout s ->
  ELF.getbaseaddr_scan layout q = Some (ELF.MemorySegment.virt_start_addr s).
Proof.
  intros (before & after & -> & Hb & Hc).
  induction Hb as [|s' before Hn _ IH]; cbn [app ELF.getbaseaddr_scan].
  - apply covers_virt_test in Hc. now rewrite Hc.
  - destruct (_ && _) eqn:E; [|exact IH].
    apply covers_virt_test in E. contradiction.
Qed.

Lemma getvirtaddr_scan_first (layout : list ELF.MemorySegment.t)
    (s : ELF.MemorySegment.t) :
  first_match (fun s' => covers_file s' q) layout s ->
  ELF.getvirtaddr_scan layout q
  = Some (ELF.MemorySegment.virt_start_addr s + q
          - ELF.MemorySegment.file_start_addr s).
Proof.
  intros (before & after & -> & Hb & Hc).
  induction Hb as [|s' before Hn _ IH]; cbn [app ELF.getvirtaddr_scan].
  - apply covers_file_test in Hc. now rewrite Hc.
  - destruct (_ && _) eqn:E; [|exact IH].
    apply covers_file_test in E. contradiction.
Qed.

Lemma getfileoffset_scan_none (layout : list ELF.MemorySegment.t) :
  Forall (fun s => ~ covers_virt s q) layout ->
  ELF.getfileoffset_scan layout q = None.
Proof.
  induction 1 as [|s layout Hn _ IH]; cbn [ELF.getfileoffset_scan]; [reflexivity|].
  destruct (_ && _) eqn:E; [|exact IH].
  apply covers_virt_test in E. contradiction.
Qed.

Lemma getbaseaddr_scan_none (layout : list ELF.MemorySegment.t) :
  Forall (fun s => ~ covers_virt s q) layout ->
  ELF.getbaseaddr_scan layout q = None.
Proof.
  induction 1 as [|s layout Hn _ IH]; cbn [ELF.getbaseaddr_scan]; [reflexivity|].
  destruct (_ && _) eqn:E; [|exact IH].
  apply covers_virt_test in E. contradiction.
Qed.

Lemma getvirtaddr_scan_none (layout : list ELF.MemorySegment.t) :
  Forall (fun s => ~ covers_file s q) layout ->
  ELF.getvirtaddr_scan layout q = None.
Proof.
  induction 1 as [|s layout Hn _ IH]; cbn [ELF.getvirtaddr_scan]; [reflexivity|].
  destruct (_ && _) eqn:E; [|exact IH].
  apply covers_file_test in E. contradiction.
Qed.
End Scans.

(** C7: the three lookups are total on every image and query address: when
    some segment's inclusive range holds the query, each returns the
    translation by the first such segment in table order; when none does,
    each returns [None]; no lookup raises. *)
Theorem lookups_total_first_match (self : ELF.t) (q : Z) :
  let layout := ELF.memorylayout self in
  ((exists s, first_match (fun s' => covers_virt s' q) layout s
              /\ ELF.getfileoffset self q
                 = Some (q - ELF.MemorySegment.virt_start_addr s
                         + ELF.MemorySegment.file_start_addr s)
              /\ ELF.getbaseaddr self q
                 = Some (ELF.MemorySegment.virt_start_addr s))
   \/ (Forall (fun s => ~ covers_virt s q) layout
       /\ ELF.getfileoffset self q = None /\ ELF.getbaseaddr self q = None))
  /\ ((exists s, first_match (fun s' => covers_file s' q) layout s
                 /\ ELF.getvirtaddr self q
                    = Some (ELF.MemorySegment.virt_start_addr s + q
                            - ELF.MemorySegment.file_start_addr s))
      \/ (Forall (fun s => ~ covers_file s q) layout
          /\ ELF.getvirtaddr self q = None)).
Proof.
  intros layout.
  unfold ELF.getfileoffset, ELF.getbaseaddr, ELF.getvirtaddr. fold layout.
  split.
  - destruct (first_match_or_none (fun s' => covers_virt s' q) layout)
      as [[s Hs]|Hnone].
    { intros s. unfold covers_virt. lia. }
    + left. exists s. split; [exact Hs|]. split.
      * now apply getfileoffset_scan_first.
      * now apply getbaseaddr_scan_first.
    + right. split; [exact Hnone|]. split.
      * now apply getfileoffset_scan_none.
      * now apply getbaseaddr_scan_none.
  - destruct (first_match_or_none (fun s' => covers_file s' q) layout)
      as [[s Hs]|Hnone].
    { intros s. unfold covers_file. lia. }
    + left. exists s. split; [exact Hs|]. now apply getvirtaddr_scan_first.
    + right. split; [exact Hnone|]. now apply getvirtaddr_scan_none.
Qed.

(** C3, as stated, fails: in the parsed 64-bit image whose one segment has
    memory size 0x200 and file size 0x100, the virtual address 0x1150 lies
    in the segment, its file offset 0x190 lies beyond the segment's file
    range, and the way back finds no segment; with two segments whose file
    ranges overlap, the way back lands in the earlier segment. *)
Lemma roundtrip_fails :
  (exists self,
      ELF.init scenario_image "image" = (Ok self, [])
      /\ In scenario_segment (ELF.memorylayout self)
      /\ covers_virt scenario_segment 0x1150
      /\ ELF.getfileoffset self 0x1150 = Some 0x190
      /\ roundtrip self 0x1150 = None)
  /\ (exists s, In s (ELF.memorylayout overlapping_elf)
                 /\ covers_virt s 0x1010
                 /\ roundtrip overlapping_elf 0x1010 = Some 0x90).
Proof.
  split.
  - eexists. split; [vm_compute; reflexivity|].
    split; [now left|]. split; [unfold covers_virt; simpl; lia|].
    split; vm_compute; reflexivity.
  - exists (ELF.MemorySegment.mk 0x1000 0x1000 0x1100 0x80 0x180).
    split; [right; now left|]. split; [unfold covers_virt; simpl; lia|].
    vm_compute. reflexivity.
Qed.

(** C3, amended: for every image, every segment [S] of its table and every
    virtual address [o] in the inclusive virtual range of [S], if [S] is the
    first segment in table order whose virtual range holds [o] and also the
    first whose file range holds the file offset
    [o - S.virt_start_addr + S.file_start_addr], then [getfileoffset]
    followed by [getvirtaddr] yields [o] again. *)
Theorem roundtrip_first_segment (self : ELF.t) (S : ELF.MemorySegment.t) (o : Z) :
  let f := o - ELF.MemorySegment.virt_start_addr S
           + ELF.MemorySegment.file_start_addr S in
  forall before after,
    ELF.memorylayout self = (before ++ S :: after)%list ->
    covers_virt S o ->
    Forall (fun s => ~ covers_virt s o) before ->
    f <= ELF.MemorySegment.file_end_addr S ->
    Forall (fun s => ~ covers_file s f) before ->
    ELF.getfileoffset self o = Some f
    /\ ELF.getvirtaddr self f = Some o
    /\ roundtrip self o = Some o.
Proof.
  intros f before after Hl Hv Hbv Hfe Hbf.
  assert (H1 : ELF.getfileoffset self o = Some f).
  { unfold ELF.getfileoffset.
    apply getfileoffset_scan_first. exists before, after.
    split; [exact Hl|split; assumption]. }
  assert (H2 : ELF.getvirtaddr self f = Some o).
  { unfold ELF.getvirtaddr.
    rewrite (getvirtaddr_scan_first f _ S).
    - f_equal. unfold f. lia.
    - exists before, after. split; [exact Hl|]. split; [exact Hbf|].
      unfold covers_file, covers_virt in *. unfold f in *. lia. }
  repeat split; try assumption.
  unfold roundtrip. now rewrite H1.
Qed.

Lemma roundtrip_first_segment_witness :
  exists self,
    ELF.init scenario_image "image" = (Ok self, [])
    /\ ELF.getfileoffset self 0x1010 = Some 0x50
    /\ ELF.getvirtaddr self 0x50 = Some 0x1010
    /\ roundtrip self 0x1010 = Some 0x1010.
Proof.
  eexists. split; [vm_compute; reflexivity|].
  apply (roundtrip_first_segment _ scenario_segment 0x1010 [] []).
  - vm_compute. reflexivity.
  - unfold covers_virt; simpl; lia.
  - constructor.
  - simpl; lia.
  - constructor.
Defined.

(** ** [ELF.parse] on an unknown class *)

(** C4, as stated, fails: on a buffer whose byte 4 is 3, [parse] raises
    nothing, and the constructor returns an object. *)
Lemma parse_unknown_class_no_error :
  let dat := [x7f; x45; x4c; x46; x03] in
  nth_error dat 4 = Some x03
  /\ Struct.Z_of_byte x03 <> 1 /\ Struct.Z_of_byte x03 <> 2
  /\ (forall e, fst (ELF.parse dat "a.elf") <> Raise e)
  /\ exists image, fst (ELF.init dat "a.elf") = Ok image.
Proof.
  repeat split; try (vm_compute; discriminate).
  eexists. vm_compute. reflexivity.
Qed.

(** C4, amended: for every buffer whose class byte (index 4) is neither 1
    nor 2, [parse] raises nothing: it prints "Error on parsing <filename>"
    and returns the two empty strings, and the constructor returns an
    object with an empty segment table. *)
Theorem parse_unknown_class (dat : bytes) (filename : string) (c : byte) :
  nth_error dat 4 = Some c ->
  Struct.Z_of_byte c <> 1 -> Struct.Z_of_byte c <> 2 ->
  let message := ("Error on parsing " ++ filename)%string in
  ELF.parse dat filename
  = (Ok (Struct.Z_of_byte c, (ELF.HeaderEmptyStr, ELF.PentryEmptyStr)),
     [message])
  /\ ELF.init dat filename
     = (Ok (ELF.mk dat filename (Struct.Z_of_byte c) ELF.HeaderEmptyStr
              ELF.PentryEmptyStr []), [message]).
Proof.
  intros Hc H1 H2 message.
  assert (Hp : ELF.parse dat filename
               = (Ok (Struct.Z_of_byte c,
                      (ELF.HeaderEmptyStr, ELF.PentryEmptyStr)), [message])).
  { unfold ELF.parse. rewrite Hc.
    destruct (Z.eqb_spec (Struct.Z_of_byte c) 1); [contradiction|].
    destruct (Z.eqb_spec (Struct.Z_of_byte c) 2); [contradiction|].
    reflexivity. }
  split; [exact Hp|].
  unfold ELF.init. rewrite Hp. reflexivity.
Qed.

Lemma parse_unknown_class_witness :
  ELF.init [x7f; x45; x4c; x46; x03] "a.elf"
  = (Ok (ELF.mk [x7f; x45; x4c; x46; x03] "a.elf" 3 ELF.HeaderEmptyStr
           ELF.PentryEmptyStr []), ["Error on parsing a.elf"%string]).
Proof.
  refine (proj2 (parse_unknown_class [x7f; x45; x4c; x46; x03] "a.elf" x03
                   eq_refl _ _)); vm_compute; discriminate.
Defined.

(** ** [generate_offset_asm] *)

Lemma string_app_assoc (a b c : string) :
  ((a ++ b) ++ c = a ++ (b ++ c))%string.
Proof. induction a as [|x a IH]; simpl; [reflexivity|now rewrite IH]. Qed.

Lemma string_app_empty (a : string) : (a ++ EmptyString)%string = a.
Proof. induction a as [|x a IH]; simpl; [reflexivity|now rewrite IH]. Qed.

Lemma string_empty_app (a : string) : (EmptyString ++ a)%string = a.
Proof. reflexivity. Qed.

Ltac flatten_text :=
  cbn [app mnemonics mnemonic];
  rewrite ?string_app_assoc, ?string_empty_app, ?string_app_empty.

(** The 4-byte encoding of the adjusted address exists whenever
    [generate_offset] returns. *)
Lemma generate_offset_adjusted_range (offset div : Z) :
  Patchtools.generate_offset offset = Ok div -> 0 <= offset + div < 2 ^ 32.
Proof.
  intros H. unfold Patchtools.generate_offset in H.
  apply generate_offset_run_cases in H.
  rewrite positive_pass_shape, negative_pass_shape in H.
  assert (Hpack : forall v data, Struct.pack_I v = Ok data -> 0 <= v < 2 ^ 32).
  { intros v data Hv. unfold Struct.pack_I in Hv.
    destruct (pack_uint_cases 4 v) as [[Hr _]|[_ Hx]];
      [exact Hr|rewrite Hx in Hv; discriminate]. }
  destruct H as [Hp|[[_ Hn]|(Hp & _ & ->)]].
  - apply pass_found in Hp.
    destruct Hp as (d & -> & _ & _ & (data & _ & Hd & _) & _).
    exact (Hpack _ _ Hd).
  - apply pass_found in Hn.
    destruct Hn as (d & -> & _ & _ & (data & _ & Hd & _) & _).
    replace (offset + - d) with (offset - d) by lia. exact (Hpack _ _ Hd).
  - destruct (pass_exhausted _ _ _ _ _ _ Hp 0) as (data & _ & Hd & _).
    + unfold Patchtools.boundsLimit; lia.
    + reflexivity.
    + exact (Hpack _ _ Hd).
Qed.

Lemma low_half (x : Z) : Z.land x 0xFFFF = x mod 2 ^ 16.
Proof. change 0xFFFF with (Z.ones 16). apply Z.land_ones. lia. Qed.

Lemma high_half (x : Z) :
  Z.shiftr (Z.land x 0xFFFF0000) 16 = (x / 2 ^ 16) mod 2 ^ 16.
Proof.
  rewrite Z.shiftr_land. change (Z.shiftr 0xFFFF0000 16) with (Z.ones 16).
  rewrite Z.land_ones by lia. now rewrite Z.shiftr_div_pow2 by lia.
Qed.

(** C2, as stated, fails: for the address 0x41000800 the divisor is 0, and
    the text emitted is not that of the two moves alone: a third
    instruction, an addition of 0, follows them. *)
Lemma generate_offset_asm_third_instruction_for_zero :
  Patchtools.generate_offset 0x41000800 = Ok 0
  /\ Patchtools.generate_offset_asm 0x41000800 "X24"
     <> Ok (listing 0x41000800 (emitLoadSequence 0x41000800 0 "X24"))
  /\ Patchtools.generate_offset_asm 0x41000800 "X24"
     = Ok (listing 0x41000800
             [Mov "X24" 0x800; MovkLsl16 "X24" 0x4100; Add "X24" "X24" 0]).
Proof.
  split; [vm_compute; reflexivity|].
  split; [vm_compute; discriminate|vm_compute; reflexivity].
Qed.

(** C2, amended: for every address and register name, with the divisor
    [generate_offset] returns, [generate_offset_asm] emits, after a comment
    line with the address, (1) a move of the low 16 bits of
    [offset + divisor], (2) a move-keep of its high 16 bits shifted into the
    upper half, (3) a subtraction of the divisor if it is positive, an
    addition of its magnitude if it is negative, and an addition of 0 if it
    is 0; the two halves make up [offset + divisor] exactly. *)
Theorem generate_offset_asm_sequence (offset div : Z) (reg : string) :
  Patchtools.generate_offset offset = Ok div ->
  Patchtools.generate_offset_asm offset reg
  = Ok (listing offset
          (emitLoadSequence offset div reg
           ++ (if div =? 0 then [Add reg reg 0] else [])))
  /\ (offset + div) mod 2 ^ 16 + 2 ^ 16 * (((offset + div) / 2 ^ 16) mod 2 ^ 16)
     = offset + div.
Proof.
  intros H. pose proof (generate_offset_adjusted_range _ _ H) as Hr.
  split.
  - unfold Patchtools.generate_offset_asm. rewrite H. cbn [bind].
    rewrite low_half, high_half. f_equal.
    unfold listing, emitLoadSequence.
    destruct (Z.gtb_spec div 0) as [Hpos|Hnpos].
    + destruct (Z.eqb_spec div 0); [lia|].
      flatten_text. reflexivity.
    + destruct (Z.ltb_spec div 0) as [Hneg|Hz].
      * destruct (Z.eqb_spec div 0); [lia|].
        replace (Z.abs div) with (- div) by lia.
        flatten_text. reflexivity.
      * destruct (Z.eqb_spec div 0); [|lia]. subst div.
        flatten_text. reflexivity.
  - rewrite Z.mod_small with (a := (offset + div) / 2 ^ 16).
    + rewrite Z.add_comm. symmetry. apply Z.div_mod. lia.
    + split; [apply Z.div_pos; lia|].
      apply Z.div_lt_upper_bound; lia.
Qed.

Lemma generate_offset_asm_sequence_witness :
  Patchtools.generate_offset 0x41414141 = Ok 0x104
  /\ Patchtools.generate_offset_asm 0x41414141 "X24"
     = Ok (listing 0x41414141
             [Mov "X24" 0x4245; MovkLsl16 "X24" 0x4141; Sub "X24" "X24" 0x104]).
Proof.
  assert (H : Patchtools.generate_offset 0x41414141 = Ok 0x104)
    by (vm_compute; reflexivity).
  split; [exact H|].
  exact (proj1 (generate_offset_asm_sequence 0x41414141 0x104 "X24" H)).
Defined.

(** ** Bytes and integers *)

Lemma Z_of_byte_range (b : byte) : 0 <= Struct.Z_of_byte b < 256.
Proof.
  unfold Struct.Z_of_byte. pose proof (Byte.to_N_bounded b). lia.
Qed.

Lemma byte_of_Z_of_byte (b : byte) : Struct.byte_of_Z (Struct.Z_of_byte b) = b.
Proof.
  unfold Struct.byte_of_Z. pose proof (Z_of_byte_range b) as Hr.
  rewrite Z.mod_small by exact Hr. unfold Struct.Z_of_byte.
  rewrite N2Z.id. now rewrite Byte.of_to_N.
Qed.

Lemma Z_of_byte_of_Z (z : Z) : Struct.Z_of_byte (Struct.byte_of_Z z) = z mod 256.
Proof.
  unfold Struct.byte_of_Z, Struct.Z_of_byte.
  pose proof (Z.mod_pos_bound z 256 ltac:(lia)) as Hr.
  destruct (Byte.of_N (Z.to_N (z mod 256))) as [b|] eqn:E.
  - apply Byte.to_of_N in E. rewrite E. lia.
  - apply Byte.of_N_None_iff in E. lia.
Qed.

Lemma le_bytes_length (n : nat) (v : Z) : List.length (Struct.le_bytes n v) = n.
Proof. revert v; induction n as [|n IH]; intros v; simpl; [reflexivity|now rewrite IH]. Qed.

Lemma le_value_range (b : bytes) :
  0 <= Struct.le_value b < 2 ^ (8 * Z.of_nat (List.length b)).
Proof.
  induction b as [|x b IH].
  - simpl. lia.
  - cbn [Struct.le_value List.length]. pose proof (Z_of_byte_range x).
    replace (8 * Z.of_nat (S (List.length b)))
      with (8 + 8 * Z.of_nat (List.length b)) by lia.
    rewrite Z.pow_add_r by lia. change (2 ^ 8) with 256. lia.
Qed.

Lemma le_value_le_bytes (n : nat) (v : Z) :
  0 <= v < 2 ^ (8 * Z.of_nat n) -> Struct.le_value (Struct.le_bytes n v) = v.
Proof.
  revert v; induction n as [|n IH]; intros v Hv.
  - simpl in *. lia.
  - cbn [Struct.le_bytes Struct.le_value]. rewrite Z_of_byte_of_Z.
    rewrite IH.
    + pose proof (Z.div_mod v 256 ltac:(lia)). lia.
    + replace (8 * Z.of_nat (S n)) with (8 + 8 * Z.of_nat n) in Hv by lia.
      rewrite Z.pow_add_r in Hv by lia. change (2 ^ 8) with 256 in Hv.
      split; [apply Z.div_pos; lia|apply Z.div_lt_upper_bound; lia].
Qed.

Lemma le_bytes_le_value (b : bytes) :
  Struct.le_bytes (List.length b) (Struct.le_value b) = b.
Proof.
  induction b as [|x b IH]; [reflexivity|].
  cbn [List.length Struct.le_bytes Struct.le_value].
  pose proof (Z_of_byte_range x) as Hx.
  assert (Hm : (Struct.Z_of_byte x + 256 * Struct.le_value b) mod 256
               = Struct.Z_of_byte x).
  { replace (Struct.Z_of_byte x + 256 * Struct.le_value b)
      with (Struct.Z_of_byte x + Struct.le_value b * 256) by lia.
    rewrite Z.mod_add by lia. now apply Z.mod_small. }
  assert (Hd : (Struct.Z_of_byte x + 256 * Struct.le_value b) / 256
               = Struct.le_value b).
  { replace (Struct.Z_of_byte x + 256 * Struct.le_value b)
      with (Struct.Z_of_byte x + Struct.le_value b * 256) by lia.
    rewrite Z.div_add by lia.
    rewrite (Z.div_small (Struct.Z_of_byte x)) by exact Hx. lia. }
  f_equal.
  - unfold Struct.byte_of_Z. rewrite Hm.
    rewrite <- (Z.mod_small _ 256 Hx). apply byte_of_Z_of_byte.
  - now rewrite Hd.
Qed.

Lemma le_value_app (a b : bytes) :
  Struct.le_value (a ++ b)
  = Struct.le_value a + 2 ^ (8 * Z.of_nat (List.length a)) * Struct.le_value b.
Proof.
  induction a as [|x a IH].
  - cbn [app Struct.le_value List.length].
    change (2 ^ (8 * Z.of_nat 0)) with 1. lia.
  - cbn [app Struct.le_value List.length]. rewrite IH.
    replace (8 * Z.of_nat (S (List.length a)))
      with (8 + 8 * Z.of_nat (List.length a)) by lia.
    rewrite Z.pow_add_r by lia. change (2 ^ 8) with 256. lia.
Qed.

(** ** [revdword] *)

Lemma revdword_value (v : Z) :
  0 <= v < 2 ^ 32 ->
  revdword v = Ok (Struct.le_value (rev (Struct.le_bytes 4 v))).
Proof.
  intros Hv. unfold revdword, Struct.pack_I.
  rewrite pack_uint_range by (simpl; lia). cbn [bind].
  unfold StructN.unpack_1. rewrite le_bytes_length. reflexivity.
Qed.

(** X1: [revdword] reverses the four bytes of a 32-bit value: the result
    is again a 32-bit value, its bytes are those of the argument in the
    opposite order, and applying [revdword] twice gives the argument back;
    an argument outside [0, 2^32) raises [struct.error]. *)
Theorem revdword_involutive (v : Z) :
  (0 <= v < 2 ^ 32 ->
   exists w,
     revdword v = Ok w /\ 0 <= w < 2 ^ 32
     /\ w = 2 ^ 24 * (v mod 256) + 2 ^ 16 * ((v / 2 ^ 8) mod 256)
            + 2 ^ 8 * ((v / 2 ^ 16) mod 256) + (v / 2 ^ 24) mod 256
     /\ revdword w = Ok v)
  /\ (~ 0 <= v < 2 ^ 32 -> revdword v = Raise StructError).
Proof.
  split.
  - intros Hv. exists (Struct.le_value (rev (Struct.le_bytes 4 v))).
    assert (Hlen : List.length (rev (Struct.le_bytes 4 v)) = 4%nat)
      by now rewrite length_rev, le_bytes_length.
    assert (Hw := le_value_range (rev (Struct.le_bytes 4 v))).
    rewrite Hlen in Hw. change (8 * Z.of_nat 4) with 32 in Hw.
    split; [now apply revdword_value|]. split; [exact Hw|]. split.
    + cbn [Struct.le_bytes rev app Struct.le_value].
      rewrite !Z_of_byte_of_Z.
      rewrite !Z.div_div by lia.
      change (256 * (256 * 256)) with (2 ^ 24).
      change (256 * 256) with (2 ^ 16). change (v / 256) with (v / 2 ^ 8).
      generalize (v mod 256), ((v / 2 ^ 8) mod 256), ((v / 2 ^ 16) mod 256),
        ((v / 2 ^ 24) mod 256).
      intros a b c d. change (2 ^ 24) with 16777216.
      change (2 ^ 16) with 65536. change (2 ^ 8) with 256. lia.
    + rewrite revdword_value by exact Hw. f_equal.
      rewrite <- Hlen at 1. rewrite le_bytes_le_value, rev_involutive.
      apply le_value_le_bytes. simpl; lia.
  - intros Hv. unfold revdword, Struct.pack_I.
    destruct (pack_uint_cases 4 v) as [[Hr _]|[_ ->]]; [|reflexivity].
    exfalso. apply Hv. simpl in Hr. lia.
Qed.

Lemma revdword_involutive_witness :
  revdword 0x11223344 = Ok 0x44332211 /\ revdword 0x44332211 = Ok 0x11223344.
Proof.
  destruct (proj1 (revdword_involutive 0x11223344) ltac:(lia))
    as (w & H1 & _ & Hw & H2).
  assert (E : w = 0x44332211) by (rewrite Hw; reflexivity).
  rewrite E in H1, H2. split; assumption.
Defined.

(** ** Slices *)

Lemma firstn_add_split {A} (n m : nat) (l : list A) :
  firstn (n + m) l = firstn n l ++ firstn m (skipn n l).
Proof.
  revert l; induction n as [|n IH]; intros l; [reflexivity|].
  destruct l as [|x l]; cbn [Nat.add firstn skipn app].
  - now rewrite firstn_nil.
  - now rewrite IH.
Qed.

(** A slice with both ends non-negative. *)
Lemma pyslice_nonneg (a b : Z) (data : bytes) :
  0 <= a -> 0 <= b ->
  pyslice a b data
  = firstn (Z.to_nat b - Z.to_nat a) (skipn (Z.to_nat a) data).
Proof.
  intros Ha Hb. unfold pyslice, clamp_index.
  destruct (Z.ltb_spec a 0); [lia|]. destruct (Z.ltb_spec b 0); [lia|].
  destruct (Nat.le_gt_cases (List.length data) (Z.to_nat a)) as [Hge|Hlt].
  - rewrite (Nat.min_r (Z.to_nat a)) by exact Hge.
    rewrite skipn_all, (skipn_all2 (n := Z.to_nat a)) by exact Hge.
    now rewrite !firstn_nil.
  - rewrite (Nat.min_l (Z.to_nat a)) by lia.
    destruct (Nat.le_gt_cases (Z.to_nat b) (List.length data)) as [Hb'|Hb'].
    + now rewrite (Nat.min_l (Z.to_nat b)) by exact Hb'.
    + rewrite (Nat.min_r (Z.to_nat b)) by lia.
      rewrite !firstn_all2; try reflexivity; rewrite length_skipn; lia.
Qed.

Lemma pyslice_window (p : Z) (w : nat) (data : bytes) :
  0 <= p ->
  pyslice p (p + Z.of_nat w) data = firstn w (skipn (Z.to_nat p) data).
Proof.
  intros Hp. rewrite pyslice_nonneg by lia. f_equal. lia.
Qed.

Lemma window_length (p w : nat) (data : bytes) :
  List.length (firstn w (skipn p data)) = Nat.min w (List.length data - p).
Proof. now rewrite length_firstn, length_skipn. Qed.

(** ** [Structhelper] *)

Lemma read_uint_cases (w : nat) (self : Structhelper.t) (big : bool) :
  (0 < w)%nat ->
  0 <= Structhelper.pos self ->
  let p := Structhelper.pos self in
  let d := Structhelper.data self in
  (p + Z.of_nat w <= Z.of_nat (List.length d) ->
   Structhelper.read_uint w self big
   = Ok (from_bytes (firstn w (skipn (Z.to_nat p) d)) (StructN.order big),
         Structhelper.mk (p + Z.of_nat w) d))
  /\ (Z.of_nat (List.length d) < p + Z.of_nat w ->
      Structhelper.read_uint w self big = Raise StructError).
Proof.
  intros Hw Hp p d. unfold Structhelper.read_uint, StructN.unpack_1.
  fold p d. rewrite pyslice_window by exact Hp. rewrite window_length. split.
  - intros Hfit. rewrite Nat.min_l by lia. now rewrite Nat.eqb_refl.
  - intros Hshort. rewrite Nat.min_r by lia.
    destruct (Nat.eqb_spec (List.length d - Z.to_nat p) w); [lia|reflexivity].
Qed.

(** X2: with a non-negative position, [qword], [dword] and [short] (widths
    8, 4 and 2) return the value of the next [w] bytes in the byte order
    asked for and advance the position by [w] when at least [w] bytes
    remain; with fewer bytes left they raise [struct.error]. *)
Theorem structhelper_read_uint (w : nat) (self : Structhelper.t) (big : bool) :
  (0 < w)%nat ->
  0 <= Structhelper.pos self ->
  let p := Structhelper.pos self in
  let d := Structhelper.data self in
  (p + Z.of_nat w <= Z.of_nat (List.length d) ->
   Structhelper.read_uint w self big
   = Ok (from_bytes (firstn w (skipn (Z.to_nat p) d)) (StructN.order big),
         Structhelper.mk (p + Z.of_nat w) d))
  /\ (Z.of_nat (List.length d) < p + Z.of_nat w ->
      Structhelper.read_uint w self big = Raise StructError)
  /\ Structhelper.qword = Structhelper.read_uint 8
  /\ Structhelper.dword = Structhelper.read_uint 4
  /\ Structhelper.short = Structhelper.read_uint 2.
Proof.
  intros Hw Hp p d.
  destruct (read_uint_cases w self big Hw Hp) as [Hfit Hshort].
  split; [exact Hfit|]. split; [exact Hshort|]. repeat split.
Qed.

Lemma structhelper_read_uint_witness :
  Structhelper.dword (Structhelper.mk 1 [x00; x78; x56; x34; x12]) false
  = Ok (0x12345678, Structhelper.mk 5 [x00; x78; x56; x34; x12])
  /\ Structhelper.dword (Structhelper.mk 2 [x00; x78; x56; x34; x12]) false
     = Raise StructError.
Proof.
  destruct (structhelper_read_uint 4
              (Structhelper.mk 1 [x00; x78; x56; x34; x12]) false)
    as (Hfit & _); [lia|simpl; lia|].
  destruct (structhelper_read_uint 4
              (Structhelper.mk 2 [x00; x78; x56; x34; x12]) false)
    as (_ & Hshort & _); [lia|simpl; lia|].
  split.
  - exact (Hfit ltac:(simpl; lia)).
  - exact (Hshort ltac:(simpl; lia)).
Defined.

(** X3: what [struct.pack("<I", v)] wrote, [dword] reads back, and the
    constructor ignores its [pos] argument.  Whatever [pos] the constructor
    is given, the new object is at position 0, so that [dword] reads the
    four bytes at the start of the buffer and moves to position 4; in a
    buffer that holds the four bytes of [v] after any prefix, [dword] after
    a [seek] to the end of the prefix returns [v] and moves the position
    past them. *)
Theorem structhelper_dword_reads_pack (pre post : bytes) (v p0 : Z) :
  0 <= v < 2 ^ 32 ->
  exists b,
    Struct.pack_I v = Ok b
    /\ Structhelper.getpos (Structhelper.init (b ++ post) p0) = 0
    /\ Structhelper.dword (Structhelper.init (b ++ post) p0) false
       = Ok (v, Structhelper.mk 4 (b ++ post)%list)
    /\ let buffer := (pre ++ b ++ post)%list in
       let at_pre := Z.of_nat (List.length pre) in
       Structhelper.dword
         (Structhelper.seek (Structhelper.init buffer p0) at_pre) false
       = Ok (v, Structhelper.mk (at_pre + 4) buffer).
Proof.
  intros Hv. exists (Struct.le_bytes 4 v).
  split; [apply pack_uint_range; simpl; lia|].
  assert (Hread : forall pre' : bytes,
            let buffer := (pre' ++ Struct.le_bytes 4 v ++ post)%list in
            let at_pre := Z.of_nat (List.length pre') in
            Structhelper.dword
              (Structhelper.seek (Structhelper.init buffer p0) at_pre) false
            = Ok (v, Structhelper.mk (at_pre + 4) buffer)).
  { intros pre' buffer at_pre.
    destruct (read_uint_cases 4
                (Structhelper.seek (Structhelper.init buffer p0) at_pre) false)
      as (Hfit & _); [lia|simpl; lia|].
    unfold Structhelper.dword. rewrite Hfit.
    - cbn [Structhelper.seek Structhelper.init Structhelper.pos
           Structhelper.data StructN.order from_bytes].
      unfold at_pre. rewrite Nat2Z.id. unfold buffer.
      rewrite skipn_app, skipn_all, Nat.sub_diag. cbn [app skipn].
      rewrite firstn_app, le_bytes_length, Nat.sub_diag.
      rewrite firstn_all2 by (rewrite le_bytes_length; lia).
      cbn [firstn]. rewrite app_nil_r.
      rewrite le_value_le_bytes by (simpl; lia). reflexivity.
    - cbn [Structhelper.seek Structhelper.init Structhelper.pos
           Structhelper.data].
      unfold buffer, at_pre. rewrite !length_app, le_bytes_length. lia. }
  split; [reflexivity|]. split; [exact (Hread [])|exact (Hread pre)].
Qed.

Lemma structhelper_dword_reads_pack_witness :
  exists b,
    Struct.pack_I 0xCAFEBABE = Ok b
    /\ Structhelper.getpos (Structhelper.init (b ++ [x03]) 7) = 0
    /\ Structhelper.dword (Structhelper.init (b ++ [x03]) 7) false
       = Ok (0xCAFEBABE, Structhelper.mk 4 (b ++ [x03])%list)
    /\ Structhelper.dword
         (Structhelper.seek (Structhelper.init ([x01; x02] ++ b ++ [x03]) 7) 2)
         false
       = Ok (0xCAFEBABE, Structhelper.mk 6 ([x01; x02] ++ b ++ [x03])).
Proof.
  exact (structhelper_dword_reads_pack [x01; x02] [x03] 0xCAFEBABE 7
           ltac:(lia)).
Defined.

Lemma from_bytes_app (a b : bytes) (e : endian) :
  from_bytes (a ++ b) e
  = match e with
    | Little =>
        from_bytes a e + 2 ^ (8 * Z.of_nat (List.length a)) * from_bytes b e
    | Big =>
        2 ^ (8 * Z.of_nat (List.length b)) * from_bytes a e + from_bytes b e
    end.
Proof.
  destruct e; cbn [from_bytes].
  - apply le_value_app.
  - rewrite rev_app_distr, le_value_app, length_rev. lia.
Qed.

(** Slices at any position, negative ones included. *)
Lemma clamp_index_le (i : Z) (len : nat) : (clamp_index i len <= len)%nat.
Proof. unfold clamp_index. destruct (Z.ltb_spec i 0); lia. Qed.

Lemma pyslice_length (a b : Z) (data : bytes) :
  List.length (pyslice a b data)
  = (clamp_index b (List.length data) - clamp_index a (List.length data))%nat.
Proof.
  unfold pyslice. rewrite window_length.
  pose proof (clamp_index_le b (List.length data)). lia.
Qed.

Lemma pyslice_split (a m b : Z) (data : bytes) :
  (clamp_index a (List.length data) <= clamp_index m (List.length data))%nat ->
  (clamp_index m (List.length data) <= clamp_index b (List.length data))%nat ->
  pyslice a b data = (pyslice a m data ++ pyslice m b data)%list.
Proof.
  intros H1 H2. unfold pyslice.
  set (ca := clamp_index a (List.length data)) in *.
  set (cm := clamp_index m (List.length data)) in *.
  set (cb := clamp_index b (List.length data)) in *.
  replace (cb - ca)%nat with ((cm - ca) + (cb - cm))%nat by lia.
  rewrite firstn_add_split, skipn_skipn.
  replace (cm - ca + ca)%nat with cm by lia. reflexivity.
Qed.

(** A slice [data[p:p + v + w]] of full length lies inside the buffer, and
    so does its cut after [v] bytes. *)
Lemma clamp_index_window (p : Z) (v w len : nat) :
  (0 < w)%nat ->
  (clamp_index (p + Z.of_nat (v + w)) len - clamp_index p len = v + w)%nat ->
  clamp_index (p + Z.of_nat v) len = (clamp_index p len + v)%nat.
Proof.
  unfold clamp_index. intros Hw H.
  destruct (Z.ltb_spec p 0); destruct (Z.ltb_spec (p + Z.of_nat (v + w)) 0);
    destruct (Z.ltb_spec (p + Z.of_nat v) 0); lia.
Qed.

(** X4: one [dword] is two [short]s, at any position, negative ones
    included: whenever [dword] returns, two consecutive [short] reads in the
    same byte order return its two halves (low half first for little-endian,
    high half first for big-endian) and end at the same position. *)
Theorem structhelper_dword_two_shorts (self s' : Structhelper.t) (big : bool)
    (v : Z) :
  Structhelper.dword self big = Ok (v, s') ->
  exists x y s1,
    Structhelper.short self big = Ok (x, s1)
    /\ Structhelper.short s1 big = Ok (y, s')
    /\ 0 <= x < 2 ^ 16 /\ 0 <= y < 2 ^ 16
    /\ v = if big then 2 ^ 16 * x + y else x + 2 ^ 16 * y.
Proof.
  intros Hd.
  set (p := Structhelper.pos self). set (d := Structhelper.data self).
  unfold Structhelper.dword, Structhelper.read_uint, StructN.unpack_1 in Hd.
  fold p d in Hd.
  destruct (Nat.eqb_spec (List.length (pyslice p (p + Z.of_nat 4) d)) 4)
    as [Hlen|]; [|discriminate].
  cbn [bind] in Hd.
  assert (Ev : v = from_bytes (pyslice p (p + Z.of_nat 4) d)
                     (StructN.order big)) by congruence.
  assert (Es : s' = Structhelper.mk (p + Z.of_nat 4) d) by congruence.
  clear Hd. subst v s'.
  rewrite pyslice_length in Hlen.
  pose proof (clamp_index_window p 2 2 (List.length d) ltac:(lia) Hlen) as Hmid.
  assert (Hsplit : pyslice p (p + Z.of_nat 4) d
                   = (pyslice p (p + Z.of_nat 2) d
                      ++ pyslice (p + Z.of_nat 2) (p + Z.of_nat 4) d)%list)
    by (apply pyslice_split; lia).
  assert (Hl1 : List.length (pyslice p (p + Z.of_nat 2) d) = 2%nat)
    by (rewrite pyslice_length; lia).
  assert (Hl2 : List.length (pyslice (p + Z.of_nat 2) (p + Z.of_nat 4) d)
                = 2%nat) by (rewrite pyslice_length; lia).
  assert (Hr : forall b e, List.length b = 2%nat -> 0 <= from_bytes b e < 2 ^ 16).
  { intros b e Hb2. destruct e; cbn [from_bytes].
    - pose proof (le_value_range b) as R. rewrite Hb2 in R. exact R.
    - pose proof (le_value_range (rev b)) as R.
      rewrite length_rev, Hb2 in R. exact R. }
  exists (from_bytes (pyslice p (p + Z.of_nat 2) d) (StructN.order big)),
    (from_bytes (pyslice (p + Z.of_nat 2) (p + Z.of_nat 4) d)
       (StructN.order big)),
    (Structhelper.mk (p + Z.of_nat 2) d).
  split.
  { unfold Structhelper.short, Structhelper.read_uint, StructN.unpack_1.
    fold p d. rewrite Hl1. reflexivity. }
  split.
  { unfold Structhelper.short, Structhelper.read_uint, StructN.unpack_1.
    cbn [Structhelper.pos Structhelper.data].
    replace (p + Z.of_nat 2 + Z.of_nat 2) with (p + Z.of_nat 4) by lia.
    rewrite Hl2. reflexivity. }
  split; [now apply Hr|]. split; [now apply Hr|].
  rewrite Hsplit, from_bytes_app, Hl1, Hl2. change (8 * Z.of_nat 2) with 16.
  destruct big; cbn [StructN.order]; reflexivity.
Qed.

Lemma structhelper_dword_two_shorts_witness :
  exists x y s1,
    Structhelper.short (Structhelper.mk (-5) [x78; x56; x34; x12; x00]) false
    = Ok (x, s1)
    /\ Structhelper.short s1 false
       = Ok (y, Structhelper.mk (-1) [x78; x56; x34; x12; x00])
    /\ 0x12345678 = x + 2 ^ 16 * y.
Proof.
  destruct (structhelper_dword_two_shorts
              (Structhelper.mk (-5) [x78; x56; x34; x12; x00])
              (Structhelper.mk (-1) [x78; x56; x34; x12; x00])
              false 0x12345678)
    as (x & y & s1 & H1 & H2 & _ & _ & H3).
  - vm_compute. reflexivity.
  - exists x, y, s1. repeat split; assumption.
Defined.

(** X5: a big-endian [dword] is the little-endian one with its bytes
    swapped: whenever [dword()] returns [v], [dword(big=True)] at the same
    position returns [revdword(v)] and ends at the same position. *)
Theorem structhelper_dword_big_is_revdword (self s' : Structhelper.t) (v : Z) :
  Structhelper.dword self false = Ok (v, s') ->
  exists w, revdword v = Ok w /\ Structhelper.dword self true = Ok (w, s').
Proof.
  unfold Structhelper.dword, Structhelper.read_uint, StructN.unpack_1.
  cbn [StructN.order].
  set (dat := pyslice _ _ _).
  destruct (Nat.eqb_spec (List.length dat) 4) as [Hlen|]; [|discriminate].
  cbn [bind from_bytes]. intros H; injection H as <- <-.
  exists (Struct.le_value (rev dat)). split; [|reflexivity].
  pose proof (le_value_range dat) as Hr. rewrite Hlen in Hr.
  rewrite revdword_value by exact Hr. f_equal.
  rewrite <- Hlen. now rewrite le_bytes_le_value.
Qed.

Lemma structhelper_dword_big_is_revdword_witness :
  exists w,
    revdword 0x12345678 = Ok w
    /\ Structhelper.dword (Structhelper.mk 0 [x78; x56; x34; x12]) true
       = Ok (w, Structhelper.mk 4 [x78; x56; x34; x12]).
Proof.
  apply (structhelper_dword_big_is_revdword
           (Structhelper.mk 0 [x78; x56; x34; x12])).
  vm_compute. reflexivity.
Defined.

(** X6: at or past the end of the data (with a non-negative position)
    [bytes] returns the empty bytes object and leaves the position where it
    is, whatever length is asked for, while [string] returns the empty
    bytes object and still adds the length to the position. *)
Theorem structhelper_bytes_string_at_end (self : Structhelper.t) (rlen : Z) :
  Z.of_nat (List.length (Structhelper.data self)) <= Structhelper.pos self ->
  Structhelper.bytes self rlen = (PyBytes [], self)
  /\ Structhelper.string self rlen
     = ([], Structhelper.mk (Structhelper.pos self + rlen)
              (Structhelper.data self)).
Proof.
  intros Hend.
  assert (Hs : pyslice (Structhelper.pos self) (Structhelper.pos self + rlen)
                 (Structhelper.data self) = []).
  { unfold pyslice.
    assert (Hlo : clamp_index (Structhelper.pos self)
                    (List.length (Structhelper.data self))
                  = List.length (Structhelper.data self)).
    { unfold clamp_index. destruct (Z.ltb_spec (Structhelper.pos self) 0); lia. }
    rewrite Hlo, skipn_all. apply firstn_nil. }
  unfold Structhelper.bytes, Structhelper.string. rewrite Hs. split; reflexivity.
Qed.

Lemma structhelper_bytes_string_at_end_witness :
  Structhelper.bytes (Structhelper.mk 3 [x01; x02; x03]) 2
  = (PyBytes [], Structhelper.mk 3 [x01; x02; x03])
  /\ Structhelper.string (Structhelper.mk 3 [x01; x02; x03]) 2
     = ([], Structhelper.mk 5 [x01; x02; x03]).
Proof.
  apply (structhelper_bytes_string_at_end (Structhelper.mk 3 [x01; x02; x03]) 2).
  simpl. lia.
Defined.

(** X7: consecutive [string] reads split a longer one: for a non-negative
    position and lengths, [string(n)] followed by [string(m)] returns the
    two parts of what [string(n + m)] returns and ends at the same
    position. *)
Theorem structhelper_string_compose (self : Structhelper.t) (n m : Z) :
  0 <= Structhelper.pos self -> 0 <= n -> 0 <= m ->
  let (a, s1) := Structhelper.string self n in
  let (b, s2) := Structhelper.string s1 m in
  Structhelper.string self (n + m) = ((a ++ b)%list, s2).
Proof.
  intros Hp Hn Hm. unfold Structhelper.string.
  cbn [Structhelper.pos Structhelper.data].
  set (p := Structhelper.pos self) in *. set (d := Structhelper.data self).
  f_equal; [|f_equal; lia].
  rewrite !pyslice_nonneg by lia.
  replace (Z.to_nat (p + (n + m)) - Z.to_nat p)%nat
    with (Z.to_nat n + Z.to_nat m)%nat by lia.
  rewrite firstn_add_split. f_equal; [f_equal; lia|].
  rewrite skipn_skipn. f_equal; [lia|f_equal; lia].
Qed.

Lemma structhelper_string_compose_witness :
  Structhelper.string (Structhelper.mk 1 [x01; x02; x03; x04; x05]) (2 + 1)
  = ([x02; x03] ++ [x04], Structhelper.mk 4 [x01; x02; x03; x04; x05])%list.
Proof.
  exact (structhelper_string_compose
           (Structhelper.mk 1 [x01; x02; x03; x04; x05]) 2 1
           ltac:(simpl; lia) ltac:(lia) ltac:(lia)).
Defined.

(** ** [StructhelperIo] *)

Lemma from_bytes_nonneg (b : bytes) (e : endian) : 0 <= from_bytes b e.
Proof.
  destruct e; cbn [from_bytes];
    [apply (le_value_range b)|apply (le_value_range (rev b))].
Qed.

(** A read of [w >= 0] bytes with at least [w] bytes left. *)
Lemma bytesio_read_fits (d : bytes) (k w : nat) :
  (k + w <= List.length d)%nat ->
  BytesIO.read (BytesIO.mk d k) (Z.of_nat w)
  = (slice k (k + w) d, BytesIO.mk d (k + w)).
Proof.
  intros Hfit. unfold BytesIO.read, slice. cbn [BytesIO.cur BytesIO.buf].
  destruct (Z.ltb_spec (Z.of_nat w) 0); [lia|]. rewrite Nat2Z.id.
  replace (k + w - k)%nat with w by lia.
  rewrite window_length. now rewrite Nat.min_l by lia.
Qed.

(** A read of more bytes than are left. *)
Lemma bytesio_read_short (d : bytes) (k w : nat) :
  (List.length d < k + w)%nat ->
  BytesIO.read (BytesIO.mk d k) (Z.of_nat w)
  = (skipn k d, BytesIO.mk d (k + (List.length d - k))).
Proof.
  intros Hshort. unfold BytesIO.read. cbn [BytesIO.cur BytesIO.buf].
  destruct (Z.ltb_spec (Z.of_nat w) 0); [lia|]. rewrite Nat2Z.id.
  rewrite firstn_all2 by (rewrite length_skipn; lia).
  now rewrite length_skipn.
Qed.

(** X8: on the same buffer and position, [StructhelperIo] and [Structhelper]
    read the same integer and advance alike when at least [w] bytes are
    left; with fewer bytes left [Structhelper] raises [struct.error], while
    [StructhelperIo] raises nothing: it returns the value of the bytes that
    are left (0 when none is) and stops at the end of the buffer. *)
Theorem structhelperio_agrees_with_structhelper (d : bytes) (k w : nat)
    (big : bool) (q : Z) :
  (0 < w)%nat ->
  let e := StructN.order big in
  let sh := Structhelper.mk (Z.of_nat k) d in
  let io := StructhelperIo.mk q (BytesIO.mk d k) e in
  ((k + w <= List.length d)%nat ->
   exists v,
     Structhelper.read_uint w sh big
     = Ok (v, Structhelper.mk (Z.of_nat (k + w)) d)
     /\ StructhelperIo.read_int (Z.of_nat w) io
        = (v, StructhelperIo.mk q (BytesIO.mk d (k + w)) e))
  /\ ((List.length d < k + w)%nat ->
      Structhelper.read_uint w sh big = Raise StructError
      /\ StructhelperIo.read_int (Z.of_nat w) io
         = (from_bytes (skipn k d) e,
            StructhelperIo.mk q (BytesIO.mk d (Nat.max k (List.length d))) e)).
Proof.
  intros Hw e sh io.
  destruct (read_uint_cases w sh big Hw) as (Hfit & Hshort);
    [simpl; lia|].
  cbn [sh Structhelper.pos Structhelper.data] in Hfit, Hshort. split.
  - intros Hle. eexists. split.
    + rewrite Hfit by lia. do 3 f_equal. lia.
    + unfold StructhelperIo.read_int, io.
      cbn [StructhelperIo.data StructhelperIo.pos StructhelperIo.direction].
      rewrite bytesio_read_fits by exact Hle. unfold slice.
      rewrite Nat2Z.id. replace (k + w - k)%nat with w by lia. reflexivity.
  - intros Hlt. split; [apply Hshort; lia|].
    unfold StructhelperIo.read_int, io.
    cbn [StructhelperIo.data StructhelperIo.pos StructhelperIo.direction].
    rewrite bytesio_read_short by exact Hlt. do 3 f_equal. lia.
Qed.

Lemma structhelperio_agrees_with_structhelper_witness :
  Structhelper.read_uint 4 (Structhelper.mk 1 [x01; x02; x03]) false
  = Raise StructError
  /\ StructhelperIo.read_int 4
       (StructhelperIo.mk 0 (BytesIO.mk [x01; x02; x03] 1) Little)
     = (0x0302, StructhelperIo.mk 0 (BytesIO.mk [x01; x02; x03] 3) Little).
Proof.
  exact (proj2 (structhelperio_agrees_with_structhelper [x01; x02; x03] 1 4
                  false 0 ltac:(lia)) ltac:(simpl; lia)).
Defined.

Lemma io_read_int_fits (q : Z) (e : endian) (d : bytes) (k w : nat) :
  (k + w <= List.length d)%nat ->
  StructhelperIo.read_int (Z.of_nat w) (StructhelperIo.mk q (BytesIO.mk d k) e)
  = (from_bytes (slice k (k + w) d) e,
     StructhelperIo.mk q (BytesIO.mk d (k + w)) e).
Proof.
  intros Hfit. unfold StructhelperIo.read_int.
  cbn [StructhelperIo.data StructhelperIo.pos StructhelperIo.direction].
  now rewrite bytesio_read_fits by exact Hfit.
Qed.

Lemma slice_one (d : bytes) (k : nat) :
  (k < List.length d)%nat -> slice k (k + 1) d = [nth k d x00].
Proof.
  unfold slice. replace (k + 1 - k)%nat with 1%nat by lia.
  revert d; induction k as [|k IH]; intros [|x d] Hk;
    cbn [List.length] in Hk; try lia.
  - reflexivity.
  - cbn [skipn nth]. apply IH. lia.
Qed.

Lemma io_bytes_one (q : Z) (e : endian) (d : bytes) (k : nat) :
  (k < List.length d)%nat ->
  StructhelperIo.bytes (StructhelperIo.mk q (BytesIO.mk d k) e) 1
  = (PyInt (Struct.Z_of_byte (nth k d x00)),
     StructhelperIo.mk q (BytesIO.mk d (k + 1)) e).
Proof.
  intros Hk. unfold StructhelperIo.bytes.
  cbn [StructhelperIo.data StructhelperIo.pos StructhelperIo.direction].
  change 1 with (Z.of_nat 1) at 1.
  rewrite bytesio_read_fits by lia. now rewrite slice_one by exact Hk.
Qed.

Lemma io_bytes_fits (q : Z) (e : endian) (d : bytes) (k w : nat) :
  (2 <= w)%nat -> (k + w <= List.length d)%nat ->
  StructhelperIo.bytes (StructhelperIo.mk q (BytesIO.mk d k) e) (Z.of_nat w)
  = (PyBytes (slice k (k + w) d), StructhelperIo.mk q (BytesIO.mk d (k + w)) e).
Proof.
  intros Hw Hfit. unfold StructhelperIo.bytes.
  cbn [StructhelperIo.data StructhelperIo.pos StructhelperIo.direction].
  rewrite bytesio_read_fits by exact Hfit.
  destruct (slice k (k + w) d) as [|b rest] eqn:E; [reflexivity|].
  destruct (Z.eqb_spec (Z.of_nat w) 1); [lia|reflexivity].
Qed.

Lemma io_read_int_keeps (w : Z) (sh sh' : StructhelperIo.t) (v : Z) :
  StructhelperIo.read_int w sh = (v, sh') ->
  0 <= v
  /\ BytesIO.buf (StructhelperIo.data sh') = BytesIO.buf (StructhelperIo.data sh)
  /\ StructhelperIo.direction sh' = StructhelperIo.direction sh.
Proof.
  unfold StructhelperIo.read_int, BytesIO.read. intros H.
  injection H as <- <-. cbn. split; [apply from_bytes_nonneg|]. now split.
Qed.

Lemma io_bytes_keeps (w : Z) (sh sh' : StructhelperIo.t) (v : pyvalue) :
  StructhelperIo.bytes sh w = (v, sh') ->
  BytesIO.buf (StructhelperIo.data sh') = BytesIO.buf (StructhelperIo.data sh)
  /\ StructhelperIo.direction sh' = StructhelperIo.direction sh.
Proof.
  unfold StructhelperIo.bytes, BytesIO.read.
  destruct (if w <? 0 then _ else _) as [|b rest];
    [|destruct (w =? 1)]; intros H; injection H as _ <-; cbn; now split.
Qed.

(** ** [MTKTee.parse] *)

(** X9: [MTKTee.parse] raises on no input, however short; the payload it
    stores is the [datalen] bytes of the input that start at [hdrlen]
    (clamped to the input), except that for [datalen == 1] the one byte read
    comes back as an integer and [bytearray] turns it into that many zero
    bytes. *)
Theorem mtktee_parse_payload (data : bytes) :
  exists r,
    MTKTee.parse data = Some r
    /\ 0 <= MTKTee.hdrlen r /\ 0 <= MTKTee.datalen r
    /\ (MTKTee.datalen r <> 1 ->
        MTKTee.data r
        = firstn (Z.to_nat (MTKTee.datalen r))
            (skipn (Z.to_nat (MTKTee.hdrlen r)) data))
    /\ (MTKTee.datalen r = 1 ->
        MTKTee.data r
        = match nth_error data (Z.to_nat (MTKTee.hdrlen r)) with
          | Some b => repeat x00 (Z.to_nat (Struct.Z_of_byte b))
          | None => []
          end).
Proof.
  unfold MTKTee.parse.
  set (sh0 := StructhelperIo.init (BytesIO.init data) Little).
  assert (I0 : BytesIO.buf (StructhelperIo.data sh0) = data) by reflexivity.
  destruct (StructhelperIo.qword sh0) as [magic sh1] eqn:E1.
  apply io_read_int_keeps in E1. destruct E1 as (_ & B1 & _).
  destruct (StructhelperIo.dword sh1) as [hdrlen sh2] eqn:E2.
  apply io_read_int_keeps in E2. destruct E2 as (Hh & B2 & _).
  destruct (StructhelperIo.bytes sh2 1) as [flag1 sh3] eqn:E3.
  apply io_bytes_keeps in E3. destruct E3 as (B3 & _).
  destruct (StructhelperIo.bytes sh3 1) as [flag2 sh4] eqn:E4.
  apply io_bytes_keeps in E4. destruct E4 as (B4 & _).
  destruct (StructhelperIo.bytes sh4 1) as [flag3 sh5] eqn:E5.
  apply io_bytes_keeps in E5. destruct E5 as (B5 & _).
  destruct (StructhelperIo.bytes sh5 1) as [flag4 sh6] eqn:E6.
  apply io_bytes_keeps in E6. destruct E6 as (B6 & _).
  destruct (StructhelperIo.dword sh6) as [flag5 sh7] eqn:E7.
  apply io_read_int_keeps in E7. destruct E7 as (_ & B7 & _).
  destruct (StructhelperIo.dword sh7) as [datalen sh8] eqn:E8.
  apply io_read_int_keeps in E8. destruct E8 as (Hd & B8 & _).
  destruct (StructhelperIo.dword sh8) as [datalen2 sh9] eqn:E9.
  apply io_read_int_keeps in E9. destruct E9 as (_ & B9 & _).
  destruct (StructhelperIo.bytes sh9 16) as [keyseed sh10] eqn:E10.
  apply io_bytes_keeps in E10. destruct E10 as (B10 & _).
  destruct (StructhelperIo.bytes sh10 16) as [ivseed sh11] eqn:E11.
  apply io_bytes_keeps in E11. destruct E11 as (B11 & _).
  assert (Hbuf : BytesIO.buf (StructhelperIo.data sh11) = data) by congruence.
  unfold StructhelperIo.seek, BytesIO.seek.
  destruct (Z.ltb_spec hdrlen 0) as [|_]; [lia|]. rewrite Hbuf.
  unfold StructhelperIo.bytes, BytesIO.read.
  cbn [StructhelperIo.data StructhelperIo.pos StructhelperIo.direction
       BytesIO.buf BytesIO.cur].
  destruct (Z.ltb_spec datalen 0) as [|_]; [lia|].
  assert (Hnth : datalen = 1 ->
            firstn (Z.to_nat datalen) (skipn (Z.to_nat hdrlen) data)
            = match nth_error data (Z.to_nat hdrlen) with
              | Some b => [b]
              | None => []
              end).
  { intros ->. change (Z.to_nat 1) with 1%nat.
    generalize (Z.to_nat hdrlen) as k. clear. intros k. revert data.
    induction k as [|k IH]; intros [|x d]; try reflexivity.
    cbn [skipn nth_error]. apply IH. }
  destruct (firstn (Z.to_nat datalen) (skipn (Z.to_nat hdrlen) data))
    as [|b rest] eqn:Edat.
  - eexists. split; [reflexivity|].
    cbn [MTKTee.hdrlen MTKTee.datalen MTKTee.data bytearray].
    split; [exact Hh|]. split; [exact Hd|]. split.
    + intros _. now rewrite Edat.
    + intros E. specialize (Hnth E).
      destruct (nth_error data (Z.to_nat hdrlen)); [discriminate|reflexivity].
  - destruct (Z.eqb_spec datalen 1) as [E|NE].
    + eexists. split; [reflexivity|].
      cbn [MTKTee.hdrlen MTKTee.datalen MTKTee.data bytearray].
      split; [exact Hh|]. split; [exact Hd|]. split; [intros C; contradiction|].
      intros _. specialize (Hnth E).
      destruct (nth_error data (Z.to_nat hdrlen)); [|discriminate].
      now injection Hnth as -> _.
    + eexists. split; [reflexivity|].
      cbn [MTKTee.hdrlen MTKTee.datalen MTKTee.data bytearray].
      split; [exact Hh|]. split; [exact Hd|]. split; [now rewrite Edat|].
      intros C; contradiction.
Qed.

(** Rewrite with the equation of one read, its numerals evaluated, and let
    the pattern on its result reduce. *)
Ltac read_step lem :=
  let E := fresh "E" in
  pose proof lem as E;
  cbn [Z.of_nat Pos.of_succ_nat Pos.succ Nat.add] in E;
  rewrite E; clear E; cbv beta iota.

(** X10: for an input of at least 60 bytes [MTKTee.parse] reads the header
    at fixed offsets, little-endian: magic (8 bytes at 0), hdrlen (4 at 8),
    four one-byte flags (12 to 15, each as an integer), flag5 (4 at 16),
    datalen (4 at 20), datalen2 (4 at 24), keyseed (16 at 28) and ivseed
    (16 at 44). *)
Theorem mtktee_parse_header (data : bytes) (r : MTKTee.t) :
  (60 <= List.length data)%nat ->
  MTKTee.parse data = Some r ->
  MTKTee.magic r = Struct.le_value (slice 0 8 data)
  /\ MTKTee.hdrlen r = Struct.le_value (slice 8 12 data)
  /\ MTKTee.flag1 r = PyInt (Struct.Z_of_byte (nth 12 data x00))
  /\ MTKTee.flag2 r = PyInt (Struct.Z_of_byte (nth 13 data x00))
  /\ MTKTee.flag3 r = PyInt (Struct.Z_of_byte (nth 14 data x00))
  /\ MTKTee.flag4 r = PyInt (Struct.Z_of_byte (nth 15 data x00))
  /\ MTKTee.flag5 r = Struct.le_value (slice 16 20 data)
  /\ MTKTee.datalen r = Struct.le_value (slice 20 24 data)
  /\ MTKTee.datalen2 r = Struct.le_value (slice 24 28 data)
  /\ MTKTee.keyseed r = slice 28 44 data
  /\ MTKTee.ivseed r = slice 44 60 data.
Proof.
  intros Hlen. unfold MTKTee.parse, StructhelperIo.init, BytesIO.init,
    StructhelperIo.qword, StructhelperIo.dword.
  read_step (io_read_int_fits 0 Little data 0 8 ltac:(lia)).
  read_step (io_read_int_fits 0 Little data 8 4 ltac:(lia)).
  read_step (io_bytes_one 0 Little data 12 ltac:(lia)).
  read_step (io_bytes_one 0 Little data 13 ltac:(lia)).
  read_step (io_bytes_one 0 Little data 14 ltac:(lia)).
  read_step (io_bytes_one 0 Little data 15 ltac:(lia)).
  read_step (io_read_int_fits 0 Little data 16 4 ltac:(lia)).
  read_step (io_read_int_fits 0 Little data 20 4 ltac:(lia)).
  read_step (io_read_int_fits 0 Little data 24 4 ltac:(lia)).
  read_step (io_bytes_fits 0 Little data 28 16 ltac:(lia) ltac:(lia)).
  read_step (io_bytes_fits 0 Little data 44 16 ltac:(lia) ltac:(lia)).
  destruct (StructhelperIo.seek _ _) as [sh|]; [|discriminate].
  destruct (StructhelperIo.bytes sh _) as [payload sh'].
  intros H. injection H as <-.
  cbn [MTKTee.magic MTKTee.hdrlen MTKTee.flag1 MTKTee.flag2 MTKTee.flag3
       MTKTee.flag4 MTKTee.flag5 MTKTee.datalen MTKTee.datalen2
       MTKTee.keyseed MTKTee.ivseed bytearray from_bytes].
  repeat split.
Qed.

Lemma mtktee_parse_header_witness :
  exists r,
    MTKTee.parse mtktee_sample = Some r
    /\ MTKTee.magic r = 0x4D544B544545 /\ MTKTee.hdrlen r = 60
    /\ MTKTee.datalen r = 2 /\ MTKTee.keyseed r = repeat x11 16.
Proof.
  eexists. split; [vm_compute; reflexivity|].
  match goal with
  | |- MTKTee.magic ?r = _ /\ _ =>
      destruct (mtktee_parse_header mtktee_sample r)
        as (Hm & Hh & _ & _ & _ & _ & _ & Hd & _ & Hk & _)
  end.
  - vm_compute. lia.
  - vm_compute. reflexivity.
  - rewrite Hm, Hh, Hd, Hk. repeat split; vm_compute; reflexivity.
Defined.

(** ** More on [ELF] *)

(** X11: the round trip in the other direction: when a segment [S] is the
    first in table order whose file range holds the file offset [f], the
    virtual address [S.virt_start_addr + f - S.file_start_addr] does not
    exceed [S.virt_end_addr], and [S] is also the first whose virtual range
    holds that address, then [getvirtaddr] followed by [getfileoffset]
    yields [f] again. *)
Theorem roundtrip_from_file_offset (self : ELF.t) (S : ELF.MemorySegment.t)
    (f : Z) :
  let v := ELF.MemorySegment.virt_start_addr S + f
           - ELF.MemorySegment.file_start_addr S in
  forall before after,
    ELF.memorylayout self = (before ++ S :: after)%list ->
    covers_file S f ->
    Forall (fun s => ~ covers_file s f) before ->
    v <= ELF.MemorySegment.virt_end_addr S ->
    Forall (fun s => ~ covers_virt s v) before ->
    ELF.getvirtaddr self f = Some v /\ ELF.getfileoffset self v = Some f.
Proof.
  intros v before after Hl Hf Hbf Hve Hbv. split.
  - unfold ELF.getvirtaddr. apply getvirtaddr_scan_first.
    exists before, after. split; [exact Hl|split; assumption].
  - unfold ELF.getfileoffset. rewrite (getfileoffset_scan_first v _ S).
    + f_equal. unfold v. lia.
    + exists before, after. split; [exact Hl|]. split; [exact Hbv|].
      unfold covers_file, covers_virt in *. unfold v in *. lia.
Qed.

Lemma roundtrip_from_file_offset_witness :
  exists self,
    ELF.init scenario_image "image" = (Ok self, [])
    /\ ELF.getvirtaddr self 0x50 = Some 0x1010
    /\ ELF.getfileoffset self 0x1010 = Some 0x50.
Proof.
  eexists. split; [vm_compute; reflexivity|].
  apply (roundtrip_from_file_offset _ scenario_segment 0x50 [] []).
  - vm_compute. reflexivity.
  - unfold covers_file; simpl; lia.
  - constructor.
  - simpl; lia.
  - constructor.
Defined.

(** X12: [getbaseaddr] and [getfileoffset] scan alike: one returns [None]
    exactly when the other does, and when [getbaseaddr] returns a base [b]
    for the address [o], then [b <= o], [b] is the start of a segment of the
    table whose end is not below [o], and [getfileoffset] returns
    [o - b] added to the file start of that segment. *)
Theorem getbaseaddr_getfileoffset (self : ELF.t) (o : Z) :
  (ELF.getbaseaddr self o = None <-> ELF.getfileoffset self o = None)
  /\ forall b, ELF.getbaseaddr self o = Some b ->
       b <= o
       /\ exists s, In s (ELF.memorylayout self)
            /\ ELF.MemorySegment.virt_start_addr s = b
            /\ o <= ELF.MemorySegment.virt_end_addr s
            /\ ELF.getfileoffset self o
               = Some (o - b + ELF.MemorySegment.file_start_addr s).
Proof.
  unfold ELF.getbaseaddr, ELF.getfileoffset.
  induction (ELF.memorylayout self) as [|s layout [IHn IHs]].
  - split; [tauto|]. intros b H. discriminate.
  - cbn [ELF.getbaseaddr_scan ELF.getfileoffset_scan].
    destruct (_ && _) eqn:E.
    + split; [split; discriminate|]. intros b H. injection H as <-.
      apply covers_virt_test in E. unfold covers_virt in E.
      split; [lia|]. exists s. split; [now left|]. repeat split. lia.
    + split; [exact IHn|]. intros b H.
      destruct (IHs b H) as (Hb & s' & Hin & Hrest).
      split; [exact Hb|]. exists s'. split; [now right|exact Hrest].
Qed.

(** ** [ELF.__init__] on truncated and on well-formed input *)

Lemma unpack_nonneg (widths : list nat) (dat : bytes) (v : list Z) :
  Struct.unpack widths dat = Ok v ->
  Forall (fun x => 0 <= x) v /\ List.length v = List.length widths.
Proof.
  unfold Struct.unpack. destruct (Nat.eqb _ _); [|discriminate].
  intros H; injection H as <-. clear. revert dat.
  induction widths as [|w ws IH]; intros dat; cbn [Struct.fields List.length].
  - split; [constructor|reflexivity].
  - destruct (IH (skipn w dat)) as [IH1 IH2]. split.
    + constructor; [apply (le_value_range (firstn w dat))|exact IH1].
    + now rewrite IH2.
Qed.

Lemma unpack_short (widths : list nat) (dat : bytes) :
  (List.length dat < Struct.calcsize widths)%nat ->
  Struct.unpack widths dat = Raise StructError.
Proof.
  intros H. unfold Struct.unpack.
  destruct (Nat.eqb_spec (List.length dat) (Struct.calcsize widths));
    [lia|reflexivity].
Qed.

Lemma zslice_length (a b : Z) (dat : bytes) :
  0 <= a -> List.length (ELF.zslice a b dat)
            = Nat.min (Z.to_nat b - Z.to_nat a) (List.length dat - Z.to_nat a).
Proof. intros _. unfold ELF.zslice, slice. apply window_length. Qed.

(** X13: on truncated input [ELF.__init__] raises and builds no object: an
    input of fewer than 5 bytes has no class byte and raises [IndexError];
    a 32-bit image shorter than 0x2e bytes, or a 64-bit image shorter than
    0x3a bytes, does not hold the size triplet and raises [struct.error].
    Nothing is printed on these paths. *)
Theorem elf_init_truncated (dat : bytes) (filename : string) :
  ((List.length dat < 5)%nat -> ELF.init dat filename = (Raise IndexError, []))
  /\ (forall c, nth_error dat 4 = Some c ->
        (Struct.Z_of_byte c = 1 /\ (List.length dat < 0x2e)%nat)
        \/ (Struct.Z_of_byte c = 2 /\ (List.length dat < 0x3a)%nat) ->
        ELF.init dat filename = (Raise StructError, [])).
Proof.
  split.
  - intros Hlen. unfold ELF.init, ELF.parse.
    assert (E : nth_error dat 4 = None) by (apply nth_error_None; lia).
    now rewrite E.
  - intros c Hc Hcase. unfold ELF.init, ELF.parse. rewrite Hc.
    destruct Hcase as [[E Hlen]|[E Hlen]]; rewrite E; cbn [Z.eqb Pos.eqb].
    + rewrite unpack_short; [reflexivity|].
      rewrite zslice_length by lia.
      change (Struct.calcsize [2; 2; 2]%nat) with 6%nat.
      change (Z.to_nat (0x28 + 3 * 2) - Z.to_nat 0x28)%nat with 6%nat.
      change (Z.to_nat 0x28) with 40%nat. change 0x2e%nat with 46%nat in Hlen.
      lia.
    + rewrite unpack_short; [reflexivity|].
      rewrite zslice_length by lia.
      change (Struct.calcsize [2; 2; 2]%nat) with 6%nat.
      change (Z.to_nat (0x34 + 3 * 2) - Z.to_nat 0x34)%nat with 6%nat.
      change (Z.to_nat 0x34) with 52%nat. change 0x3a%nat with 58%nat in Hlen.
      lia.
Qed.

Lemma elf_init_truncated_witness :
  ELF.init [x7f; x45; x4c; x46] "short" = (Raise IndexError, [])
  /\ ELF.init [x7f; x45; x4c; x46; x01; x01] "short" = (Raise StructError, []).
Proof.
  split.
  - apply (proj1 (elf_init_truncated [x7f; x45; x4c; x46] "short")).
    simpl. lia.
  - apply (proj2 (elf_init_truncated [x7f; x45; x4c; x46; x01; x01] "short")
             x01 eq_refl).
    left. split; [reflexivity|simpl; lia].
Defined.

Lemma parse_programentry_unsigned (elfclass : Z) (dat : bytes)
    (pe : ELF.ProgramEntry.t) :
  ELF.parse_programentry elfclass dat = Ok pe -> unsigned_entry pe.
Proof.
  unfold ELF.parse_programentry.
  destruct (elfclass =? 1); [|destruct (elfclass =? 2)].
  - destruct (Struct.unpack _ dat) as [v| |] eqn:E; try discriminate.
    apply unpack_nonneg in E. destruct E as [Hv _]. cbn [bind].
    do 8 (destruct v as [|? v]; try discriminate).
    destruct v; [|discriminate]. intros H; injection H as <-.
    repeat match goal with
           | H : Forall _ (_ :: _) |- _ => inversion H; subst; clear H
           end.
    unfold unsigned_entry; cbn. repeat split; assumption.
  - destruct (Struct.unpack _ dat) as [v| |] eqn:E; try discriminate.
    apply unpack_nonneg in E. destruct E as [Hv _]. cbn [bind].
    do 8 (destruct v as [|? v]; try discriminate).
    destruct v; [|discriminate]. intros H; injection H as <-.
    repeat match goal with
           | H : Forall _ (_ :: _) |- _ => inversion H; subst; clear H
           end.
    unfold unsigned_entry; cbn. repeat split; assumption.
  - intros H; injection H as <-. unfold unsigned_entry; cbn. repeat split; lia.
Qed.

Lemma parse_entries_ok (dat : bytes) (elfclass elfheadersize entsize : Z)
    (range : list nat) (l : list ELF.ProgramEntry.t) :
  ELF.parse_entries dat elfclass elfheadersize entsize range = Ok l ->
  List.length l = List.length range /\ Forall unsigned_entry l.
Proof.
  revert l; induction range as [|i range IH]; intros l;
    cbn [ELF.parse_entries].
  - intros H; injection H as <-. split; [reflexivity|constructor].
  - destruct (ELF.parse_programentry _ _) as [pe| |] eqn:E; try discriminate.
    cbn [bind].
    destruct (ELF.parse_entries _ _ _ _ range) as [rest| |]; try discriminate.
    cbn [bind]. intros H; injection H as <-.
    destruct (IH rest eq_refl) as [IH1 IH2]. split.
    + cbn [List.length]. now rewrite IH1.
    + constructor; [exact (parse_programentry_unsigned _ _ _ E)|exact IH2].
Qed.

Lemma segment_of_wellformed (pe : ELF.ProgramEntry.t) :
  unsigned_entry pe -> wellformed_segment (ELF.segment_of pe).
Proof.
  unfold unsigned_entry, wellformed_segment, ELF.segment_of. cbn. lia.
Qed.

(** What [parse] returns when it returns. *)
Lemma parse_ok (dat : bytes) (filename : string) (cls : Z)
    (h : ELF.header_val) (p : ELF.pentry_val) (out : list string) :
  ELF.parse dat filename = (Ok (cls, (h, p)), out) ->
  (cls = 1 \/ cls = 2 ->
   out = []
   /\ exists elfheadersize entsize count l,
        let start := if cls =? 1 then 0x28 else 0x34 in
        Struct.unpack [2; 2; 2]%nat (ELF.zslice start (start + 3 * 2) dat)
        = Ok [elfheadersize; entsize; count]
        /\ p = ELF.PentryList l
        /\ List.length l = Z.to_nat count
        /\ Forall unsigned_entry l
        /\ h = ELF.HeaderBytes
                 (ELF.zslice 0 (elfheadersize + entsize * count) dat))
  /\ (cls <> 1 -> cls <> 2 -> p = ELF.PentryEmptyStr /\ h = ELF.HeaderEmptyStr).
Proof.
  unfold ELF.parse. destruct (nth_error dat 4) as [c|]; [|discriminate].
  cbv zeta.
  destruct (Z.eqb_spec (Struct.Z_of_byte c) 1) as [E1|N1];
    [|destruct (Z.eqb_spec (Struct.Z_of_byte c) 2) as [E2|N2]].
  - destruct (Struct.unpack _ _) as [v| |] eqn:Ev; cbn [bind]; try discriminate.
    destruct v as [|a [|b [|n [|? ?]]]]; try discriminate.
    destruct (ELF.parse_entries _ _ _ _ _) as [l| |] eqn:El;
      cbn [bind]; try discriminate.
    intros H; injection H as <- <- <- <-. apply parse_entries_ok in El.
    destruct El as [Hlen Hall]. rewrite length_seq in Hlen.
    split; [|intros C; contradiction]. intros _. split; [reflexivity|].
    exists a, b, n, l. rewrite E1. cbn [Z.eqb Pos.eqb]. repeat split; assumption.
  - destruct (Struct.unpack _ _) as [v| |] eqn:Ev; cbn [bind]; try discriminate.
    destruct v as [|a [|b [|n [|? ?]]]]; try discriminate.
    destruct (ELF.parse_entries _ _ _ _ _) as [l| |] eqn:El;
      cbn [bind]; try discriminate.
    intros H; injection H as <- <- <- <-. apply parse_entries_ok in El.
    destruct El as [Hlen Hall]. rewrite length_seq in Hlen.
    split; [|intros _ C; contradiction]. intros _. split; [reflexivity|].
    exists a, b, n, l. rewrite E2. cbn [Z.eqb Pos.eqb]. repeat split; assumption.
  - intros H; injection H as <- <- <- <-.
    split; [intros [C|C]; contradiction|]. intros _ _. now split.
Qed.

(** X14: every object [ELF.__init__] builds keeps the segment invariant:
    all addresses are unsigned, [virt_end_addr >= virt_start_addr] and
    [file_end_addr >= file_start_addr]; the table has one segment per
    program header entry, in order; and for a 32-bit or 64-bit image
    nothing is printed and the number of segments is the entry count read
    from the size triplet at 0x28 (32-bit) or 0x34 (64-bit). *)
Theorem elf_init_segments (dat : bytes) (filename : string) (self : ELF.t)
    (out : list string) :
  ELF.init dat filename = (Ok self, out) ->
  ELF.data self = dat
  /\ Forall wellformed_segment (ELF.memorylayout self)
  /\ ELF.memorylayout self
     = map ELF.segment_of (ELF.iterate (ELF.pentry self))
  /\ (ELF.elfclass self = 1 \/ ELF.elfclass self = 2 ->
      out = []
      /\ exists elfheadersize entsize count,
           let start := if ELF.elfclass self =? 1 then 0x28 else 0x34 in
           Struct.unpack [2; 2; 2]%nat (ELF.zslice start (start + 3 * 2) dat)
           = Ok [elfheadersize; entsize; count]
           /\ List.length (ELF.memorylayout self) = Z.to_nat count
           /\ ELF.header self
              = ELF.HeaderBytes
                  (ELF.zslice 0 (elfheadersize + entsize * count) dat)).
Proof.
  unfold ELF.init.
  destruct (ELF.parse dat filename) as [[[cls [h p]]|e|] o] eqn:Ep;
    cbn [bind]; try discriminate.
  intros H; injection H as <- <-.
  cbn [ELF.data ELF.memorylayout ELF.pentry ELF.elfclass ELF.header].
  destruct (parse_ok _ _ _ _ _ _ Ep) as [Hknown Hunknown].
  split; [reflexivity|]. split.
  - destruct (Z.eq_dec cls 1) as [E1|N1];
      [|destruct (Z.eq_dec cls 2) as [E2|N2]].
    + destruct Hknown as (_ & eh & es & n & l & _ & -> & _ & Hall & _);
        [now left|].
      apply Forall_map. eapply Forall_impl; [|exact Hall].
      intros pe. apply segment_of_wellformed.
    + destruct Hknown as (_ & eh & es & n & l & _ & -> & _ & Hall & _);
        [now right|].
      apply Forall_map. eapply Forall_impl; [|exact Hall].
      intros pe. apply segment_of_wellformed.
    + destruct (Hunknown N1 N2) as [-> _]. constructor.
  - split; [reflexivity|]. intros Hcls.
    destruct (Hknown Hcls) as (Ho & eh & es & n & l & Hu & -> & Hlen & _ & ->).
    split; [exact Ho|]. exists eh, es, n.
    split; [exact Hu|]. split; [|reflexivity].
    cbn [ELF.iterate]. now rewrite length_map.
Qed.

Lemma elf_init_segments_witness :
  exists self,
    ELF.init scenario_image "image" = (Ok self, [])
    /\ Forall wellformed_segment (ELF.memorylayout self)
    /\ List.length (ELF.memorylayout self) = 1%nat.
Proof.
  eexists. split; [vm_compute; reflexivity|].
  match goal with
  | |- Forall _ (ELF.memorylayout ?s) /\ _ =>
      destruct (elf_init_segments scenario_image "image" s [])
        as (_ & Hwf & _ & Hcount)
  end.
  - vm_compute. reflexivity.
  - split; [exact Hwf|]. reflexivity.
Defined.

Example find_binary_wildcard :
  find_binary [x00; x11; x22; x33; x11; x22; x44] [x11; x2e; x44] 0
  = Ok (Some 4)
  /\ find_binary [x00; x11; x22; x33; x11; x22; x44] [x11; x2e; x44] 5
     = Ok None
  /\ find_binary [x00; x11; x22; x33; x11; x22; x44] [x22; x2e] 3
     = Ok (Some 5).
Proof. repeat split; vm_compute; reflexivity. Qed.

(** ** [find_binary] *)

Lemma skipn_nth_error (data : bytes) (a : nat) :
  skipn a data = match nth_error data a with
                 | Some c => c :: skipn (S a) data
                 | None => []
                 end.
Proof.
  revert data; induction a as [|a IH]; intros [|x data]; try reflexivity.
  cbn [skipn nth_error]. apply IH.
Qed.

Lemma startswith_lit_match (data : bytes) (a : nat) (sub : bytes) :
  startswith sub (skipn a data) = true <-> lit_match data a sub.
Proof.
  revert a; induction sub as [|x sub IH]; intros a.
  - split; [|reflexivity]. intros _ [|j] c H; discriminate.
  - rewrite (skipn_nth_error data a).
    destruct (nth_error data a) as [y|] eqn:Ey; cbn [startswith].
    + rewrite andb_true_iff, IH. split.
      * intros [Hxy Hrest] [|j] c Hj.
        -- apply Byte.byte_dec_bl in Hxy. subst y.
           rewrite Nat.add_0_r. cbn in Hj. congruence.
        -- replace (a + S j)%nat with (S a + j)%nat by lia. now apply Hrest.
      * intros H. split.
        -- specialize (H 0%nat x eq_refl). rewrite Nat.add_0_r, Ey in H.
           injection H as ->. now apply Byte.byte_dec_lb.
        -- intros j c Hj. replace (S a + j)%nat with (a + S j)%nat by lia.
           now apply H.
    + split; [discriminate|]. intros H.
      specialize (H 0%nat x eq_refl). rewrite Nat.add_0_r, Ey in H. discriminate.
Qed.

Lemma slice_from_nat (n : nat) (data : bytes) :
  slice_from (Z.of_nat n) data = skipn n data.
Proof.
  unfold slice_from, clamp_index.
  destruct (Z.ltb_spec (Z.of_nat n) 0); [lia|]. rewrite Nat2Z.id.
  destruct (Nat.le_gt_cases n (List.length data)) as [Hle|Hgt].
  - now rewrite Nat.min_l by exact Hle.
  - rewrite Nat.min_r by lia. rewrite skipn_all.
    symmetry. apply skipn_all2. lia.
Qed.

(** What the scan of [find] returns. *)
Lemma find_scan_spec (sub s : bytes) (i : Z) :
  (find_scan sub s i = -1
   /\ forall k, (k <= List.length s)%nat -> startswith sub (skipn k s) = false)
  \/ (exists k,
        find_scan sub s i = i + Z.of_nat k /\ (k <= List.length s)%nat
        /\ startswith sub (skipn k s) = true
        /\ forall j, (j < k)%nat -> startswith sub (skipn j s) = false).
Proof.
  revert i; induction s as [|x s IH]; intros i; cbn [find_scan].
  - destruct (startswith sub []) eqn:E.
    + right. exists 0%nat. repeat split; try lia; try assumption.
    + left. split; [reflexivity|]. intros k Hk. cbn in Hk.
      replace k with 0%nat by lia. exact E.
  - destruct (startswith sub (x :: s)) eqn:E.
    + right. exists 0%nat. repeat split; try lia; try assumption.
    + destruct (IH (i + 1)) as [[Hr Hnone]|(k & Hr & Hk & Hocc & Hmin)].
      * left. split; [exact Hr|]. intros [|k] Hk; [exact E|].
        cbn [skipn]. apply Hnone. cbn in Hk. lia.
      * right. exists (S k). split; [rewrite Hr; lia|].
        split; [cbn; lia|]. split; [exact Hocc|].
        intros [|j] Hj; [exact E|]. cbn [skipn]. apply Hmin. lia.
Qed.

(** [find] from a non-negative start. *)
Lemma bytes_find_spec (s sub : bytes) (n : nat) :
  (bytes_find s sub (Z.of_nat n) = -1
   /\ forall k, (n <= k <= List.length s)%nat ->
                startswith sub (skipn k s) = false)
  \/ (exists k,
        bytes_find s sub (Z.of_nat n) = Z.of_nat k
        /\ (n <= k <= List.length s)%nat
        /\ startswith sub (skipn k s) = true
        /\ forall j, (n <= j < k)%nat -> startswith sub (skipn j s) = false).
Proof.
  unfold bytes_find.
  destruct (Z.ltb_spec (Z.of_nat (List.length s)) (Z.of_nat n)) as [Hgt|Hle].
  - left. split; [reflexivity|]. intros k Hk. lia.
  - assert (Hc : clamp_index (Z.of_nat n) (List.length s) = n).
    { unfold clamp_index. destruct (Z.ltb_spec (Z.of_nat n) 0); lia. }
    rewrite Hc.
    destruct (find_scan_spec sub (skipn n s) (Z.of_nat n))
      as [[Hr Hnone]|(k & Hr & Hk & Hocc & Hmin)].
    + left. split; [exact Hr|]. intros k Hk.
      specialize (Hnone (k - n)%nat). rewrite skipn_skipn in Hnone.
      replace (k - n + n)%nat with k in Hnone by lia.
      apply Hnone. rewrite length_skipn. lia.
    + right. exists (n + k)%nat. rewrite length_skipn in Hk.
      rewrite skipn_skipn in Hocc.
      split; [rewrite Hr; lia|]. split; [lia|].
      split; [now rewrite Nat.add_comm|].
      intros j Hj. specialize (Hmin (j - n)%nat ltac:(lia)).
      rewrite skipn_skipn in Hmin.
      now replace (j - n + n)%nat with j in Hmin by lia.
Qed.

Lemma bytes_find_0 (s sub : bytes) :
  (bytes_find s sub 0 =? 0) = startswith sub s.
Proof.
  destruct (bytes_find_spec s sub 0) as [[Hr Hnone]|(k & Hr & Hk & Hocc & Hmin)];
    change (Z.of_nat 0) with 0 in Hr; rewrite Hr.
  - specialize (Hnone 0%nat ltac:(lia)). cbn [skipn] in Hnone.
    now rewrite Hnone.
  - destruct k as [|k].
    + cbn [skipn] in Hocc. now rewrite Hocc.
    + specialize (Hmin 0%nat ltac:(lia)). cbn [skipn] in Hmin. rewrite Hmin.
      apply Z.eqb_neq. lia.
Qed.

Lemma bytes_eqb_nil (b : bytes) : bytes_eqb b [] = true <-> b = [].
Proof. apply bytes_eqb_eq. Qed.

(** The inner loop tests what [tail_ok] says. *)
Lemma pieces_match_spec (data : bytes) (base rt : Z) (a : nat)
    (pieces : list bytes) :
  base + rt = Z.of_nat a ->
  pieces_match data base rt pieces = true <-> tail_ok data a pieces.
Proof.
  revert rt a; induction pieces as [|ti pieces IH]; intros rt a Ha.
  - cbn. tauto.
  - cbn [pieces_match tail_ok].
    destruct (bytes_eqb ti []) eqn:Enil.
    + apply bytes_eqb_nil in Enil. subst ti. cbn [List.length].
      rewrite (IH (rt + 1) (a + 1 + 0)%nat) by lia. split.
      * intros H. split; [|exact H]. intros [|j] c Hj; discriminate.
      * now intros [_ H].
    + replace (base + (rt + 1)) with (Z.of_nat (a + 1)) by lia.
      rewrite slice_from_nat, bytes_find_0.
      destruct (startswith ti (skipn (a + 1) data)) eqn:Es; cbn [negb].
      * rewrite (IH _ (a + 1 + List.length ti)%nat) by lia.
        apply startswith_lit_match in Es. tauto.
      * split; [discriminate|]. intros [H _].
        apply startswith_lit_match in H. congruence.
Qed.

Lemma split_dot_cons (strf : bytes) :
  exists h t, split_dot strf = h :: t.
Proof.
  destruct strf as [|c strf]; cbn [split_dot]; [now eexists; eexists|].
  destruct (Byte.eqb c x2e); [now eexists; eexists|].
  destruct (split_dot strf); now eexists; eexists.
Qed.

(** The pieces of a pattern say what the pattern says. *)
Lemma matches_pieces (data strf : bytes) (a : nat) :
  matches data strf a
  <-> lit_match data a (hd [] (split_dot strf))
      /\ tail_ok data (a + List.length (hd [] (split_dot strf)))
           (tl (split_dot strf)).
Proof.
  revert a; induction strf as [|c strf IH]; intros a.
  - cbn. split.
    + intros _. split; [|exact I]. intros [|j] c H; discriminate.
    + intros _ [|j] c H; discriminate.
  - assert (Hshift : matches data (c :: strf) a
                     <-> (c <> x2e -> nth_error data a = Some c)
                         /\ matches data strf (a + 1)).
    { unfold matches. split.
      - intros H. split.
        + intros Hc. specialize (H 0%nat c eq_refl Hc).
          now rewrite Nat.add_0_r in H.
        + intros j c' Hj Hc'. specialize (H (S j) c' Hj Hc').
          now replace (a + 1 + j)%nat with (a + S j)%nat by lia.
      - intros [H0 Hrest] [|j] c' Hj Hc'.
        + cbn in Hj. injection Hj as <-. rewrite Nat.add_0_r. now apply H0.
        + replace (a + S j)%nat with (a + 1 + j)%nat by lia.
          now apply Hrest. }
    rewrite Hshift, (IH (a + 1)%nat). cbn [split_dot].
    destruct (split_dot_cons strf) as (h & t & Hs). rewrite Hs.
    destruct (Byte.eqb c x2e) eqn:Ec; cbn [hd tl List.length tail_ok].
    + apply Byte.byte_dec_bl in Ec. subst c. rewrite Nat.add_0_r. split.
      * intros [_ [H1 H2]]. split; [|now split].
        intros [|j] c H; discriminate.
      * intros [_ [H1 H2]]. split; [intros C; now elim C|now split].
    + assert (Hc : c <> x2e).
      { intros ->. cbn in Ec. discriminate. }
      replace (a + S (List.length h))%nat with (a + 1 + List.length h)%nat
        by lia.
      split.
      * intros [H0 [H1 H2]]. split; [|exact H2].
        intros [|j] c' Hj.
        -- cbn in Hj. injection Hj as <-. rewrite Nat.add_0_r. now apply H0.
        -- replace (a + S j)%nat with (a + 1 + j)%nat by lia. now apply H1.
      * intros [H1 H2]. split; [|split; [|exact H2]].
        -- intros _. specialize (H1 0%nat c eq_refl).
           now rewrite Nat.add_0_r in H1.
        -- intros j c' Hj. specialize (H1 (S j) c' Hj).
           now replace (a + 1 + j)%nat with (a + S j)%nat by lia.
Qed.

Lemma filter_none {A} (f : A -> bool) (l : list A) :
  (forall x, In x l -> f x = false) -> filter f l = [].
Proof.
  induction l as [|x l IH]; intros H; [reflexivity|].
  cbn [filter]. rewrite (H x (or_introl eq_refl)). apply IH.
  intros y Hy. apply H. now right.
Qed.

Section FindFacts.
Variable data : bytes.
Variable t : list bytes.
Variables p b : nat.

Let s := skipn p data.
Let t0 := hd [] t.
Let occ (k : nat) : bool := startswith t0 (skipn k s).
Let check (o : nat) : bool :=
  pieces_match data (Z.of_nat b)
    (Z.of_nat o + Z.of_nat (List.length t0)) (tl t).

(** The candidate at offset [o] of [data[pos:]] is accepted. *)
Let hit (o : nat) : Prop :=
  lit_match data (p + o) t0 /\ tail_ok data (b + o + List.length t0) (tl t).

Lemma hit_test (o : nat) : occ o = true /\ check o = true <-> hit o.
Proof.
  unfold occ, check, hit, s. rewrite skipn_skipn, (Nat.add_comm o p).
  rewrite startswith_lit_match.
  rewrite (pieces_match_spec data _ _ (b + o + List.length t0)) by lia.
  tauto.
Qed.

Lemma first_passing_filter (n lo : nat) :
  match first_passing data t (Z.of_nat b)
          (map Z.of_nat (filter occ (seq lo n))) with
  | Some r =>
      exists o, r = Z.of_nat (o + b) /\ (lo <= o < lo + n)%nat /\ hit o
                /\ forall o', (lo <= o' < o)%nat -> ~ hit o'
  | None => forall o, (lo <= o < lo + n)%nat -> ~ hit o
  end.
Proof.
  revert lo; induction n as [|n IH]; intros lo.
  - cbn. intros o Ho. lia.
  - cbn [seq filter]. specialize (IH (S lo)).
    destruct (occ lo) eqn:Eo.
    + cbn [map first_passing]. fold t0. fold (check lo).
      destruct (check lo) eqn:Ec.
      * exists lo. split; [lia|]. split; [lia|].
        split; [apply hit_test; now split|]. intros o' Ho'. lia.
      * destruct (first_passing _ _ _ _) as [r|].
        -- destruct IH as (o & Hr & Ho & Hh & Hmin).
           exists o. split; [exact Hr|]. split; [lia|]. split; [exact Hh|].
           intros o' Ho' Hh'.
           destruct (Nat.eq_dec o' lo) as [->|Hne].
           ++ apply hit_test in Hh'. destruct Hh'. congruence.
           ++ apply (Hmin o'); [lia|exact Hh'].
        -- intros o Ho Hh.
           destruct (Nat.eq_dec o lo) as [->|Hne].
           ++ apply hit_test in Hh. destruct Hh. congruence.
           ++ apply (IH o); [lia|exact Hh].
    + destruct (first_passing _ _ _ _) as [r|].
      * destruct IH as (o & Hr & Ho & Hh & Hmin).
        exists o. split; [exact Hr|]. split; [lia|]. split; [exact Hh|].
        intros o' Ho' Hh'.
        destruct (Nat.eq_dec o' lo) as [->|Hne].
        -- apply hit_test in Hh'. destruct Hh'. congruence.
        -- apply (Hmin o'); [lia|exact Hh'].
      * intros o Ho Hh.
        destruct (Nat.eq_dec o lo) as [->|Hne].
        -- apply hit_test in Hh. destruct Hh. congruence.
        -- apply (IH o); [lia|exact Hh].
Qed.

(** The [while] loop gathers every occurrence of the first piece in
    [data[pos:]], in ascending order, and then answers with the first one
    accepted; it ends within [len(data[pos:]) + 3] condition checks. *)
Lemma find_binary_loop_all (fuel n : nat) :
  (n <= List.length s + 1)%nat ->
  (List.length s + 1 - n + 2 <= fuel)%nat ->
  find_binary_loop data t (Z.of_nat p) (Z.of_nat b) fuel (Z.of_nat n)
    (map Z.of_nat (filter occ (seq 0 n)))
  = Ok (first_passing data t (Z.of_nat b)
          (map Z.of_nat (filter occ (seq 0 (List.length s + 1))))).
Proof.
  revert n; induction fuel as [|fuel IH]; intros n Hn Hfuel; [lia|].
  cbn [find_binary_loop].
  destruct (Z.eqb_spec (Z.of_nat n) (-1)) as [|_]; [lia|]. cbn [negb].
  rewrite slice_from_nat. fold s t0.
  destruct (bytes_find_spec s t0 n) as [[Hr Hnone]|(k & Hr & Hk & Hocc & Hmin)];
    rewrite Hr.
  - cbn [Z.eqb Pos.eqb].
    assert (Hall : filter occ (seq 0 (List.length s + 1)) = filter occ (seq 0 n)).
    { replace (List.length s + 1)%nat with (n + (List.length s + 1 - n))%nat
        by lia.
      rewrite seq_app, filter_app.
      rewrite (filter_none occ (seq (0 + n) (List.length s + 1 - n))).
      - apply app_nil_r.
      - intros x Hx. apply in_seq in Hx. apply Hnone. lia. }
    rewrite Hall.
    destruct (filter occ (seq 0 n)) as [|o l]; [reflexivity|].
    cbn [map List.length Nat.ltb Nat.leb].
    destruct (first_passing data t (Z.of_nat b) (Z.of_nat o :: map Z.of_nat l))
      as [r|]; [reflexivity|].
    destruct fuel as [|fuel]; [lia|]. reflexivity.
  - destruct (Z.eqb_spec (Z.of_nat k) (-1)) as [|_]; [lia|].
    replace (Z.of_nat k + 1) with (Z.of_nat (S k)) by lia.
    assert (Hnext : (map Z.of_nat (filter occ (seq 0 n)) ++ [Z.of_nat k])%list
                    = map Z.of_nat (filter occ (seq 0 (S k)))).
    { rewrite seq_S. cbn [Nat.add].
      replace k with (n + (k - n))%nat at 2 by lia.
      rewrite seq_app, !filter_app.
      rewrite (filter_none occ (seq (0 + n) (k - n))).
      - cbn [filter]. fold (occ k) in Hocc. rewrite Hocc.
        now rewrite app_nil_r, map_app.
      - intros x Hx. apply in_seq in Hx. apply Hmin. lia. }
    rewrite Hnext. apply IH; lia.
Qed.

(** What the search returns. *)
Lemma find_binary_loop_result :
  exists res,
    find_binary_loop data t (Z.of_nat p) (Z.of_nat b) (List.length data + 3) 0 []
    = Ok res
    /\ match res with
       | Some r =>
           exists o, r = Z.of_nat (o + b) /\ (o <= List.length data - p)%nat
                     /\ hit o /\ forall o', (o' < o)%nat -> ~ hit o'
       | None => forall o, (o <= List.length data - p)%nat -> ~ hit o
       end.
Proof.
  eexists. split.
  - apply (find_binary_loop_all (List.length data + 3) 0); [lia|].
    unfold s. rewrite length_skipn. lia.
  - pose proof (first_passing_filter (List.length s + 1) 0) as H.
    assert (Hs : List.length s = (List.length data - p)%nat)
      by (unfold s; apply length_skipn).
    destruct (first_passing _ _ _ _) as [r|].
    + destruct H as (o & Hr & Ho & Hh & Hmin).
      exists o. split; [exact Hr|]. split; [lia|]. split; [exact Hh|].
      intros o' Ho'. apply Hmin. lia.
    + intros o Ho. apply H. lia.
Qed.
End FindFacts.

(** A pattern that occurs past the end of the data has no literal byte and
    occurs everywhere. *)
Lemma matches_past_end (data strf : bytes) (a a' : nat) :
  (List.length data <= a)%nat -> matches data strf a -> matches data strf a'.
Proof.
  intros Ha H j c Hj Hc. specialize (H j c Hj Hc).
  assert (a + j < List.length data)%nat by (apply nth_error_Some; congruence).
  lia.
Qed.

(** With a negative [pos] the pieces after the first are tested in
    [data[pos + rt:]], which counts from the end of the data while
    [pos + rt] is negative and from its start afterwards: the index
    returned here, -2, is one at which the pattern does not occur. *)
Example find_binary_negative_pos :
  find_binary [xaa; xbb; x11; x22] [x11; x2e; xaa] (-2) = Ok (Some (-2)).
Proof. vm_compute. reflexivity. Qed.

(** X15: for [pos >= 0], [find_binary] returns the first index from [pos]
    on at which the pattern occurs in [data], a ["."] in the pattern
    standing for any byte (or for none past the end of the data), and
    [None] exactly when the pattern occurs at no index from [pos] on; it
    raises nothing and its loop ends. *)
Theorem find_binary_first_match (data strf : bytes) (pos : Z) :
  0 <= pos ->
  exists res,
    find_binary data strf pos = Ok res
    /\ match res with
       | Some r =>
           pos <= r /\ matches data strf (Z.to_nat r)
           /\ forall a', pos <= a' < r -> ~ matches data strf (Z.to_nat a')
       | None => forall a, pos <= a -> ~ matches data strf (Z.to_nat a)
       end.
Proof.
  intros Hpos. set (p := Z.to_nat pos).
  replace pos with (Z.of_nat p) by (unfold p; lia).
  destruct (find_binary_loop_result data (split_dot strf) p p) as (res & Hr & H).
  exists res. split; [exact Hr|].
  assert (Hhit : forall o,
            matches data strf (p + o)
            <-> lit_match data (p + o) (hd [] (split_dot strf))
                /\ tail_ok data (p + o + List.length (hd [] (split_dot strf)))
                     (tl (split_dot strf))).
  { intros o. apply matches_pieces. }
  destruct res as [r|].
  - destruct H as (o & -> & Ho & Hh & Hmin).
    rewrite Nat2Z.id. split; [lia|].
    split; [rewrite Nat.add_comm; now apply Hhit|].
    intros a' Ha' Hm. apply (Hmin (Z.to_nat a' - p)%nat); [lia|].
    apply Hhit. now replace (p + (Z.to_nat a' - p))%nat with (Z.to_nat a') by lia.
  - intros a Ha Hm.
    destruct (Nat.le_gt_cases (Z.to_nat a - p) (List.length data - p))
      as [Hin|Hout].
    + apply (H (Z.to_nat a - p)%nat Hin). apply Hhit.
      now replace (p + (Z.to_nat a - p))%nat with (Z.to_nat a) by lia.
    + apply (H 0%nat ltac:(lia)). apply Hhit.
      apply (matches_past_end data strf (Z.to_nat a)); [lia|exact Hm].
Qed.

Lemma find_binary_first_match_witness :
  find_binary [x00; x11; x22; x33; x11; x22; x44] [x11; x2e; x44] 2
  = Ok (Some 4)
  /\ matches [x00; x11; x22; x33; x11; x22; x44] [x11; x2e; x44] 4
  /\ ~ matches [x00; x11; x22; x33; x11; x22; x44] [x11; x2e; x44] 3.
Proof.
  destruct (find_binary_first_match
              [x00; x11; x22; x33; x11; x22; x44] [x11; x2e; x44] 2
              ltac:(lia)) as (res & Hr & H).
  assert (E : res = Some 4).
  { assert (Hc : find_binary [x00; x11; x22; x33; x11; x22; x44]
                   [x11; x2e; x44] 2 = Ok (Some 4))
      by (vm_compute; reflexivity).
    congruence. }
  subst res. destruct H as (_ & Hm & Hmin).
  split; [exact Hr|]. split; [exact Hm|].
  exact (Hmin 3 ltac:(lia)).
Defined.

(** The search looks at [pos] only through the slice [data[pos:]]. *)
Lemma find_binary_loop_clamp (data : bytes) (t : list bytes) (pos base : Z)
    (fuel : nat) (pre : Z) (offsets : list Z) :
  find_binary_loop data t pos base fuel pre offsets
  = find_binary_loop data t (Z.of_nat (clamp_index pos (List.length data)))
      base fuel pre offsets.
Proof.
  revert pre offsets; induction fuel as [|fuel IH]; intros pre offsets;
    [reflexivity|].
  cbn [find_binary_loop]. rewrite slice_from_nat.
  change (slice_from pos data)
    with (skipn (clamp_index pos (List.length data)) data).
  destruct (negb (pre =? -1)); [|reflexivity].
  destruct (bytes_find (skipn (clamp_index pos (List.length data)) data)
              (hd [] t) pre =? -1).
  - destruct (0 <? List.length offsets)%nat; [|reflexivity].
    destruct (first_passing data t base offsets); [reflexivity|apply IH].
  - apply IH.
Qed.

(** X16: [Patchtools.find_binary] searches the first piece of the pattern
    in [data[pos:]] like [find_binary], but tests the pieces after it at the
    offset counted from the start of [data[pos:]], in [data] itself, and
    returns that offset.  For every integer [pos], with [p] the index at
    which the slice [data[pos:]] starts ([pos] clamped to the buffer, a
    negative one counted from the end), the result is the first offset [o]
    such that the first piece occurs in [data] at [p + o] and the other
    pieces follow from [o] on, [None] when there is no such offset; the
    call raises nothing.  For [pos = 0] it is [find_binary]. *)
Theorem patchtools_find_binary_relative (data strf : bytes) (pos : Z) :
  let p := clamp_index pos (List.length data) in
  let t0 := hd [] (split_dot strf) in
  let accepted (o : nat) :=
    lit_match data (p + o) t0
    /\ tail_ok data (o + List.length t0) (tl (split_dot strf)) in
  (exists res,
      Patchtools_find_binary data strf pos = Ok res
      /\ match res with
         | Some r =>
             exists o, r = Z.of_nat o /\ (o <= List.length data - p)%nat
                       /\ accepted o /\ forall o', (o' < o)%nat -> ~ accepted o'
         | None => forall o, (o <= List.length data - p)%nat -> ~ accepted o
         end)
  /\ slice_from pos data = skipn p data
  /\ Patchtools_find_binary data strf 0 = find_binary data strf 0.
Proof.
  intros p t0 accepted. split; [|split; reflexivity].
  unfold Patchtools_find_binary. rewrite find_binary_loop_clamp. fold p.
  destruct (find_binary_loop_result data (split_dot strf) p 0) as (res & Hr & H).
  exists res. split; [exact Hr|].
  destruct res as [r|].
  - destruct H as (o & -> & Ho & Hh & Hmin).
    exists o. split; [f_equal; lia|]. split; [exact Ho|].
    split; [exact Hh|exact Hmin].
  - exact H.
Qed.

(** ** More on [Patchtools] *)

Lemma uart_valid_sc_loop_report (sc rest : bytes) (idx : nat) :
  match Patchtools.uart_valid_sc_loop sc idx rest with
  | (true, log) => log = [] /\ forall b, In b rest -> ~ In b forbiddenSet
  | (false, log) =>
      exists pre c post,
        rest = (pre ++ c :: post)%list
        /\ (forall b, In b pre -> ~ In b forbiddenSet)
        /\ In c forbiddenSet
        /\ log = [bad_char_line c (idx + List.length pre);
                  Patchtools.repr_hex sc]
  end.
Proof.
  revert idx; induction rest as [|c rest IH]; intros idx.
  - cbn. split; [reflexivity|]. intros b [].
  - cbn [Patchtools.uart_valid_sc_loop].
    destruct (existsb (bytes_eqb [c]) Patchtools.badchars_sc) eqn:E.
    + exists [], c, rest. split; [reflexivity|]. split; [intros b []|].
      split; [now apply singleton_in_badchars, in_badchars|].
      cbn [List.length]. now rewrite Nat.add_0_r.
    + assert (Hc : ~ In c forbiddenSet).
      { intros Hin. apply singleton_in_badchars, in_badchars in Hin.
        change Patchtools.badchars with Patchtools.badchars_sc in Hin.
        congruence. }
      specialize (IH (S idx)).
      destruct (Patchtools.uart_valid_sc_loop sc (S idx) rest) as [[|] log].
      * destruct IH as [-> Hall]. split; [reflexivity|].
        intros b [<-|Hb]; [exact Hc|now apply Hall].
      * destruct IH as (pre & c' & post & -> & Hpre & Hc' & ->).
        exists (c :: pre), c', post. split; [reflexivity|]. split.
        -- intros b [<-|Hb]; [exact Hc|now apply Hpre].
        -- split; [exact Hc'|]. cbn [List.length]. do 2 f_equal. lia.
Qed.

(** X17: the diagnostic of [uart_valid_sc] names the first forbidden byte:
    when the verdict is [False], exactly two lines were printed; the first
    gives the first forbidden byte of the buffer, its index and the index of
    its 4-byte opcode (the index divided by 4, rounded down), the second the
    whole buffer in hexadecimal; when the verdict is [True], nothing was
    printed. *)
Theorem uart_valid_sc_reports_first_bad_char (sc : bytes) :
  match Patchtools.uart_valid_sc sc with
  | (true, log) => log = [] /\ forall b, In b sc -> ~ In b forbiddenSet
  | (false, log) =>
      exists pre c post,
        sc = (pre ++ c :: post)%list
        /\ (forall b, In b pre -> ~ In b forbiddenSet)
        /\ In c forbiddenSet
        /\ log = [bad_char_line c (List.length pre); Patchtools.repr_hex sc]
  end.
Proof.
  unfold Patchtools.uart_valid_sc.
  exact (uart_valid_sc_loop_report sc sc 0).
Qed.

Lemma small_divisor_has_bad_chars (d : Z) :
  0 <= d < 0x104 -> d mod 4 = 0 ->
  Patchtools.has_bad_uart_chars (Struct.le_bytes 2 d) = true.
Proof.
  intros Hd Hmod.
  assert (Hall : forallb
            (fun k => Patchtools.has_bad_uart_chars
                        (Struct.le_bytes 2 (4 * Z.of_nat k)))
            (seq 0 65) = true) by (vm_compute; reflexivity).
  rewrite forallb_forall in Hall.
  apply Z.mod_divide in Hmod; [|lia]. destruct Hmod as [k Hk].
  specialize (Hall (Z.to_nat k)).
  replace (4 * Z.of_nat (Z.to_nat k)) with d in Hall by lia.
  apply Hall. apply in_seq. lia.
Qed.

(** X18: [generate_offset] never returns a non-zero divisor of magnitude
    below 0x104: the 2-byte encoding of every smaller multiple of 4 holds
    the forbidden byte 0x00.  So the immediate of the [sub] or [add] that
    [generate_offset_asm] emits is 0 or at least 0x104. *)
Theorem generate_offset_magnitude (offset r : Z) :
  Patchtools.generate_offset offset = Ok r -> r = 0 \/ 0x104 <= Z.abs r.
Proof.
  intros H. unfold Patchtools.generate_offset in H.
  apply generate_offset_run_cases in H.
  rewrite positive_pass_shape, negative_pass_shape in H.
  assert (Hbig : forall d target,
            0 <= d -> d mod 4 = 0 ->
            passes Patchtools.has_bad_uart_chars target d -> 0x104 <= d).
  { intros d target Hd Hmod (data & data2 & _ & H2 & _ & B2).
    destruct (Z.lt_ge_cases d 0x104) as [Hlt|Hge]; [|exact Hge].
    exfalso. unfold Struct.pack_H in H2.
    rewrite pack_uint_range in H2 by (simpl; lia).
    assert (E2 : data2 = Struct.le_bytes 2 d) by congruence. subst data2.
    rewrite small_divisor_has_bad_chars in B2 by (assumption || lia).
    discriminate. }
  destruct H as [Hp|[[_ Hn]|(_ & _ & ->)]]; [| |now left].
  - apply pass_found in Hp. destruct Hp as (d & -> & Hd & Hmod & Hok & _).
    rewrite Z.sub_0_r in Hmod. right.
    pose proof (Hbig d _ ltac:(lia) Hmod Hok). lia.
  - apply pass_found in Hn. destruct Hn as (d & -> & Hd & Hmod & Hok & _).
    rewrite Z.sub_0_r in Hmod. right.
    pose proof (Hbig d _ ltac:(lia) Hmod Hok). lia.
Qed.

Lemma generate_offset_magnitude_witness :
  Patchtools.generate_offset 0x41000000 = Ok (- 0x104)
  /\ (- 0x104 = 0 \/ 0x104 <= Z.abs (- 0x104)).
Proof.
  assert (H : Patchtools.generate_offset 0x41000000 = Ok (- 0x104))
    by (vm_compute; reflexivity).
  split; [exact H|]. exact (generate_offset_magnitude 0x41000000 (- 0x104) H).
Defined.

(** ** [Structhelper.dwords], [qwords] and [shorts] *)

Lemma chunks_firstn (w n : nat) (l : bytes) :
  StructN.chunks w n (firstn (n * w) l) = StructN.chunks w n l.
Proof.
  revert l; induction n as [|n IH]; intros l; [reflexivity|].
  cbn [StructN.chunks Nat.mul]. f_equal.
  - rewrite firstn_firstn. f_equal. lia.
  - rewrite skipn_firstn_comm.
    replace (w + n * w - w)%nat with (n * w)%nat by lia. apply IH.
Qed.

Lemma chunks_length (w n : nat) (l : bytes) :
  List.length (StructN.chunks w n l) = n.
Proof.
  revert l; induction n as [|n IH]; intros l; [reflexivity|].
  cbn [StructN.chunks List.length]. now rewrite IH.
Qed.

Lemma read_uint_times_fits (w n : nat) (p : Z) (d : bytes) (big : bool) :
  (0 < w)%nat -> 0 <= p ->
  p + Z.of_nat (w * n) <= Z.of_nat (List.length d) ->
  read_uint_times w n (Structhelper.mk p d) big
  = Ok (map (fun c => from_bytes c (StructN.order big))
          (StructN.chunks w n (skipn (Z.to_nat p) d)),
        Structhelper.mk (p + Z.of_nat (w * n)) d).
Proof.
  intros Hw. revert p; induction n as [|n IH]; intros p Hp Hfit.
  - cbn [read_uint_times StructN.chunks map]. do 3 f_equal. lia.
  - cbn [read_uint_times].
    destruct (read_uint_cases w (Structhelper.mk p d) big Hw) as [Hone _];
      [exact Hp|].
    cbn [Structhelper.pos Structhelper.data] in Hone.
    rewrite Hone by lia. cbn [bind fst snd].
    rewrite IH by lia. cbn [bind fst snd StructN.chunks map].
    rewrite skipn_skipn.
    replace (Z.to_nat (p + Z.of_nat w)) with (w + Z.to_nat p)%nat by lia.
    do 3 f_equal. lia.
Qed.

(** X19: [dwords(n)], [qwords(n)] and [shorts(n)] read all or nothing: with
    a non-negative position and at least [n] fields of [w] bytes left they
    return what [n] consecutive calls of [dword] (resp. [qword], [short])
    return, [n] values, and end at the same position; with a negative [n],
    or a positive [n] and fewer bytes left, they raise [struct.error]. *)
Theorem structhelper_read_uints (w : nat) (self : Structhelper.t) (n : Z)
    (big : bool) :
  (0 < w)%nat -> 0 <= Structhelper.pos self ->
  let p := Structhelper.pos self in
  let d := Structhelper.data self in
  (0 <= n -> p + Z.of_nat w * n <= Z.of_nat (List.length d) ->
   exists vs,
     Structhelper.read_uints w self n big
     = Ok (vs, Structhelper.mk (p + Z.of_nat w * n) d)
     /\ read_uint_times w (Z.to_nat n) self big
        = Ok (vs, Structhelper.mk (p + Z.of_nat w * n) d)
     /\ Z.of_nat (List.length vs) = n)
  /\ (n < 0 \/ (0 < n /\ Z.of_nat (List.length d) < p + Z.of_nat w * n) ->
      Structhelper.read_uints w self n big = Raise StructError)
  /\ Structhelper.dwords = Structhelper.read_uints 4
  /\ Structhelper.qwords = Structhelper.read_uints 8
  /\ Structhelper.shorts = Structhelper.read_uints 2.
Proof.
  intros Hw Hp p d. split; [|split; [|repeat split]].
  - intros Hn Hfit.
    exists (map (fun c => from_bytes c (StructN.order big))
              (StructN.chunks w (Z.to_nat n) (skipn (Z.to_nat p) d))).
    split; [|split].
    + unfold Structhelper.read_uints, StructN.unpack_n. fold p d.
      destruct (Z.ltb_spec n 0); [lia|].
      replace (Z.of_nat w * n) with (Z.of_nat (Z.to_nat n * w)) by lia.
      rewrite pyslice_window by exact Hp. rewrite window_length.
      rewrite Nat.min_l by lia. rewrite Nat.eqb_refl. cbn [bind].
      now rewrite chunks_firstn.
    + destruct self as [p' d']. cbn [Structhelper.pos Structhelper.data] in *.
      subst p d. rewrite read_uint_times_fits by lia. do 3 f_equal. lia.
    + rewrite length_map, chunks_length. lia.
  - intros Hbad. unfold Structhelper.read_uints, StructN.unpack_n. fold p d.
    destruct (Z.ltb_spec n 0) as [|Hn]; [reflexivity|].
    destruct Hbad as [|[Hpos Hshort]]; [lia|].
    replace (Z.of_nat w * n) with (Z.of_nat (Z.to_nat n * w)) in * by lia.
    assert (0 < Z.to_nat n * w)%nat by nia.
    rewrite pyslice_window by exact Hp. rewrite window_length.
    rewrite Nat.min_r by lia.
    destruct (Nat.eqb_spec (List.length d - Z.to_nat p) (Z.to_nat n * w));
      [lia|reflexivity].
Qed.

Lemma structhelper_read_uints_witness :
  Structhelper.dwords
    (Structhelper.mk 1 [x00; x01; x00; x00; x00; x02; x00; x00; x00]) 2 false
  = Ok ([1; 2], Structhelper.mk 9 [x00; x01; x00; x00; x00; x02; x00; x00; x00])
  /\ Structhelper.dwords
       (Structhelper.mk 1 [x00; x01; x00; x00; x00; x02; x00; x00; x00]) 3 false
     = Raise StructError.
Proof.
  destruct (structhelper_read_uints 4
              (Structhelper.mk 1 [x00; x01; x00; x00; x00; x02; x00; x00; x00])
              2 false ltac:(lia) ltac:(simpl; lia)) as (Hfit & _).
  destruct (structhelper_read_uints 4
              (Structhelper.mk 1 [x00; x01; x00; x00; x00; x02; x00; x00; x00])
              3 false ltac:(lia) ltac:(simpl; lia)) as (_ & Hshort & _).
  split.
  - destruct (Hfit ltac:(lia) ltac:(simpl; lia)) as (vs & _ & Ht & _).
    unfold Structhelper.dwords.
    destruct (Hfit ltac:(lia) ltac:(simpl; lia)) as (vs' & Hu & Ht' & _).
    rewrite Hu. rewrite <- Ht'. vm_compute. reflexivity.
  - apply Hshort. right. simpl. lia.
Defined.

(** ** [parse_args] *)

Example parse_args_rs :
  (Args.parse_args nat "rs" "0,16,out.bin"
     [("--debugmode", 1%nat); ("rs", 0%nat)]
   = Ok [("--debugmode", Args.Main 1%nat);
         ("<start_sector>", Args.Piece "0"); ("<sectors>", Args.Piece "16");
         ("<filename>", Args.Piece "out.bin")])%string.
Proof. vm_compute. reflexivity. Qed.

Lemma parse_args_pieces (args : string) :
  exists h t, pieces_of args = h :: t.
Proof.
  unfold pieces_of. destruct (Args.contains "," args); [|now eexists; eexists].
  destruct args as [|c args]; cbn [Args.split]; [now eexists; eexists|].
  destruct (Ascii.eqb c ","); [now eexists; eexists|].
  destruct (Args.split "," args); now eexists; eexists.
Qed.

Section ArgsFacts.
Variable V : Type.

Lemma dict_get_set (k key : string) (v : Args.value V) (d : Args.dict V) :
  Args.dict_get V k (Args.dict_set V key v d)
  = if String.eqb k key then Some v else Args.dict_get V k d.
Proof.
  induction d as [|[k' v'] d IH]; cbn [Args.dict_set Args.dict_get].
  - reflexivity.
  - destruct (String.eqb_spec key k') as [->|Hne]; cbn [Args.dict_get].
    + destruct (String.eqb k k'); reflexivity.
    + rewrite IH. destruct (String.eqb_spec k k') as [->|Hne'].
      * destruct (String.eqb_spec k' key) as [->|_]; [contradiction|].
        reflexivity.
      * reflexivity.
Qed.

Lemma copy_options_get (k : string) (mainargs : list (string * V))
    (options : Args.dict V) :
  NoDup (map fst mainargs) ->
  (forall v, In (k, v) mainargs -> Args.contains "--" k = true ->
             Args.dict_get V k (Args.copy_options V mainargs options)
             = Some (Args.Main v))
  /\ ((forall v, ~ In (k, v) mainargs) \/ Args.contains "--" k = false ->
      Args.dict_get V k (Args.copy_options V mainargs options)
      = Args.dict_get V k options).
Proof.
  revert options; induction mainargs as [|[arg v'] mainargs IH];
    intros options Hnd; cbn [Args.copy_options].
  - split; [intros v []|reflexivity].
  - cbn [map fst] in Hnd. inversion Hnd as [|? ? Hnotin Hnd']; subst.
    split.
    + intros v [Heq|Hin] Hk.
      * injection Heq as -> ->. rewrite Hk.
        rewrite (proj2 (IH _ Hnd')).
        -- rewrite dict_get_set. now rewrite String.eqb_refl.
        -- left. intros v0 Hin. apply Hnotin.
           apply (in_map fst) in Hin. exact Hin.
      * now apply (proj1 (IH _ Hnd')).
    + intros Hcase.
      rewrite (proj2 (IH _ Hnd')).
      * destruct (Args.contains "--" arg) eqn:Ea; [|reflexivity].
        rewrite dict_get_set.
        destruct (String.eqb_spec k arg) as [->|_]; [|reflexivity].
        destruct Hcase as [Hno|Hplain]; [|congruence].
        exfalso. apply (Hno v'). now left.
      * destruct Hcase as [Hno|Hplain]; [left|now right].
        intros v0 Hin. apply (Hno v0). now right.
Qed.

Lemma assignments_plain (cmd : string) :
  Forall (fun ki => Args.contains "--" (fst ki) = false) (Args.assignments cmd).
Proof.
  unfold Args.assignments.
  repeat match goal with
         | |- context [String.eqb cmd ?c] =>
             destruct (String.eqb cmd c); [repeat constructor|]
         end.
  constructor.
Qed.

Lemma assign_spec (todo : list (string * nat)) (opts : list string)
    (options : Args.dict V) :
  (Exists (fun ki => (List.length opts <= snd ki)%nat) todo
   /\ Args.assign V todo opts options = Raise IndexError)
  \/ (Forall (fun ki => (snd ki < List.length opts)%nat) todo
      /\ exists options',
           Args.assign V todo opts options = Ok options'
           /\ forall k,
                (forall i, ~ In (k, i) todo) ->
                Args.dict_get V k options' = Args.dict_get V k options).
Proof.
  revert options; induction todo as [|[key i] todo IH]; intros options;
    cbn [Args.assign].
  - right. split; [constructor|]. exists options. now split.
  - destruct (nth_error opts i) as [piece|] eqn:E.
    + assert (Hi : (i < List.length opts)%nat)
        by (apply nth_error_Some; congruence).
      destruct (IH (Args.dict_set V key (Args.Piece piece) options))
        as [[Hex Hr]|[Hall (o' & Hr & Hkeep)]].
      * left. split; [now apply Exists_cons_tl|exact Hr].
      * right. split; [constructor; assumption|].
        exists o'. split; [exact Hr|]. intros k Hk.
        rewrite Hkeep by (intros i' Hin; apply (Hk i'); now right).
        rewrite dict_get_set.
        destruct (String.eqb_spec k key) as [->|_]; [|reflexivity].
        exfalso. apply (Hk i). now left.
    + left. split; [|reflexivity]. apply Exists_cons_hd.
      apply nth_error_None in E. exact E.
Qed.

(** X20: on success [parse_args] hands on the options of [mainargs]: every
    entry of [mainargs] whose key contains ["--"] is in the result with its
    value, whatever the command and the arguments are, and a key without
    ["--"] that the command does not assign is not in the result. *)
Theorem parse_args_keeps_options (cmd args : string)
    (mainargs : list (string * V)) (options : Args.dict V) :
  NoDup (map fst mainargs) ->
  Args.parse_args V cmd args mainargs = Ok options ->
  (forall k v, In (k, v) mainargs -> Args.contains "--" k = true ->
               Args.dict_get V k options = Some (Args.Main v))
  /\ (forall k, Args.contains "--" k = false ->
                (forall i, ~ In (k, i) (Args.assignments cmd)) ->
                Args.dict_get V k options = None).
Proof.
  intros Hnd. unfold Args.parse_args.
  destruct (assign_spec (Args.assignments cmd)
              (if Args.contains "," args then Args.split "," args else [args])
              (Args.copy_options V mainargs []))
    as [[_ Hr]|[_ (o' & Hr & Hkeep)]]; rewrite Hr; [discriminate|].
  intros H; injection H as <-. split.
  - intros k v Hin Hk. rewrite Hkeep.
    + now apply (proj1 (copy_options_get k mainargs [] Hnd)).
    + intros i Hi.
      pose proof (assignments_plain cmd) as Hplain.
      rewrite Forall_forall in Hplain. specialize (Hplain _ Hi).
      cbn [fst] in Hplain. congruence.
  - intros k Hk Hnot. rewrite Hkeep by exact Hnot.
    rewrite (proj2 (copy_options_get k mainargs [] Hnd)); [reflexivity|].
    now right.
Qed.

(** X21: [parse_args] raises [IndexError] exactly when the command assigns
    a piece of [args] that is not there, and returns otherwise; the pieces
    are what is between the commas of [args], so there is always one. *)
Theorem parse_args_index_error (cmd args : string)
    (mainargs : list (string * V)) :
  (Args.parse_args V cmd args mainargs = Raise IndexError
   <-> exists key i, In (key, i) (Args.assignments cmd)
                     /\ (List.length (pieces_of args) <= i)%nat)
  /\ (Args.parse_args V cmd args mainargs <> Raise IndexError ->
      exists options, Args.parse_args V cmd args mainargs = Ok options)
  /\ (1 <= List.length (pieces_of args))%nat.
Proof.
  unfold Args.parse_args. fold (pieces_of args).
  destruct (assign_spec (Args.assignments cmd) (pieces_of args)
              (Args.copy_options V mainargs []))
    as [[Hex Hr]|[Hall (o' & Hr & _)]]; rewrite Hr.
  - split; [|split].
    + split; [intros _|reflexivity].
      apply Exists_exists in Hex. destruct Hex as ([key i] & Hin & Hi).
      now exists key, i.
    + intros C. now elim C.
    + destruct (parse_args_pieces args) as (h & t & ->). cbn. lia.
  - split; [|split].
    + split; [discriminate|]. intros (key & i & Hin & Hi).
      rewrite Forall_forall in Hall. specialize (Hall _ Hin). cbn in Hall. lia.
    + intros _. now exists o'.
    + destruct (parse_args_pieces args) as (h & t & ->). cbn. lia.
Qed.

(** X22: for the command ["w"] the file name is the partition name: both
    [<partitionname>] and [<filename>] are set to the first piece of
    [args], a second piece is not used, and no [IndexError] is raised. *)
Theorem parse_args_w (args : string) (mainargs : list (string * V)) :
  exists options piece,
    Args.parse_args V "w" args mainargs = Ok options
    /\ nth_error (pieces_of args) 0 = Some piece
    /\ Args.dict_get V "<partitionname>" options = Some (Args.Piece piece)
    /\ Args.dict_get V "<filename>" options = Some (Args.Piece piece).
Proof.
  unfold Args.parse_args. fold (pieces_of args).
  change (Args.assignments "w")
    with [("<partitionname>"%string, 0%nat); ("<filename>"%string, 0%nat)].
  assert (Hp : exists piece, nth_error (pieces_of args) 0 = Some piece).
  { destruct (parse_args_pieces args) as (h & t & ->). now exists h. }
  destruct Hp as [piece Hp]. cbn [Args.assign]. rewrite Hp.
  eexists. exists piece. split; [reflexivity|]. split; [reflexivity|].
  rewrite !dict_get_set. split; reflexivity.
Qed.
End ArgsFacts.

Lemma parse_args_keeps_options_witness :
  exists options,
    Args.parse_args nat "rs" "0,16,out.bin"
      [("--debugmode"%string, 1%nat); ("rs"%string, 0%nat)] = Ok options
    /\ Args.dict_get nat "--debugmode" options = Some (Args.Main 1%nat)
    /\ Args.dict_get nat "rs" options = None.
Proof.
  eexists. split; [vm_compute; reflexivity|].
  match goal with
  | |- Args.dict_get _ _ ?o = _ /\ _ =>
      destruct (parse_args_keeps_options nat "rs" "0,16,out.bin"
                  [("--debugmode"%string, 1%nat); ("rs"%string, 0%nat)] o)
        as [Hkeep Hdrop]
  end.
  - repeat constructor; cbn; intuition discriminate.
  - vm_compute. reflexivity.
  - split.
    + apply Hkeep; [now left|reflexivity].
    + apply Hdrop; [reflexivity|].
      intros i Hin. vm_compute in Hin. intuition discriminate.
Defined.

(** ** The byte filter on concatenated buffers *)

(** X23: the byte filter distributes over concatenation: a buffer made of
    two parts has a forbidden byte exactly when one of the parts has, so
    [uart_valid_sc] accepts the whole exactly when it accepts both parts. *)
Theorem has_bad_uart_chars_app (a b : bytes) :
  Patchtools.has_bad_uart_chars (a ++ b)
  = Patchtools.has_bad_uart_chars a || Patchtools.has_bad_uart_chars b
  /\ fst (Patchtools.uart_valid_sc (a ++ b))
     = fst (Patchtools.uart_valid_sc a) && fst (Patchtools.uart_valid_sc b).
Proof.
  assert (H : Patchtools.has_bad_uart_chars (a ++ b)
              = Patchtools.has_bad_uart_chars a
                || Patchtools.has_bad_uart_chars b).
  { induction a as [|c a IH]; [reflexivity|].
    cbn [app]. rewrite !has_bad_uart_chars_cons, IH.
    now destruct (existsb (bytes_eqb [c]) Patchtools.badchars). }
  split; [exact H|].
  unfold Patchtools.uart_valid_sc. rewrite !uart_valid_sc_loop_verdict, H.
  apply negb_orb.
Qed.

(** ** Parsing back an image in the standard layout *)

Lemma encode_fields_cons (w : nat) (v : Z) (fields : list (nat * Z)) :
  encode_fields ((w, v) :: fields)
  = (Struct.le_bytes w v ++ encode_fields fields)%list.
Proof. reflexivity. Qed.

Lemma encode_fields_length (fields : list (nat * Z)) :
  List.length (encode_fields fields) = list_sum (map fst fields).
Proof.
  induction fields as [|[w v] fields IH]; [reflexivity|].
  rewrite encode_fields_cons, length_app, le_bytes_length, IH. reflexivity.
Qed.

(** [unpack] reads back what was laid out field by field. *)
Lemma unpack_encode_fields (fields : list (nat * Z)) :
  fields_fit fields ->
  Struct.unpack (map fst fields) (encode_fields fields) = Ok (map snd fields).
Proof.
  intros Hfit. unfold Struct.unpack, Struct.calcsize.
  rewrite encode_fields_length, Nat.eqb_refl. f_equal.
  induction Hfit as [|[w v] fields Hv _ IH]; [reflexivity|].
  cbn [map fst snd Struct.fields]. rewrite encode_fields_cons.
  rewrite firstn_app, le_bytes_length, Nat.sub_diag, firstn_O, app_nil_r.
  rewrite firstn_all2 by (rewrite le_bytes_length; lia).
  rewrite skipn_app, le_bytes_length, Nat.sub_diag, skipn_O.
  rewrite skipn_all2 by (rewrite le_bytes_length; lia).
  cbn [app]. rewrite IH. f_equal. now apply le_value_le_bytes.
Qed.

Lemma zslice_middle (A X R : bytes) (a b : Z) :
  a = Z.of_nat (List.length A) -> b = a + Z.of_nat (List.length X) ->
  ELF.zslice a b (A ++ X ++ R) = X.
Proof.
  intros -> ->. unfold ELF.zslice, slice.
  rewrite <- Nat2Z.inj_add, !Nat2Z.id.
  replace (List.length A + List.length X - List.length A)%nat
    with (List.length X) by lia.
  rewrite skipn_app, skipn_all, Nat.sub_diag, skipn_O. cbn [app].
  rewrite firstn_app, Nat.sub_diag, firstn_O, app_nil_r.
  apply firstn_all.
Qed.

Lemma parse_programentry_encode (cls : Z) (pe : ELF.ProgramEntry.t) :
  cls = 1 \/ cls = 2 ->
  fields_fit (entry_fields cls pe) ->
  ELF.parse_programentry cls (encode_entry cls pe) = Ok pe
  /\ List.length (encode_entry cls pe) = if cls =? 1 then 32%nat else 56%nat.
Proof.
  intros Hcls Hfit. unfold encode_entry. split.
  - pose proof (unpack_encode_fields _ Hfit) as Hu.
    unfold ELF.parse_programentry.
    destruct Hcls as [-> | ->]; cbn [Z.eqb Pos.eqb entry_fields map fst snd] in *;
      rewrite Hu; cbn [bind]; now destruct pe.
  - rewrite encode_fields_length.
    destruct Hcls as [-> | ->]; reflexivity.
Qed.

Lemma parse_entries_concat (cls : Z) (es : nat) (H : bytes)
    (rest pre : list ELF.ProgramEntry.t) :
  (forall e, In e (pre ++ rest) -> List.length (encode_entry cls e) = es) ->
  (forall e, In e rest ->
             ELF.parse_programentry cls (encode_entry cls e) = Ok e) ->
  ELF.parse_entries
    (H ++ List.concat (map (encode_entry cls) pre)
       ++ List.concat (map (encode_entry cls) rest))
    cls (Z.of_nat (List.length H)) (Z.of_nat es)
    (seq (List.length pre) (List.length rest))
  = Ok rest.
Proof.
  revert pre; induction rest as [|e rest IH]; intros pre Hlen Hparse.
  - reflexivity.
  - cbn [List.length seq ELF.parse_entries map List.concat].
    assert (Hpre : List.length (List.concat (map (encode_entry cls) pre))
                   = (List.length pre * es)%nat).
    { assert (Hl : forall x, In x pre -> List.length (encode_entry cls x) = es)
        by (intros x Hx; apply Hlen, in_or_app; now left).
      clear -Hl. induction pre as [|x pre IHp]; [reflexivity|].
      cbn [map List.concat List.length]. rewrite length_app, IHp, Hl.
      - lia.
      - now left.
      - intros y Hy. apply Hl. now right. }
    assert (He : List.length (encode_entry cls e) = es).
    { apply Hlen, in_or_app. right. now left. }
    rewrite (app_assoc H).
    rewrite zslice_middle.
    + rewrite (Hparse e (or_introl eq_refl)). cbn [bind].
      specialize (IH (pre ++ [e])%list).
      rewrite map_app, concat_app in IH. cbn [map List.concat] in IH.
      rewrite app_nil_r, length_app in IH. cbn [List.length] in IH.
      rewrite Nat.add_1_r in IH.
      rewrite <- (app_assoc (List.concat (map (encode_entry cls) pre))
                    (encode_entry cls e)) in IH.
      rewrite <- !app_assoc. rewrite IH; [reflexivity| |].
      * intros x Hx. apply Hlen. rewrite <- app_assoc in Hx. exact Hx.
      * intros x Hx. apply Hparse. now right.
    + rewrite length_app, Hpre. lia.
    + rewrite He. lia.
Qed.

(** X24: [ELF.__init__] reads back an image in the standard layout: for a
    class-1 or class-2 image built from fewer than 2^16 program headers
    whose fields fit their widths, it returns, without printing, an object
    of that class whose entries are the program headers given and whose
    segments are computed from them, in order. *)
Theorem elf_init_reads_image (cls : Z) (entries : list ELF.ProgramEntry.t)
    (filename : string) :
  cls = 1 \/ cls = 2 ->
  Z.of_nat (List.length entries) < 2 ^ 16 ->
  Forall (fun pe => fields_fit (entry_fields cls pe)) entries ->
  exists self,
    ELF.init (elf_image cls entries) filename = (Ok self, [])
    /\ ELF.elfclass self = cls
    /\ ELF.pentry self = ELF.PentryList entries
    /\ ELF.memorylayout self = map ELF.segment_of entries.
Proof.
  intros Hcls Hcount Hfit. rewrite Forall_forall in Hfit.
  set (start := if cls =? 1 then 0x28%nat else 0x34%nat).
  set (ehsize := if cls =? 1 then 0x34%nat else 0x40%nat).
  set (entsize := if cls =? 1 then 32%nat else 56%nat).
  set (triplet := [(2%nat, Z.of_nat ehsize); (2%nat, Z.of_nat entsize);
                   (2%nat, Z.of_nat (List.length entries))]).
  set (ident := ([x7f; x45; x4c; x46; Struct.byte_of_Z cls]
                 ++ repeat x00 (start - 5))%list).
  set (pad := repeat x00 (ehsize - start - 6)).
  assert (Himg : elf_image cls entries
                 = (ident ++ encode_fields triplet
                    ++ pad ++ List.concat (map (encode_entry cls) entries))%list)
    by reflexivity.
  assert (Hident : List.length ident = start).
  { unfold ident, start. destruct Hcls as [-> | ->]; reflexivity. }
  assert (Htrip : fields_fit triplet).
  { unfold triplet, ehsize, entsize.
    destruct Hcls as [-> | ->]; repeat constructor; cbn; lia. }
  assert (Hcb : Struct.Z_of_byte (Struct.byte_of_Z cls) = cls).
  { destruct Hcls as [-> | ->]; reflexivity. }
  assert (Hhead : List.length (ident ++ encode_fields triplet ++ pad) = ehsize).
  { rewrite !length_app, Hident, encode_fields_length. unfold pad, start, ehsize.
    rewrite repeat_length. destruct Hcls as [-> | ->]; reflexivity. }
  assert (Hparse : ELF.parse (elf_image cls entries) filename
                   = (Ok (cls, (ELF.HeaderBytes
                                  (ELF.zslice 0
                                     (Z.of_nat ehsize
                                      + Z.of_nat entsize
                                        * Z.of_nat (List.length entries))
                                     (elf_image cls entries)),
                                ELF.PentryList entries)), [])).
  { unfold ELF.parse.
    replace (nth_error (elf_image cls entries) 4)
      with (Some (Struct.byte_of_Z cls)) by reflexivity.
    rewrite Hcb. cbv zeta.
    assert (Hu : Struct.unpack [2; 2; 2]%nat
                   (ELF.zslice (Z.of_nat start) (Z.of_nat start + 3 * 2)
                      (elf_image cls entries))
                 = Ok [Z.of_nat ehsize; Z.of_nat entsize;
                       Z.of_nat (List.length entries)]).
    { rewrite Himg, zslice_middle.
      - exact (unpack_encode_fields triplet Htrip).
      - now rewrite Hident.
      - rewrite encode_fields_length. reflexivity. }
    assert (Hp : ELF.parse_entries (elf_image cls entries) cls
                   (Z.of_nat ehsize) (Z.of_nat entsize)
                   (seq 0 (Z.to_nat (Z.of_nat (List.length entries))))
                 = Ok entries).
    { rewrite Nat2Z.id. rewrite Himg.
      rewrite (app_assoc ident), (app_assoc (ident ++ _)), <- Hhead.
      rewrite <- (app_assoc ident).
      apply (parse_entries_concat cls entsize
               (ident ++ encode_fields triplet ++ pad) entries []).
      - intros e He. cbn [app] in He.
        apply (parse_programentry_encode cls e Hcls (Hfit e He)).
      - intros e He.
        apply (parse_programentry_encode cls e Hcls (Hfit e He)). }
    destruct Hcls as [-> | ->]; cbn [Z.eqb Pos.eqb].
    - change 0x28 with (Z.of_nat start). rewrite Hu. cbn [bind].
      rewrite Hp. reflexivity.
    - change 0x34 with (Z.of_nat start). rewrite Hu. cbn [bind].
      rewrite Hp. reflexivity. }
  eexists. unfold ELF.init. rewrite Hparse. cbn [bind].
  split; [reflexivity|]. repeat split.
Qed.

Lemma elf_init_reads_image_witness :
  exists self,
    ELF.init (elf_image 2 overlapping_entries) "image" = (Ok self, [])
    /\ ELF.elfclass self = 2
    /\ ELF.pentry self = ELF.PentryList overlapping_entries
    /\ ELF.memorylayout self = map ELF.segment_of overlapping_entries.
Proof.
  apply (elf_init_reads_image 2 overlapping_entries "image").
  - now right.
  - simpl. lia.
  - repeat constructor; cbn; lia.
Defined.
